(** * Verification of the YouTube ingestion flows ([youtube.py])

    A shallow embedding of [Youtube.collect_video_snippets] and
    [Youtube.collect_channel_stats]: the string and timestamp helpers the
    flows use, the JSON payloads they rewrite, the SQL they send to Athena,
    and the two flows as programs in a state-and-exception monad over the
    trace of operations performed on the external collaborators. *)

From Stdlib Require Import Ascii String List Arith Bool Lia.
From Stdlib Require Import DecimalString DecimalNat.
From stdpp Require Import gmap strings list fin_maps sorting.

Set Warnings "-register-all,-abstract-large-number".

(** ** Python string helpers *)

Module Str.

(** [s.rstrip(c)] for a one-character strip set. *)
Fixpoint rstrip (c : ascii) (s : string) : string :=
  match s with
  | EmptyString => EmptyString
  | String a s' =>
      match rstrip c s' with
      | EmptyString => if Ascii.eqb a c then EmptyString else String a EmptyString
      | r => String a r
      end
  end.

(** [s.replace(old, new)] where [old] and [new] are one character each. *)
Fixpoint replace (old new : ascii) (s : string) : string :=
  match s with
  | EmptyString => EmptyString
  | String a s' => String (if Ascii.eqb a old then new else a) (replace old new s')
  end.

(** [sub in s]. *)
Fixpoint contains (sub s : string) : bool :=
  String.prefix sub s ||
  match s with
  | EmptyString => false
  | String _ s' => contains sub s'
  end.

(** [s[:-k]]: everything but the last [k] characters. *)
Definition drop_last (k : nat) (s : string) : string :=
  String.substring 0 (String.length s - k) s.

(** [str(n)] and [{}] applied to a non-negative [int]. *)
Definition of_nat (n : nat) : string :=
  NilEmpty.string_of_uint (Nat.to_uint n).

(** [tpl.format(a, b, ...)] for templates whose only replacement fields are
    the automatic [{}]; a field without an argument (an [IndexError] in
    Python, which no template of the program meets) is left empty. *)
Fixpoint format (tpl : string) (args : list string) : string :=
  match tpl with
  | EmptyString => EmptyString
  | String c rest =>
      match rest with
      | EmptyString => String c EmptyString
      | String c' rest' =>
          if Ascii.eqb c "{" && Ascii.eqb c' "}" then
            match args with
            | a :: args' => a +:+ format rest' args'
            | [] => format rest' []
            end
          else String c (format rest args)
      end
  end.

Definition is_digit (a : ascii) : bool :=
  (48 <=? nat_of_ascii a) && (nat_of_ascii a <=? 57).

Fixpoint all_digits (s : string) : bool :=
  match s with
  | EmptyString => true
  | String a s' => is_digit a && all_digits s'
  end.

(** Shapes such as [YYYY-MM-DD HH:MM:SS]: a digit or a given character
    at each position. *)
Inductive shape := Dg | Ch (c : ascii).

Fixpoint matches (p : list shape) (s : string) : bool :=
  match p, s with
  | [], EmptyString => true
  | Dg :: p', String a s' => is_digit a && matches p' s'
  | Ch c :: p', String a s' => Ascii.eqb a c && matches p' s'
  | _, _ => false
  end.

Fixpoint shape_of (tpl : string) : list shape :=
  match tpl with
  | EmptyString => []
  | String a s' =>
      (if existsb (Ascii.eqb a) ["Y"; "M"; "D"; "H"; "S"; "m"]%char then Dg else Ch a)
        :: shape_of s'
  end.

End Str.

(** ** [datetime] and [strftime] *)

(** The fields of a Python [datetime].  The class keeps [1 <= year <= 9999],
    [1 <= month <= 12], [1 <= day <= 31], [hour < 24], [minute < 60],
    [second < 60] and [microsecond < 1000000]; on that range the directives
    other than [%Y] print exactly the digits [digits] gives them. *)
Record datetime := {
  year : nat; month : nat; day : nat;
  hour : nat; minute : nat; second : nat; microsecond : nat
}.

(** The years that [%Y] prints on four digits. *)
Definition four_digit_year (dt : datetime) : bool :=
  (1000 <=? year dt) && (year dt <=? 9999).

Definition digit (n : nat) : ascii := ascii_of_nat (48 + n mod 10).

(** Decimal digits of [n], zero-padded to width [w]. *)
Fixpoint digits (w n : nat) : string :=
  match w with
  | 0 => EmptyString
  | S w' => digits w' (n / 10) +:+ String (digit n) EmptyString
  end.

(** [%Y] is the year in decimal as the C library prints it, without
    padding: 999 for the year 999. *)
Definition directive (dt : datetime) (c : ascii) : string :=
  if Ascii.eqb c "Y" then Str.of_nat (year dt)
  else if Ascii.eqb c "m" then digits 2 (month dt)
  else if Ascii.eqb c "d" then digits 2 (day dt)
  else if Ascii.eqb c "H" then digits 2 (hour dt)
  else if Ascii.eqb c "M" then digits 2 (minute dt)
  else if Ascii.eqb c "S" then digits 2 (second dt)
  else if Ascii.eqb c "f" then digits 6 (microsecond dt)
  else String c EmptyString.

(** [dt.strftime(fmt)] for the directives the program uses. *)
Fixpoint strftime (dt : datetime) (fmt : string) : string :=
  match fmt with
  | EmptyString => EmptyString
  | String c rest =>
      match rest with
      | EmptyString => String c EmptyString
      | String c' rest' =>
          if Ascii.eqb c "%" then directive dt c' +:+ strftime dt rest'
          else String c (strftime dt rest)
      end
  end.

(** Line 175: [publishedAt.rstrip('Z').replace('T', ' ')]. *)
Definition normalize_publishedAt (s : string) : string :=
  Str.replace "T" " " (Str.rstrip "Z" s).

(** Lines 176 and 241:
    [datetime.utcnow().strftime("%Y-%m-%d %H:%M:%S.%f")[:-3]]. *)
Definition retrieved_at_of (now : datetime) : string :=
  Str.drop_last 3 (strftime now "%Y-%m-%d %H:%M:%S.%f").

(** Lines 183 and 248: [datetime.utcnow().strftime("%Y-%m-%d")]. *)
Definition date_of (now : datetime) : string := strftime now "%Y-%m-%d".

(** Line 183: the S3 key of the video-snippet file. *)
Definition video_s3_filename (date : string) (num_videos : nat) : string :=
  Str.format "youtube_video_snippet/{}-{}.json.bz2" [date; Str.of_nat num_videos].

(** Lines 248-249: the S3 key of the channel-stats file. *)
Definition channel_s3_filename (date : string) (num_channels : nat) : string :=
  Str.format "youtube_channel_stats/creation_date={}/{}.json.bz2"
    [date; Str.of_nat num_channels].

(** ** JSON payloads and the Python operations applied to them *)

Inductive json :=
| JNull
| JBool (b : bool)
| JNum (n : Z)
| JStr (s : string)
| JArr (l : list json)
| JObj (m : gmap string json).

Inductive exn :=
| HttpError (str_e : string)   (* googleapiclient.errors.HttpError, with [str(e)] *)
| TypeError
| KeyError (k : string)
| IndexError
| AttributeError
| QueryError                   (* Athena rejects or fails a query *)
| OtherError (what : string).  (* any other exception of a collaborator *)

(** What a piece of the program ends in.  [OutOfFuel] is not a Python
    outcome: it marks a [while] loop cut by the embedding's iteration budget. *)
Inductive result (A : Type) :=
| Ok (a : A)
| Raise (e : exn)
| OutOfFuel.
Arguments Ok {A} a.
Arguments Raise {A} e.
Arguments OutOfFuel {A}.

(** [j[k]] with a string key. *)
Definition getitem (j : json) (k : string) : result json :=
  match j with
  | JObj m => match m !! k with Some x => Ok x | None => Raise (KeyError k) end
  | _ => Raise TypeError
  end.

(** [j[k] = x] with a string key. *)
Definition setitem (j : json) (k : string) (x : json) : result json :=
  match j with
  | JObj m => Ok (JObj (<[k := x]> m))
  | _ => Raise TypeError
  end.

(** The receiver of a [str] method such as [.rstrip]. *)
Definition str_receiver (j : json) : result string :=
  match j with
  | JStr s => Ok s
  | _ => Raise AttributeError
  end.

(** [l[i]] on a list. *)
Definition list_getitem {A} (l : list A) (i : nat) : result A :=
  match l !! i with
  | Some a => Ok a
  | None => Raise IndexError
  end.

(** [l[k]] on a list with a string subscript: list indices must be integers. *)
Definition list_getitem_str {A B} (l : list A) (k : string) : result B :=
  Raise TypeError.

Definition rbind {A B} (r : result A) (f : A -> result B) : result B :=
  match r with
  | Ok a => f a
  | Raise e => Raise e
  | OutOfFuel => OutOfFuel
  end.

(** Line 175.  The assignment mutates the dict [item['snippet']] in place;
    the last [setitem] is that mutation seen from [item]. *)
Definition rewrite_publishedAt (item : json) : result json :=
  rbind (getitem item "snippet") (fun snippet =>
  rbind (getitem snippet "publishedAt") (fun p =>
  rbind (str_receiver p) (fun s =>
  rbind (setitem snippet "publishedAt" (JStr (normalize_publishedAt s))) (fun snippet' =>
  setitem item "snippet" snippet')))).

(** Lines 176 and 241, given the value read from the clock. *)
Definition stamp_retrieved_at (item : json) (now : datetime) : result json :=
  setitem item "retrieved_at" (JStr (retrieved_at_of now)).

(** The API response; [items] is [None] when the key is absent. *)
Record response := { items : option (list json) }.

(** [response.get('items', [])]. *)
Definition get_items (r : response) : list json := default [] (items r).

Inductive resource := Videos | Channels.

Record request := { res : resource; part : string; id : string }.

(** Line 155: [youtube.videos().list(part="snippet", id=video_id)]. *)
Definition videos_list (video_id : string) : request :=
  {| res := Videos; part := "snippet"; id := video_id |}.

(** Line 221: [youtube.channels().list(part="statistics", id=channel_id)]. *)
Definition channels_list (channel_id : string) : request :=
  {| res := Channels; part := "statistics"; id := channel_id |}.

Record credential := { developer_key : string }.

(** ** The SQL sent to Athena *)

Inductive clause := TABLE_YOUTUBE_VIDEO_SNIPPET_EXISTS.

Inductive athena_query :=
| SELECT_YOUTUBE_VIDEOS
| SELECT_COUNT_YOUTUBE_VIDEOS
| SELECT_DISTINCT_CHANNEL
| SELECT_COUNT_DISTINCT_CHANNEL
| CREATE_VIDEO_SNIPPET_JSON (s3_bucket : string)
| CREATE_CHANNEL_STATS_JSON (s3_bucket : string)
| DROP_TABLE_IF_EXISTS (table : string)
| MSCK_REPAIR_TABLE (table : string)
| Plus (q : athena_query) (c : clause).   (* [q + c] on the query strings *)

(** A row of [validated_url], seen through the two functions the queries
    apply to it: [url_extract_host(validated_url)] and
    [url_extract_parameter(validated_url, 'v')]. *)
Record url_row := { host : string; v : string }.

(** A row of [youtube_video_snippet]: [id] and [snippet.channelId]. *)
Record snippet_row := { snippet_id : string; channelId : string }.

(** The tables the queries read; [None] is a table absent from the catalog.
    [youtube_channel_stats] holds the [id] column of that table. *)
Record database := {
  validated_url : list url_row;
  youtube_video_snippet : option (list snippet_row);
  youtube_channel_stats : option (list string)
}.

Definition is_some {A} (o : option A) : bool :=
  match o with Some _ => true | None => false end.

Definition table_in_catalog (db : database) (table : string) : bool :=
  if decide (table = "validated_url") then true
  else if decide (table = "youtube_video_snippet") then is_some (youtube_video_snippet db)
  else if decide (table = "youtube_channel_stats") then is_some (youtube_channel_stats db)
  else false.

(** [from validated_url where url_extract_host(validated_url) = 'www.youtube.com'],
    with [and url_extract_parameter(validated_url, 'v') not in
    (select id from youtube_video_snippet)] when [not_in] is set; the
    selected column is [url_extract_parameter(validated_url, 'v')]. *)
Definition youtube_video_ids (db : database) (not_in : bool) : result (list string) :=
  let hits := filter (fun r => host r = "www.youtube.com") (validated_url db) in
  if not_in then
    match youtube_video_snippet db with
    | Some t => Ok (v <$> filter (fun r => v r ∉ (snippet_id <$> t)) hits)
    | None => Raise QueryError
    end
  else Ok (v <$> hits).

(** [snippet.channelId from youtube_video_snippet]. *)
Definition channel_ids (db : database) : result (list string) :=
  match youtube_video_snippet db with
  | Some t => Ok (channelId <$> t)
  | None => Raise QueryError
  end.

(** [order by channel_id]. *)
Definition string_le (a b : string) : Prop := String.leb a b = true.

#[global] Instance string_le_dec : RelDecision string_le :=
  fun a b => decide (String.leb a b = true).

(** The rows a [select distinct] query returns. *)
Definition select_rows (db : database) (q : athena_query) : result (list string) :=
  match q with
  | SELECT_YOUTUBE_VIDEOS =>
      rbind (youtube_video_ids db false) (fun l => Ok (remove_dups l))
  | Plus SELECT_YOUTUBE_VIDEOS TABLE_YOUTUBE_VIDEO_SNIPPET_EXISTS =>
      rbind (youtube_video_ids db true) (fun l => Ok (remove_dups l))
  | SELECT_DISTINCT_CHANNEL =>
      rbind (channel_ids db) (fun l => Ok (merge_sort string_le (remove_dups l)))
  | _ => Raise QueryError
  end.

(** The number a [select count(distinct ...)] query returns. *)
Definition select_count (db : database) (q : athena_query) : result nat :=
  match q with
  | SELECT_COUNT_YOUTUBE_VIDEOS =>
      rbind (youtube_video_ids db false) (fun l => Ok (length (remove_dups l)))
  | Plus SELECT_COUNT_YOUTUBE_VIDEOS TABLE_YOUTUBE_VIDEO_SNIPPET_EXISTS =>
      rbind (youtube_video_ids db true) (fun l => Ok (length (remove_dups l)))
  | SELECT_COUNT_DISTINCT_CHANNEL =>
      rbind (channel_ids db) (fun l => Ok (length (remove_dups l)))
  | _ => Raise QueryError
  end.

(** ** The collaborators and the monad of the flows *)

(** An operation on a collaborator: the Athena client, the YouTube API
    client, the clock, the compressor and the S3 bucket. *)
Inductive event :=
| Table_exists (table : string)
| Query_athena_and_get_result (q : athena_query)
| Query_athena_and_download (q : athena_query)
| Query_athena_and_wait (q : athena_query)
| Build (developerKey : string)
| Execute (developerKey : string) (r : request)
| Utcnow
| Compress (lines : list json)
| Upload_file (bucket key : string) (lines : list json).

(** The world the flows run in.  Each oracle sees the operations performed
    so far, most recent first. *)
Record environment := {
  db : database;
  execute : list event -> string -> request -> exn + response;
  utcnow : list event -> datetime;
  fails : list event -> event -> option exn
}.

Definition M (A : Type) : Type := list event -> result A * list event.

Definition ret {A} (a : A) : M A := fun tr => (Ok a, tr).

Definition raise {A} (e : exn) : M A := fun tr => (Raise e, tr).

Definition out_of_fuel {A} : M A := fun tr => (OutOfFuel, tr).

Definition lift {A} (r : result A) : M A := fun tr => (r, tr).

Definition bind {A B} (m : M A) (f : A -> M B) : M B :=
  fun tr =>
    match m tr with
    | (Ok a, tr') => f a tr'
    | (Raise e, tr') => (Raise e, tr')
    | (OutOfFuel, tr') => (OutOfFuel, tr')
    end.

Notation "'let*' x := m 'in' k" := (bind m (fun x => k))
  (at level 10, x pattern, m at level 100, k at level 200, only parsing).

Record loop_state := {
  num : nat;             (* [num_videos], [num_channels] *)
  current_key : nat;
  youtube : string;      (* the client, by the developer key it was built with *)
  lines : list json      (* what [json_writer] has written *)
}.

Section Youtube.

Variable env : environment.

(** [self.credentials] and [self.s3_data].  The credentials are the list
    that lines 141, 161, 169, 206, 227 and 235 index with [current_key]. *)
Variable credentials : list credential.
Variable s3_data : string.

(** A call that returns nothing of interest, or raises. *)
Definition perform (ev : event) : M unit :=
  fun tr =>
    match fails env tr ev with
    | Some e => (Raise e, ev :: tr)
    | None => (Ok tt, ev :: tr)
    end.

Definition table_exists (table : string) : M bool :=
  let* _ := perform (Table_exists table) in
  ret (table_in_catalog (db env) table).

Definition query_athena_and_get_result (q : athena_query) : M nat :=
  let* _ := perform (Query_athena_and_get_result q) in
  lift (select_count (db env) q).

(** The downloaded CSV, as [csv.DictReader] reads it back: one row per id. *)
Definition query_athena_and_download (q : athena_query) : M (list string) :=
  let* _ := perform (Query_athena_and_download q) in
  lift (select_rows (db env) q).

Definition query_athena_and_wait (q : athena_query) : M unit :=
  perform (Query_athena_and_wait q).

(** [googleapiclient.discovery.build(..., developerKey=key, ...)]. *)
Definition build (key : string) : M string :=
  let* _ := perform (Build key) in
  ret key.

(** [try: response = request.execute()], with the exception caught. *)
Definition try_execute (client : string) (r : request) : M (exn + response) :=
  fun tr => (Ok (execute env tr client r), Execute client r :: tr).

Definition datetime_utcnow : M datetime :=
  fun tr => (Ok (utcnow env tr), Utcnow :: tr).

Definition compress (written : list json) : M (list json) :=
  let* _ := perform (Compress written) in
  ret written.

Definition upload_file (bucket key : string) (file : list json) : M unit :=
  perform (Upload_file bucket key file).

(** Lines 152-173 and 218-239: the [while no_response] loop.  The two flows
    differ in the request and in the list whose length bounds [current_key]:
    [self.credentials] on line 163, [self.credentials['youtube']] on
    line 229. *)
Fixpoint fetch (fuel : nat) (pool : result (list credential)) (r : request)
    (current_key : nat) (youtube : string) : M (nat * string * response) :=
  match fuel with
  | 0 => out_of_fuel
  | S fuel' =>
      let* outcome := try_execute youtube r in
      match outcome with
      | inr response => ret (current_key, youtube, response)
      | inl (HttpError str_e) =>
          if Str.contains "403" str_e then
            (* the logged [self.credentials[current_key]['developer_key']] *)
            let* _ := lift (list_getitem credentials current_key) in
            let current_key := current_key + 1 in
            let* pool_list := lift pool in
            if length pool_list <=? current_key then raise (HttpError str_e)
            else
              let* c := lift (list_getitem credentials current_key) in
              let* youtube := build (developer_key c) in
              fetch fuel' pool r current_key youtube
          else raise (HttpError str_e)
      | inl e => raise e
      end
  end.

(** Lines 174-177. *)
Fixpoint write_video_items (items : list json) (written : list json) : M (list json) :=
  match items with
  | [] => ret written
  | item :: rest =>
      let* item := lift (rewrite_publishedAt item) in
      let* now := datetime_utcnow in
      let* item := lift (stamp_retrieved_at item now) in
      write_video_items rest (written ++ [item])
  end.

(** Lines 240-242. *)
Fixpoint write_channel_items (items : list json) (written : list json) : M (list json) :=
  match items with
  | [] => ret written
  | item :: rest =>
      let* now := datetime_utcnow in
      let* item := lift (stamp_retrieved_at item now) in
      write_channel_items rest (written ++ [item])
  end.

(** Lines 147-177, one iteration of [for video_id in reader]. *)
Definition video_step (fuel : nat) (st : loop_state) (video_id : string) : M loop_state :=
  let num_videos := num st + 1 in
  let* (current_key, youtube, response) :=
    fetch fuel (Ok credentials) (videos_list video_id) (current_key st) (youtube st) in
  let* written := write_video_items (get_items response) (lines st) in
  ret {| num := num_videos; current_key := current_key; youtube := youtube;
         lines := written |}.

(** Lines 213-242, one iteration of [for channel_id in reader]. *)
Definition channel_step (fuel : nat) (st : loop_state) (channel_id : string) : M loop_state :=
  let num_channels := num st + 1 in
  let* (current_key, youtube, response) :=
    fetch fuel (list_getitem_str credentials "youtube") (channels_list channel_id)
      (current_key st) (youtube st) in
  let* written := write_channel_items (get_items response) (lines st) in
  ret {| num := num_channels; current_key := current_key; youtube := youtube;
         lines := written |}.

Fixpoint for_each (step : loop_state -> string -> M loop_state)
    (ids : list string) (st : loop_state) : M loop_state :=
  match ids with
  | [] => ret st
  | i :: rest => let* st' := step st i in for_each step rest st'
  end.

(** Lines 121-188. *)
Definition collect_video_snippets (fuel : nat) : M unit :=
  let query := SELECT_YOUTUBE_VIDEOS in
  let query_count := SELECT_COUNT_YOUTUBE_VIDEOS in
  let* exists_ := table_exists "youtube_video_snippet" in
  let query := if exists_ then Plus query TABLE_YOUTUBE_VIDEO_SNIPPET_EXISTS else query in
  let query_count :=
    if exists_ then Plus query_count TABLE_YOUTUBE_VIDEO_SNIPPET_EXISTS else query_count in
  let* video_count := query_athena_and_get_result query_count in
  let* video_ids := query_athena_and_download query in
  let current_key := 0 in
  let* c := lift (list_getitem credentials current_key) in
  let* youtube := build (developer_key c) in
  let* st := for_each (video_step fuel) video_ids
               {| num := 0; current_key := current_key; youtube := youtube; lines := [] |} in
  let* compressed_file := compress (lines st) in
  let* now := datetime_utcnow in
  let s3_filename := video_s3_filename (date_of now) (num st) in
  let* _ := upload_file s3_data s3_filename compressed_file in
  query_athena_and_wait (CREATE_VIDEO_SNIPPET_JSON s3_data).

(** Lines 190-258. *)
Definition collect_channel_stats (fuel : nat) : M unit :=
  let* channel_ids := query_athena_and_download SELECT_DISTINCT_CHANNEL in
  let* channel_count := query_athena_and_get_result SELECT_COUNT_DISTINCT_CHANNEL in
  let current_key := 0 in
  let* c := lift (list_getitem credentials current_key) in
  let* youtube := build (developer_key c) in
  let* st := for_each (channel_step fuel) channel_ids
               {| num := 0; current_key := current_key; youtube := youtube; lines := [] |} in
  let* compressed_file := compress (lines st) in
  let* now := datetime_utcnow in
  let s3_filename := channel_s3_filename (date_of now) (num st) in
  let* _ := upload_file s3_data s3_filename compressed_file in
  let* _ := query_athena_and_wait (DROP_TABLE_IF_EXISTS "youtube_channel_stats") in
  let* _ := query_athena_and_wait (CREATE_CHANNEL_STATS_JSON s3_data) in
  query_athena_and_wait (MSCK_REPAIR_TABLE "youtube_channel_stats").

End Youtube.

(** ** Observations on traces *)

Definition is_execute (ev : event) : bool :=
  match ev with Execute _ _ => true | _ => false end.

Definition is_build (ev : event) : bool :=
  match ev with Build _ => true | _ => false end.

(** External API calls and credential rotations in a stretch of trace. *)
Definition api_calls (tr : list event) : nat := length (List.filter is_execute tr).
Definition rotations (tr : list event) : nat := length (List.filter is_build tr).

(** The operations of the fetching phase: API calls, client builds and
    clock reads. *)
Definition fetch_phase (ev : event) : Prop :=
  match ev with
  | Execute _ _ | Build _ | Utcnow => True
  | _ => False
  end.

(** The operations before the loop over the identifiers. *)
Definition prologue_op (ev : event) : Prop :=
  match ev with
  | Table_exists _ | Query_athena_and_get_result _ | Query_athena_and_download _
  | Build _ => True
  | _ => False
  end.

Definition is_drop (q : athena_query) : bool :=
  match q with DROP_TABLE_IF_EXISTS _ => true | _ => false end.

(** An operation that carries no [DROP TABLE] statement. *)
Definition no_drop (ev : event) : Prop :=
  match ev with
  | Query_athena_and_get_result q | Query_athena_and_download q
  | Query_athena_and_wait q => is_drop q = false
  | _ => True
  end.

(** The uploads of a trace, as (bucket, key, number of records), and the
    statements sent through [query_athena_and_wait], most recent first. *)
Definition uploads (tr : list event) : list (string * string * nat) :=
  omap (fun ev => match ev with
                  | Upload_file b k l => Some (b, k, length l)
                  | _ => None
                  end) tr.

Definition waits (tr : list event) : list athena_query :=
  omap (fun ev => match ev with
                  | Query_athena_and_wait q => Some q
                  | _ => None
                  end) tr.

(** The 403 class of line 158: an [HttpError] whose text contains "403". *)
Definition quota_class (e : exn) : bool :=
  match e with
  | HttpError str_e => Str.contains "403" str_e
  | _ => false
  end.

Definition retrieved_at_shape : list Str.shape := Str.shape_of "YYYY-MM-DD HH:MM:SS.mmm".

(** ** Properties of computations *)

(** [grows P m]: whatever [m] ends in, it only adds operations satisfying
    [P] to the trace. *)
Definition grows {A} (P : event -> Prop) (m : M A) : Prop :=
  forall tr out tr', m tr = (out, tr') -> exists new, tr' = new ++ tr /\ Forall P new.

(** [finishes m]: [m] is never cut by the iteration budget. *)
Definition finishes {A} (m : M A) : Prop :=
  forall tr out tr', m tr = (out, tr') -> out <> OutOfFuel.

(** ** Written records *)

(** [r] carries a [retrieved_at] of the form YYYY-MM-DD HH:MM:SS.mmm. *)
Definition stamped (r : json) : Prop :=
  exists ts, getitem r "retrieved_at" = Ok (JStr ts)
             /\ Str.matches retrieved_at_shape ts = true.

(** [r] carries the [retrieved_at] computed on line 176 or 241 from a reading
    of the clock of [env]. *)
Definition stamped_by (env : environment) (r : json) : Prop :=
  exists t, getitem r "retrieved_at" = Ok (JStr (retrieved_at_of (utcnow env t))).

(** The clock of [env] reads years of four digits. *)
Definition clock_in_range (env : environment) : Prop :=
  forall t, four_digit_year (utcnow env t) = true.

(** [r] carries the [publishedAt] of [item], normalized. *)
Definition republished (item r : json) : Prop :=
  exists snippet p snippet',
    getitem item "snippet" = Ok snippet
    /\ getitem snippet "publishedAt" = Ok (JStr p)
    /\ getitem r "snippet" = Ok snippet'
    /\ getitem snippet' "publishedAt" = Ok (JStr (normalize_publishedAt p)).

(** ** The work sets and the sets they are computed from *)

(** The query [collect_video_snippets] downloads, as lines 124-129 build it. *)
Definition video_work_set (db : database) : result (list string) :=
  select_rows db
    (if table_in_catalog db "youtube_video_snippet"
     then Plus SELECT_YOUTUBE_VIDEOS TABLE_YOUTUBE_VIDEO_SNIPPET_EXISTS
     else SELECT_YOUTUBE_VIDEOS).

Definition video_count (db : database) : result nat :=
  select_count db
    (if table_in_catalog db "youtube_video_snippet"
     then Plus SELECT_COUNT_YOUTUBE_VIDEOS TABLE_YOUTUBE_VIDEO_SNIPPET_EXISTS
     else SELECT_COUNT_YOUTUBE_VIDEOS).

(** The query [collect_channel_stats] downloads (line 194). *)
Definition channel_work_set (db : database) : result (list string) :=
  select_rows db SELECT_DISTINCT_CHANNEL.

Definition channel_count (db : database) : result nat :=
  select_count db SELECT_COUNT_DISTINCT_CHANNEL.

(** Upstream identifiers and the identifiers already persisted, per flow. *)
Definition upstream_video_ids (db : database) : list string :=
  v <$> filter (fun r => host r = "www.youtube.com") (validated_url db).

Definition persisted_video_ids (db : database) : list string :=
  snippet_id <$> default [] (youtube_video_snippet db).

Definition upstream_channel_ids (db : database) : list string :=
  channelId <$> default [] (youtube_video_snippet db).

Definition persisted_channel_ids (db : database) : list string :=
  default [] (youtube_channel_stats db).

(** ** Sample worlds *)

Definition sample_now : datetime :=
  {| year := 2021; month := 5; day := 1; hour := 12; minute := 0; second := 0;
     microsecond := 123456 |}.

(** A video resource as the API returns it for [part="snippet"]. *)
Definition sample_video (video_id : string) : json :=
  JObj (<["id" := JStr video_id]>
       (<["snippet" := JObj (<["publishedAt" := JStr "2021-05-01T12:00:00Z"]>
                            (<["channelId" := JStr "UC1"]> ∅))]> ∅)).

(** A channel resource as the API returns it for [part="statistics"]. *)
Definition sample_channel (channel_id : string) : json :=
  JObj (<["id" := JStr channel_id]>
       (<["statistics" := JObj (<["viewCount" := JStr "10"]> ∅)]> ∅)).

Definition sample_entity (r : request) : json :=
  match res r with
  | Videos => sample_video (id r)
  | Channels => sample_channel (id r)
  end.

Definition youtube_url (video_id : string) : url_row :=
  {| host := "www.youtube.com"; v := video_id |}.

(** Upstream yields a, b and c and nothing is persisted yet; the API knows
    a and b but not c; nothing fails. *)
Definition abc_env : environment := {|
  db := {| validated_url := [youtube_url "a"; youtube_url "b"; youtube_url "c"];
           youtube_video_snippet := None;
           youtube_channel_stats := None |};
  execute := fun _ _ r =>
    inr {| items := Some (if decide (id r = "c") then [] else [sample_entity r]) |};
  utcnow := fun _ => sample_now;
  fails := fun _ _ => None
|}.

(** Two credentials; the API refuses the first with a 403 and serves the
    second. *)
Definition two_keys : list credential :=
  [ {| developer_key := "key1" |}; {| developer_key := "key2" |} ].

Definition forbidden : exn :=
  HttpError "<HttpError 403 when requesting https://www.googleapis.com/youtube/v3 returned quotaExceeded>".

Definition not_found : exn :=
  HttpError "<HttpError 404 when requesting https://www.googleapis.com/youtube/v3 returned notFound>".

Definition quota_env : environment := {|
  db := {| validated_url := [youtube_url "a"];
           youtube_video_snippet := Some [ {| snippet_id := "a"; channelId := "UC1" |} ];
           youtube_channel_stats := Some ["UC1"] |};
  execute := fun _ key r =>
    if decide (key = "key1") then inl forbidden
    else inr {| items := Some [sample_entity r] |};
  utcnow := fun _ => sample_now;
  fails := fun _ _ => None
|}.

(** The API answers every call with a 404. *)
Definition broken_env : environment := {|
  db := db quota_env;
  execute := fun _ _ _ => inl not_found;
  utcnow := fun _ => sample_now;
  fails := fun _ _ => None
|}.

(** The API serves every identifier; one video of channel UC1 is persisted. *)
Definition served_env : environment := {|
  db := {| validated_url := [youtube_url "a"; youtube_url "b"; youtube_url "c"];
           youtube_video_snippet := Some [ {| snippet_id := "a"; channelId := "UC1" |} ];
           youtube_channel_stats := Some ["UC1"] |};
  execute := fun _ _ r => inr {| items := Some [sample_entity r] |};
  utcnow := fun _ => sample_now;
  fails := fun _ _ => None
|}.

(** As [abc_env], but the API knows c as well. *)
Definition abc_served_env : environment := {|
  db := db abc_env;
  execute := fun _ _ r => inr {| items := Some [sample_entity r] |};
  utcnow := fun _ => sample_now;
  fails := fun _ _ => None
|}.

Definition one_key : list credential := [ {| developer_key := "key1" |} ].

Definition start_state (key : string) : loop_state :=
  {| num := 0; current_key := 0; youtube := key; lines := [] |}.

(** ** Entities and what normalization touches *)

(** A video resource with the fields line 175 reads: an object whose
    [snippet] is an object holding a string [publishedAt]. *)
Definition snippet_resource (item : json) : Prop :=
  exists m sm p,
    item = JObj m /\ m !! "snippet" = Some (JObj sm) /\ sm !! "publishedAt" = Some (JStr p).

Definition is_object (j : json) : bool :=
  match j with JObj _ => true | _ => false end.

(** The exception line 175 raises on an entity that is not such a resource. *)
Definition rewrite_error (item : json) : exn :=
  match item with
  | JObj m =>
      match m !! "snippet" with
      | None => KeyError "snippet"
      | Some (JObj sm) =>
          match sm !! "publishedAt" with
          | None => KeyError "publishedAt"
          | Some _ => AttributeError
          end
      | Some _ => TypeError
      end
  | _ => TypeError
  end.

(** A video resource without [snippet], and one whose [publishedAt] is null. *)
Definition bare_video (video_id : string) : json :=
  JObj (<["id" := JStr video_id]> ∅).

Definition undated_video (video_id : string) : json :=
  JObj (<["id" := JStr video_id]>
       (<["snippet" := JObj (<["publishedAt" := JNull]> ∅)]> ∅)).

(** The API returns an entity without [snippet] for every identifier. *)
Definition bare_env : environment := {|
  db := db abc_env;
  execute := fun _ _ r => inr {| items := Some [bare_video (id r)] |};
  utcnow := fun _ => sample_now;
  fails := fun _ _ => None
|}.

(** ** Where the files land *)

(** The LOCATION clause of the two [create external table] statements
    (lines 67 and 107), after [.format(s3_bucket=...)]. *)
Definition table_location (q : athena_query) : option string :=
  match q with
  | CREATE_VIDEO_SNIPPET_JSON s3_bucket =>
      Some ("s3://" +:+ s3_bucket +:+ "/youtube_video_snippet/")
  | CREATE_CHANNEL_STATS_JSON s3_bucket =>
      Some ("s3://" +:+ s3_bucket +:+ "/youtube_channel_stats/")
  | _ => None
  end.

(** The PARTITIONED BY columns of the statements (line 101). *)
Definition partitioned_by (q : athena_query) : list string :=
  match q with
  | CREATE_CHANNEL_STATS_JSON _ => ["creation_date"]
  | _ => []
  end.

(** The URL of the object [s3.Bucket(bucket).upload_file(file, key)] writes. *)
Definition s3_url (bucket key : string) : string := "s3://" +:+ bucket +:+ "/" +:+ key.

(** The operations on the Athena client that read: no client build, API
    call, clock read, upload or statement. *)
Definition query_op (ev : event) : Prop :=
  match ev with
  | Table_exists _ | Query_athena_and_get_result _ | Query_athena_and_download _ => True
  | _ => False
  end.

(** ** Triples over the trace *)

(** [hoare P m Q E]: run from a trace satisfying [P], [m] ends with a value
    [a] and a trace satisfying [Q a], or without a value and with a trace
    satisfying [E]. *)
Definition hoare {A} (P : list event -> Prop) (m : M A)
    (Q : A -> list event -> Prop) (E : list event -> Prop) : Prop :=
  forall tr out tr',
    P tr -> m tr = (out, tr') ->
    match out with
    | Ok a => Q a tr'
    | _ => E tr'
    end.

(** The developer keys of the clients built and of the API calls made, most
    recent first. *)
Definition builds (tr : list event) : list string :=
  omap (fun ev => match ev with Build key => Some key | _ => None end) tr.

Definition keys_called (tr : list event) : list string :=
  omap (fun ev => match ev with Execute key _ => Some key | _ => None end) tr.

(** [built_in_order credentials tr0 j n tr]: since [tr0], clients were built
    for the first [j] credentials, in the order of the list and once each,
    and [n] API calls were made. *)
Definition built_in_order (credentials : list credential) (tr0 : list event)
    (j n : nat) (tr : list event) : Prop :=
  exists new,
    tr = new ++ tr0
    /\ rev (builds new) = developer_key <$> take j credentials
    /\ api_calls new = n
    /\ j <= length credentials.

(** [first_key_only y0 tr0 n tr]: since [tr0], one client was built, with key
    [y0], and [n] API calls were made, all with that key. *)
Definition first_key_only (y0 : string) (tr0 : list event) (n : nat)
    (tr : list event) : Prop :=
  exists new,
    tr = new ++ tr0
    /\ builds new = [y0]
    /\ Forall (fun key => key = y0) (keys_called new)
    /\ api_calls new = n.

(** [at_most_first_key credentials tr0 tr]: since [tr0], at most one client
    was built, and every client built and every API call made used the key
    of [credentials[0]]. *)
Definition at_most_first_key (credentials : list credential) (tr0 tr : list event) : Prop :=
  exists new,
    tr = new ++ tr0
    /\ length (builds new) <= 1
    /\ Forall (fun key => developer_key <$> credentials !! 0 = Some key)
         (builds new ++ keys_called new).

(** Two identifiers upstream; the API refuses key1 and serves any other key. *)
Definition rotating_env : environment := {|
  db := {| validated_url := [youtube_url "a"; youtube_url "b"];
           youtube_video_snippet := None;
           youtube_channel_stats := None |};
  execute := fun _ key r =>
    if decide (key = "key1") then inl forbidden
    else inr {| items := Some [sample_entity r] |};
  utcnow := fun _ => sample_now;
  fails := fun _ _ => None
|}.

(** ** The end of a run *)

(** An operation other than an upload or a statement sent to Athena. *)
Definition before_upload (ev : event) : Prop :=
  match ev with
  | Upload_file _ _ _ | Query_athena_and_wait _ => False
  | _ => True
  end.

(** Operations performed one after the other, up to the first that fails. *)
Fixpoint perform_all (env : environment) (steps : list event) (tr : list event)
    : result unit * list event :=
  match steps with
  | [] => (Ok tt, tr)
  | ev :: rest =>
      match fails env tr ev with
      | Some e => (Raise e, ev :: tr)
      | None => perform_all env rest (ev :: tr)
      end
  end.

(** [quiet_since tr0 tr]: since [tr0] nothing was uploaded and no statement
    was sent. *)
Definition quiet_since (tr0 tr : list event) : Prop :=
  exists body, tr = body ++ tr0 /\ Forall before_upload body.

(** The upload fails once; nothing else does. *)
Definition upload_fails_env : environment := {|
  db := db served_env;
  execute := execute served_env;
  utcnow := utcnow served_env;
  fails := fun _ ev =>
    match ev with
    | Upload_file _ _ _ => Some (OtherError "S3UploadFailedError")
    | _ => None
    end
|}.

(** ** The answers of the API *)

(** The calls made since [tr0], most recent first: the key of the client,
    the request, and what the API answered. *)
Fixpoint answers (env : environment) (tr0 new : list event)
    : list (string * request * (exn + response)) :=
  match new with
  | [] => []
  | Execute y r :: rest => (y, r, execute env (rest ++ tr0) y r) :: answers env tr0 rest
  | _ :: rest => answers env tr0 rest
  end.

(** A call of request [r] that the API refused with an exception of the 403
    class of lines 158 and 224. *)
Definition refused (r : request) (call : string * request * (exn + response)) : Prop :=
  call.1.2 = r
  /\ match call.2 with
     | inl e => quota_class e = true
     | inr _ => False
     end.

(** The status an [HttpError] reports: its text starts with
    [<HttpError 404 when requesting ...]. *)
Definition http_status (e : exn) : option string :=
  match e with
  | HttpError str_e =>
      if String.prefix "<HttpError " str_e then Some (String.substring 11 3 str_e) else None
  | _ => None
  end.

(** A 404 for a video id that holds the digits 403. *)
Definition not_found_x403 : exn :=
  HttpError "<HttpError 404 when requesting https://www.googleapis.com/youtube/v3/videos?part=snippet&id=x403&alt=json returned notFound>".

(** The API answers a call made with key1 by that 404 and serves any other
    key. *)
Definition textual_env : environment := {|
  db := db quota_env;
  execute := fun _ key r =>
    if decide (key = "key1") then inl not_found_x403
    else inr {| items := Some [sample_entity r] |};
  utcnow := fun _ => sample_now;
  fails := fun _ _ => None
|}.


(** ** The entry point *)

(** The configuration [read_dict_from_s3_url] returns: the entries
    [config['aws']], a dict of strings, and [config['youtube']], the
    credential list; [None] is an absent key. *)
Record configuration := {
  aws : option (gmap string string);
  youtube_section : option (list credential)
}.

(** [d[k]] on a dict entry that may be absent. *)
Definition entry {A} (o : option A) (k : string) : result A :=
  match o with
  | Some a => Ok a
  | None => Raise (KeyError k)
  end.

(** [config['aws'][k]]. *)
Definition aws_entry (config : configuration) (k : string) : result string :=
  rbind (entry (aws config) "aws") (fun section => entry (section !! k) k).

(** What [main] does outside the two flows, and the operations of the flows. *)
Inductive main_event :=
| Read_dict_from_s3_url (url : string)
| Athena_logger (app_name s3_bucket athena_db : string)
| Flow (ev : event)
| Save_to_s3.

(** The world [main] runs in.  The channel flow has an environment of its
    own: the catalog and tables it reads are those the video flow left. *)
Record process := {
  read_dict_from_s3_url : string -> exn + configuration;
  athena_logger_fails : option exn;
  save_to_s3_fails : list event -> option exn;
  video_env : environment;
  channel_env : environment
}.

(** Lines 275-276: the channel flow runs if the video flow returns.  The
    retry loops get the budget of [len(credentials)] iterations, which never
    cuts them. *)
Definition both_flows (p : process) (credentials : list credential) (s3_data : string)
    : result unit * list event :=
  let fuel := length credentials in
  match collect_video_snippets (video_env p) credentials s3_data fuel [] with
  | (Ok _, tr) => collect_channel_stats (channel_env p) credentials s3_data fuel tr
  | failed => failed
  end.

(** Lines 271-274: the arguments of [Youtube(...)], in the order they are
    evaluated; the flows use the credentials and [s3_data]. *)
Definition youtube_arguments (config : configuration) : result (list credential * string) :=
  rbind (entry (youtube_section config) "youtube") (fun credentials =>
  rbind (aws_entry config "athena-data") (fun athena_data =>
  rbind (aws_entry config "s3-admin") (fun s3_admin =>
  rbind (aws_entry config "s3-data") (fun s3_data =>
  Ok (credentials, s3_data))))).

(** Lines 270-278: [try: ... finally: logger.save_to_s3()]. *)
Definition try_finally_save (p : process) (body : result unit * list event)
    (before : list main_event) : result unit * list main_event :=
  let (out, tr) := body in
  let after := (Flow <$> tr) ++ before in
  match out with
  | OutOfFuel => (OutOfFuel, after)
  | _ =>
      match save_to_s3_fails p tr with
      | Some e => (Raise e, Save_to_s3 :: after)
      | None => (out, Save_to_s3 :: after)
      end
  end.

(** Lines 271-276, the body of the [try]. *)
Definition try_body (p : process) (config : configuration) : result unit * list event :=
  match youtube_arguments config with
  | Ok (credentials, s3_data) => both_flows p credentials s3_data
  | Raise e => (Raise e, [])
  | OutOfFuel => (OutOfFuel, [])
  end.

(** Lines 266-278, for the configuration URL [args.config]. *)
Definition main (p : process) (url : string) : result unit * list main_event :=
  let t0 := [Read_dict_from_s3_url url] in
  match read_dict_from_s3_url p url with
  | inl e => (Raise e, t0)
  | inr config =>
      match rbind (aws_entry config "s3-admin") (fun s3_bucket =>
            rbind (aws_entry config "athena-admin") (fun athena_db =>
            Ok (s3_bucket, athena_db))) with
      | Raise e => (Raise e, t0)
      | OutOfFuel => (OutOfFuel, t0)
      | Ok (s3_bucket, athena_db) =>
          let t1 := Athena_logger "youtube" s3_bucket athena_db :: t0 in
          match athena_logger_fails p with
          | Some e => (Raise e, t1)
          | None =>
              try_finally_save p (try_body p config) t1
          end
      end
  end.

Definition saves (tr : list main_event) : nat :=
  length (List.filter (fun ev => match ev with Save_to_s3 => true | _ => false end) tr).

Definition flow_events (tr : list main_event) : list event :=
  omap (fun ev => match ev with Flow ev => Some ev | _ => None end) tr.

(** The logger was created: [AthenaLogger(...)] was called and returned. *)
Definition logger_created (p : process) (tr : list main_event) : Prop :=
  athena_logger_fails p = None
  /\ exists s3_bucket athena_db, In (Athena_logger "youtube" s3_bucket athena_db) tr.

(** The operations only the channel flow has a line for: its two queries,
    a [channels().list] call, an upload under the channel key, and the
    statements on youtube_channel_stats. *)
Definition channel_flow_op (ev : event) : Prop :=
  match ev with
  | Query_athena_and_download q => q = SELECT_DISTINCT_CHANNEL
  | Query_athena_and_get_result q => q = SELECT_COUNT_DISTINCT_CHANNEL
  | Execute _ r => res r = Channels
  | Upload_file _ key _ => exists date n, key = channel_s3_filename date n
  | Query_athena_and_wait q =>
      match q with
      | DROP_TABLE_IF_EXISTS _ | CREATE_CHANNEL_STATS_JSON _ | MSCK_REPAIR_TABLE _ => True
      | _ => False
      end
  | _ => False
  end.

Definition video_flow_op (ev : event) : Prop := ~ channel_flow_op ev.

Definition sample_aws : gmap string string :=
  <["s3-admin" := "admin-bucket"]> (<["athena-admin" := "admin_db"]>
  (<["athena-data" := "data_db"]> (<["s3-data" := "bucket"]> ∅))).

Definition sample_config : configuration :=
  {| aws := Some sample_aws; youtube_section := Some two_keys |}.

(** A first run: the video flow finds a and b, is refused with key1 and
    served with key2; the channel flow then finds the table the video flow
    registered. *)
Definition sample_process : process := {|
  read_dict_from_s3_url := fun _ => inr sample_config;
  athena_logger_fails := None;
  save_to_s3_fails := fun _ => None;
  video_env := rotating_env;
  channel_env := served_env
|}.

(** The same with a configuration that lacks [aws.s3-data]. *)
Definition no_data_bucket_process : process := {|
  read_dict_from_s3_url := fun _ =>
    inr {| aws := Some (delete "s3-data" sample_aws); youtube_section := Some two_keys |};
  athena_logger_fails := None;
  save_to_s3_fails := fun _ => None;
  video_env := rotating_env;
  channel_env := served_env
|}.

(** * Properties *)

(** ** Strings and timestamps *)

Example rstrip_examples :
  Str.rstrip "Z" "aZbZZ" = "aZb" /\ Str.rstrip "Z" "ZZ" = "" /\ Str.rstrip "Z" "TZ" = "T".
Proof. repeat split. Qed.

Example retrieved_at_sample : retrieved_at_of sample_now = "2021-05-01 12:00:00.123".
Proof. reflexivity. Qed.

Example date_sample : date_of sample_now = "2021-05-01".
Proof. reflexivity. Qed.

Example s3_filename_samples :
  video_s3_filename "2021-05-01" 12 = "youtube_video_snippet/2021-05-01-12.json.bz2"
  /\ channel_s3_filename "2021-05-01" 0
     = "youtube_channel_stats/creation_date=2021-05-01/0.json.bz2".
Proof. split; reflexivity. Qed.

(** The 403 class is decided on the text of the error: an [HttpError] of
    another status whose text contains "403" falls in it. *)
Example quota_class_is_textual :
  quota_class forbidden = true
  /\ quota_class not_found = false
  /\ quota_class (HttpError "<HttpError 500 when requesting https://www.googleapis.com/youtube/v3/videos?id=ab403cd returned backendError>") = true
  /\ quota_class (OtherError "socket.timeout") = false.
Proof. repeat split. Qed.

Section StringFacts.

Lemma rstrip_cons c a s :
  Str.rstrip c (String a s) =
  match Str.rstrip c s with
  | EmptyString => if Ascii.eqb a c then EmptyString else String a EmptyString
  | String b r => String a (String b r)
  end.
Proof. reflexivity. Qed.

Lemma rstrip_idem c s : Str.rstrip c (Str.rstrip c s) = Str.rstrip c s.
Proof.
  induction s as [|a s IH]; [reflexivity|].
  rewrite rstrip_cons. destruct (Str.rstrip c s) as [|b r] eqn:E.
  - destruct (Ascii.eqb a c) eqn:Eac; [reflexivity|].
    rewrite rstrip_cons. simpl. now rewrite Eac.
  - rewrite rstrip_cons, IH. reflexivity.
Qed.

Lemma replace_idem old new s :
  new <> old ->
  Str.replace old new (Str.replace old new s) = Str.replace old new s.
Proof.
  intros Hne. induction s as [|a s IH]; [reflexivity|].
  simpl. rewrite IH. f_equal.
  destruct (Ascii.eqb a old) eqn:E; [|now rewrite E].
  apply Ascii.eqb_neq in Hne. now rewrite Hne.
Qed.

Lemma replace_app old new s t :
  Str.replace old new (s +:+ t) = Str.replace old new s +:+ Str.replace old new t.
Proof. induction s as [|a s IH]; simpl; [reflexivity|now rewrite IH]. Qed.

(** Replacing characters by one that is not stripped keeps a stripped
    string stripped. *)
Lemma rstrip_replace_stable c old new t :
  new <> c ->
  Str.rstrip c t = t ->
  Str.rstrip c (Str.replace old new t) = Str.replace old new t.
Proof.
  intros Hne. induction t as [|a t IH]; [reflexivity|].
  rewrite rstrip_cons. destruct (Str.rstrip c t) as [|b r] eqn:E.
  - destruct (Ascii.eqb a c) eqn:Eac; [discriminate|].
    intros H. injection H as <-. simpl.
    destruct (Ascii.eqb a old).
    + apply Ascii.eqb_neq in Hne. now rewrite Hne.
    + now rewrite Eac.
  - intros H. injection H as <-.
    specialize (IH eq_refl). simpl in *. rewrite IH. reflexivity.
Qed.

Lemma is_digit_digit n : Str.is_digit (digit n) = true.
Proof.
  unfold Str.is_digit, digit.
  assert (Hm : n mod 10 < 10) by (apply Nat.mod_upper_bound; lia).
  rewrite nat_ascii_embedding by lia.
  apply andb_true_iff. split; apply Nat.leb_le; lia.
Qed.


Lemma list_ascii_of_string_app s t :
  list_ascii_of_string (s +:+ t) = list_ascii_of_string s ++ list_ascii_of_string t.
Proof. induction s as [|a s IH]; simpl; [reflexivity|now rewrite IH]. Qed.

Lemma list_ascii_of_string_inj s t :
  list_ascii_of_string s = list_ascii_of_string t -> s = t.
Proof.
  intros H. rewrite <- (string_of_list_ascii_of_string s),
    <- (string_of_list_ascii_of_string t). now rewrite H.
Qed.

Lemma all_digits_Forall s :
  Str.all_digits s = true ->
  Forall (fun a => Str.is_digit a = true) (list_ascii_of_string s).
Proof.
  induction s as [|a s IH]; simpl; [constructor|].
  intros [Ha Hs]%andb_true_iff. constructor; auto.
Qed.

(** The text after the last non-digit separator is determined by the whole. *)
Lemma last_field_unique (sep : ascii) (x1 x2 n1 n2 : list ascii) :
  Str.is_digit sep = false ->
  Forall (fun a => Str.is_digit a = true) n1 ->
  Forall (fun a => Str.is_digit a = true) n2 ->
  x1 ++ sep :: n1 = x2 ++ sep :: n2 ->
  x1 = x2 /\ n1 = n2.
Proof.
  intros Hsep H1 H2. revert x2.
  induction x1 as [|a x1 IH]; intros [|b x2] H; simpl in H.
  - injection H as ->. auto.
  - injection H as <- ->.
    apply Forall_app in H1 as [_ H1]. inversion H1; congruence.
  - injection H as -> <-.
    apply Forall_app in H2 as [_ H2]. inversion H2; congruence.
  - injection H as -> H. destruct (IH _ H) as [-> ->]. auto.
Qed.

Lemma of_nat_inj n m : Str.of_nat n = Str.of_nat m -> n = m.
Proof.
  unfold Str.of_nat. intros H.
  assert (Hu : Nat.to_uint n = Nat.to_uint m).
  { apply (f_equal NilEmpty.uint_of_string) in H.
    rewrite !NilEmpty.usu in H. congruence. }
  rewrite <- (Unsigned.of_to n), <- (Unsigned.of_to m). now rewrite Hu.
Qed.

Lemma string_of_uint_digits d : Str.all_digits (NilEmpty.string_of_uint d) = true.
Proof. induction d; simpl; auto. Qed.

Lemma of_nat_digits n : Str.all_digits (Str.of_nat n) = true.
Proof. apply string_of_uint_digits. Qed.

(** A key [x ++ sep ++ str(n) ++ ext] determines [x] and [n]. *)
Lemma counted_key_inj (sep : ascii) (ext x1 x2 : string) (n1 n2 : nat) :
  Str.is_digit sep = false ->
  x1 +:+ String sep (Str.of_nat n1 +:+ ext) = x2 +:+ String sep (Str.of_nat n2 +:+ ext) ->
  x1 = x2 /\ n1 = n2.
Proof.
  intros Hsep H. apply (f_equal list_ascii_of_string) in H.
  rewrite !list_ascii_of_string_app in H. simpl in H.
  rewrite !list_ascii_of_string_app in H.
  change (?a :: ?l ++ ?e) with ((a :: l) ++ e) in H.
  rewrite !app_assoc in H. apply app_inv_tail in H.
  apply last_field_unique in H as [Hx Hn];
    auto using all_digits_Forall, of_nat_digits.
  split; [now apply list_ascii_of_string_inj|].
  now apply of_nat_inj, list_ascii_of_string_inj.
Qed.

Lemma video_s3_filename_eq date n :
  video_s3_filename date n =
  "youtube_video_snippet/" +:+ date +:+ "-" +:+ Str.of_nat n +:+ ".json.bz2".
Proof. reflexivity. Qed.

Lemma channel_s3_filename_eq date n :
  channel_s3_filename date n =
  "youtube_channel_stats/creation_date=" +:+ date +:+ "/" +:+ Str.of_nat n +:+ ".json.bz2".
Proof. reflexivity. Qed.

Lemma video_s3_filename_inj d1 d2 n1 n2 :
  video_s3_filename d1 n1 = video_s3_filename d2 n2 -> d1 = d2 /\ n1 = n2.
Proof.
  rewrite !video_s3_filename_eq. intros H.
  apply String.app_inj in H. now apply counted_key_inj in H.
Qed.

Lemma channel_s3_filename_inj d1 d2 n1 n2 :
  channel_s3_filename d1 n1 = channel_s3_filename d2 n2 -> d1 = d2 /\ n1 = n2.
Proof.
  rewrite !channel_s3_filename_eq. intros H.
  apply String.app_inj in H. now apply counted_key_inj in H.
Qed.

Lemma video_channel_filenames_differ d1 d2 n1 n2 :
  video_s3_filename d1 n1 <> channel_s3_filename d2 n2.
Proof. rewrite video_s3_filename_eq, channel_s3_filename_eq. discriminate. Qed.

End StringFacts.

(** C10: [publishedAt.rstrip('Z').replace('T', ' ')] is idempotent: applied
    to its own result it changes nothing, for every input string. *)
Theorem normalize_publishedAt_idempotent (s : string) :
  normalize_publishedAt (normalize_publishedAt s) = normalize_publishedAt s.
Proof.
  unfold normalize_publishedAt.
  rewrite rstrip_replace_stable.
  - apply replace_idem. discriminate.
  - discriminate.
  - apply rstrip_idem.
Qed.






(** On four-digit years [%Y] prints what a zero-padded field of width 4
    would. *)
Lemma of_nat_four_digits now :
  four_digit_year now = true -> Str.of_nat (year now) = digits 4 (year now).
Proof.
  unfold four_digit_year. intros [Hlo Hhi]%andb_true_iff.
  apply Nat.leb_le in Hlo, Hhi.
  assert (Hall : forallb (fun n => String.eqb (Str.of_nat n) (digits 4 n))
                   (seq 1000 9000) = true) by (vm_compute; reflexivity).
  rewrite forallb_forall in Hall. apply String.eqb_eq, Hall, in_seq.
  change (1000 + 9000) with (S 9999). lia.
Qed.

Lemma retrieved_at_of_unfold now :
  retrieved_at_of now
  = Str.drop_last 3
      (Str.of_nat (year now) +:+ "-" +:+ digits 2 (month now) +:+ "-" +:+ digits 2 (day now)
       +:+ " " +:+ digits 2 (hour now) +:+ ":" +:+ digits 2 (minute now) +:+ ":"
       +:+ digits 2 (second now) +:+ "." +:+ digits 6 (microsecond now)).
Proof. reflexivity. Qed.

Lemma date_of_unfold now :
  date_of now
  = Str.of_nat (year now) +:+ "-" +:+ digits 2 (month now) +:+ "-" +:+ digits 2 (day now).
Proof. reflexivity. Qed.

Lemma retrieved_at_of_shape now :
  four_digit_year now = true ->
  Str.matches retrieved_at_shape (retrieved_at_of now) = true.
Proof.
  intros Hy. rewrite retrieved_at_of_unfold, (of_nat_four_digits _ Hy).
  unfold retrieved_at_shape.
  cbv -[digit Str.is_digit Nat.div Nat.modulo].
  rewrite !is_digit_digit. reflexivity.
Qed.

(** ** The monad *)

Section MonadFacts.

Context {A B : Type}.

Lemma bind_Ok (m : M A) (f : A -> M B) tr a tr1 :
  m tr = (Ok a, tr1) -> bind m f tr = f a tr1.
Proof. unfold bind. now intros ->. Qed.

Lemma bind_Raise (m : M A) (f : A -> M B) tr e tr1 :
  m tr = (Raise e, tr1) -> bind m f tr = (Raise e, tr1).
Proof. unfold bind. now intros ->. Qed.

Lemma bind_Ok_inv (m : M A) (f : A -> M B) tr b tr2 :
  bind m f tr = (Ok b, tr2) ->
  exists a tr1, m tr = (Ok a, tr1) /\ f a tr1 = (Ok b, tr2).
Proof.
  unfold bind. destruct (m tr) as [[a|e|] tr1]; [eauto|discriminate..].
Qed.

End MonadFacts.

Section Grows.

Context {A B : Type} (P : event -> Prop).

Lemma grows_ret (a : A) : grows P (ret a).
Proof. intros tr out tr' [= <- <-]. now exists []. Qed.

Lemma grows_raise e : grows P (raise (A := A) e).
Proof. intros tr out tr' [= <- <-]. now exists []. Qed.

Lemma grows_out_of_fuel : grows P (out_of_fuel (A := A)).
Proof. intros tr out tr' [= <- <-]. now exists []. Qed.

Lemma grows_lift (r : result A) : grows P (lift r).
Proof. intros tr out tr' [= <- <-]. now exists []. Qed.

Lemma grows_bind (m : M A) (f : A -> M B) :
  grows P m -> (forall a, grows P (f a)) -> grows P (bind m f).
Proof.
  intros Hm Hf tr out tr'. unfold bind.
  destruct (m tr) as [[a|e|] tr1] eqn:E; destruct (Hm _ _ _ E) as (n1 & -> & H1).
  - intros H2. destruct (Hf _ _ _ _ H2) as (n2 & -> & H2').
    exists (n2 ++ n1). split; [now rewrite app_assoc|]. now apply Forall_app.
  - intros [= <- <-]. eauto.
  - intros [= <- <-]. eauto.
Qed.

End Grows.

Section TraceFacts.

Variable env : environment.
Variable credentials : list credential.

Lemma grows_perform (P : event -> Prop) ev : P ev -> grows P (perform env ev).
Proof.
  intros HP tr out tr'. unfold perform.
  destruct (fails env tr ev); intros [= <- <-]; exists [ev]; auto.
Qed.

Lemma grows_try_execute y r : grows fetch_phase (try_execute env y r).
Proof. intros tr out tr' [= <- <-]. exists [Execute y r]. split; [reflexivity|]. repeat constructor. Qed.

Lemma grows_datetime_utcnow : grows fetch_phase (datetime_utcnow env).
Proof. intros tr out tr' [= <- <-]. exists [Utcnow]. split; [reflexivity|]. repeat constructor. Qed.

Lemma grows_build key : grows fetch_phase (build env key).
Proof.
  apply grows_bind; [now apply grows_perform|]. intros; apply grows_ret.
Qed.

Lemma grows_fetch fuel pool r k y : grows fetch_phase (fetch env credentials fuel pool r k y).
Proof.
  revert k y. induction fuel as [|fuel IH]; intros k y; simpl.
  - apply grows_out_of_fuel.
  - apply grows_bind; [apply grows_try_execute|].
    intros [e|resp]; [|apply grows_ret].
    destruct e; try apply grows_raise.
    destruct (Str.contains "403" str_e); [|apply grows_raise].
    apply grows_bind; [apply grows_lift|]. intros _.
    apply grows_bind; [apply grows_lift|]. intros l.
    destruct (length l <=? k + 1); [apply grows_raise|].
    apply grows_bind; [apply grows_lift|]. intros c.
    apply grows_bind; [apply grows_build|]. intros y'. apply IH.
Qed.

Lemma grows_write_video_items items written :
  grows fetch_phase (write_video_items env items written).
Proof.
  revert written. induction items as [|item items IH]; intros written; simpl.
  - apply grows_ret.
  - apply grows_bind; [apply grows_lift|]. intros i1.
    apply grows_bind; [apply grows_datetime_utcnow|]. intros now.
    apply grows_bind; [apply grows_lift|]. intros i2. apply IH.
Qed.

Lemma grows_write_channel_items items written :
  grows fetch_phase (write_channel_items env items written).
Proof.
  revert written. induction items as [|item items IH]; intros written; simpl.
  - apply grows_ret.
  - apply grows_bind; [apply grows_datetime_utcnow|]. intros now.
    apply grows_bind; [apply grows_lift|]. intros i2. apply IH.
Qed.

Lemma grows_video_step fuel st i : grows fetch_phase (video_step env credentials fuel st i).
Proof.
  unfold video_step. apply grows_bind; [apply grows_fetch|]. intros [[k y] resp].
  apply grows_bind; [apply grows_write_video_items|]. intros; apply grows_ret.
Qed.

Lemma grows_channel_step fuel st i : grows fetch_phase (channel_step env credentials fuel st i).
Proof.
  unfold channel_step. apply grows_bind; [apply grows_fetch|]. intros [[k y] resp].
  apply grows_bind; [apply grows_write_channel_items|]. intros; apply grows_ret.
Qed.

Lemma grows_for_each step ids st :
  (forall st i, grows fetch_phase (step st i)) ->
  grows fetch_phase (for_each step ids st).
Proof.
  intros Hstep. revert st. induction ids as [|i ids IH]; intros st; simpl.
  - apply grows_ret.
  - apply grows_bind; [apply Hstep|]. apply IH.
Qed.

End TraceFacts.

(** ** The retry loop *)

Section FetchFacts.

Variable env : environment.
Variable credentials : list credential.

Lemma api_calls_app t1 t2 : api_calls (t1 ++ t2) = api_calls t1 + api_calls t2.
Proof. unfold api_calls. now rewrite List.filter_app, length_app. Qed.

Lemma rotations_app t1 t2 : rotations (t1 ++ t2) = rotations t1 + rotations t2.
Proof. unfold rotations. now rewrite List.filter_app, length_app. Qed.

Lemma list_getitem_lt {A} (l : list A) i :
  i < length l -> exists a, l !! i = Some a /\ list_getitem l i = Ok a.
Proof.
  intros H. destruct (lookup_lt_is_Some_2 l i H) as [a Ha].
  exists a. unfold list_getitem. now rewrite Ha.
Qed.

Lemma list_getitem_Ok {A} (l : list A) i a :
  list_getitem l i = Ok a -> l !! i = Some a /\ i < length l.
Proof.
  unfold list_getitem. destruct (l !! i) eqn:E; [|discriminate].
  intros [= ->]. split; [reflexivity|]. eapply lookup_lt_Some; eauto.
Qed.

Lemma list_getitem_fuel {A} (l : list A) i : list_getitem l i <> OutOfFuel.
Proof. unfold list_getitem. destruct (l !! i); discriminate. Qed.

(** The loop ends within [len(credentials) - current_key] iterations
    whatever the collaborators answer, and more fuel changes nothing. *)
Lemma fetch_bounded fuel pool r k y tr :
  pool <> OutOfFuel ->
  k < length credentials ->
  length credentials - k <= fuel ->
  exists out new,
    fetch env credentials fuel pool r k y tr = (out, new ++ tr)
    /\ out <> OutOfFuel
    /\ 1 <= api_calls new <= length credentials - k
    /\ (forall k' y' resp, out = Ok (k', y', resp) -> k <= k' < length credentials).
Proof.
  intros Hpool. revert k y tr.
  induction fuel as [|fuel IH]; intros k y tr Hk Hfuel; [lia|].
  simpl. unfold bind at 1, try_execute.
  assert (Hone : forall (out : result (nat * string * response)),
             out <> OutOfFuel ->
             (forall k' y' resp, out = Ok (k', y', resp) -> k <= k' < length credentials) ->
             exists out' new,
               (out, Execute y r :: tr) = (out', new ++ tr) /\ out' <> OutOfFuel
               /\ 1 <= api_calls new <= length credentials - k
               /\ (forall k' y' resp, out' = Ok (k', y', resp) -> k <= k' < length credentials)).
  { intros out Ho Hk'. exists out, [Execute y r]. repeat split; auto.
    - unfold api_calls; simpl; lia.
    - eapply Hk'; eauto.
    - eapply Hk'; eauto. }
  destruct (execute env tr y r) as [e|resp].
  2:{ apply Hone; [discriminate|]. intros ? ? ? [= <- <- <-]. lia. }
  destruct e; try (apply Hone; [discriminate|discriminate]).
  destruct (Str.contains "403" str_e); [|apply Hone; discriminate].
  destruct (list_getitem_lt credentials k Hk) as (c & _ & Hc).
  unfold bind at 1, lift at 1. rewrite Hc.
  unfold bind at 1, lift at 1.
  destruct pool as [l|e'|]; [|apply Hone; discriminate|contradiction].
  destruct (length l <=? k + 1); [apply Hone; discriminate|].
  unfold bind at 1, lift at 1.
  destruct (list_getitem credentials (k + 1)) as [c'|e'|] eqn:Hc';
    [|apply Hone; discriminate|now apply list_getitem_fuel in Hc'].
  apply list_getitem_Ok in Hc' as [_ Hk1].
  unfold bind at 1, build, bind at 1, perform.
  destruct (fails env (Execute y r :: tr) (Build (developer_key c'))) as [e'|].
  { exists (Raise e'), [Build (developer_key c'); Execute y r].
    repeat split; try discriminate; unfold api_calls; simpl; lia. }
  unfold ret.
  destruct (IH (k + 1) (developer_key c') (Build (developer_key c') :: Execute y r :: tr))
    as (out & new & Hrun & Hout & Hcalls & Hk'); [lia|lia|].
  exists out, (new ++ [Build (developer_key c'); Execute y r]).
  rewrite Hrun, <- app_assoc. repeat split; auto.
  - rewrite api_calls_app. lia.
  - rewrite api_calls_app. unfold api_calls at 2. simpl. lia.
  - apply Hk' in H. lia.
  - apply Hk' in H. lia.
Qed.

Lemma fetch_fuel_mono fuel fuel' pool r k y tr out tr' :
  fetch env credentials fuel pool r k y tr = (out, tr') ->
  out <> OutOfFuel ->
  fuel <= fuel' ->
  fetch env credentials fuel' pool r k y tr = (out, tr').
Proof.
  revert fuel' k y tr.
  induction fuel as [|fuel IH]; intros fuel' k y tr H Hout Hle.
  - injection H as <- <-. contradiction.
  - destruct fuel' as [|fuel']; [lia|].
    simpl in *. unfold bind, try_execute, lift, build, perform, ret, raise in *.
    repeat match type of H with
           | context [match ?x with _ => _ end] => destruct x eqn:?
           end; try assumption.
    apply IH; [assumption|assumption|lia].
Qed.

End FetchFacts.

Section Finishes.

Variable env : environment.
Variable credentials : list credential.
Variable s3_data : string.

Lemma finishes_ret {A} (a : A) : finishes (ret a).
Proof. now intros tr out tr' [= <- <-]. Qed.

Lemma finishes_lift {A} (r : result A) : r <> OutOfFuel -> finishes (lift r).
Proof. now intros Hr tr out tr' [= <- <-]. Qed.

Lemma finishes_perform ev : finishes (perform env ev).
Proof.
  intros tr out tr'. unfold perform.
  destruct (fails env tr ev); now intros [= <- <-].
Qed.

Lemma finishes_datetime_utcnow : finishes (datetime_utcnow env).
Proof. now intros tr out tr' [= <- <-]. Qed.

Lemma finishes_bind_post {A B} (Q : A -> Prop) (m : M A) (f : A -> M B) :
  finishes m ->
  (forall tr a tr1, m tr = (Ok a, tr1) -> Q a) ->
  (forall a, Q a -> finishes (f a)) ->
  finishes (bind m f).
Proof.
  intros Hm HQ Hf tr out tr'. unfold bind.
  destruct (m tr) as [[a|e|] tr1] eqn:E.
  - apply Hf. eapply HQ; eauto.
  - now intros [= <- <-].
  - now apply Hm in E.
Qed.

Lemma finishes_bind {A B} (m : M A) (f : A -> M B) :
  finishes m -> (forall a, finishes (f a)) -> finishes (bind m f).
Proof.
  intros Hm Hf. apply (finishes_bind_post (fun _ => True)); auto.
Qed.

Lemma finishes_build key : finishes (build env key).
Proof.
  apply finishes_bind; [apply finishes_perform|]. intros; apply finishes_ret.
Qed.

Lemma rbind_finishes {A B} (r : result A) (f : A -> result B) :
  r <> OutOfFuel -> (forall a, f a <> OutOfFuel) -> rbind r f <> OutOfFuel.
Proof. destruct r; simpl; auto; discriminate. Qed.

Lemma getitem_finishes j k : getitem j k <> OutOfFuel.
Proof. destruct j; try discriminate. cbn [getitem]. destruct (_ !! _); discriminate. Qed.

Lemma setitem_finishes j k x : setitem j k x <> OutOfFuel.
Proof. destruct j; discriminate. Qed.

Lemma rewrite_publishedAt_finishes item : rewrite_publishedAt item <> OutOfFuel.
Proof.
  unfold rewrite_publishedAt.
  apply rbind_finishes; [apply getitem_finishes|]. intros snippet.
  apply rbind_finishes; [apply getitem_finishes|]. intros p.
  apply rbind_finishes; [destruct p; discriminate|]. intros s.
  apply rbind_finishes; [apply setitem_finishes|]. intros s'.
  apply setitem_finishes.
Qed.

Lemma youtube_video_ids_finishes d b : youtube_video_ids d b <> OutOfFuel.
Proof.
  unfold youtube_video_ids.
  destruct b; [destruct (youtube_video_snippet d)|]; discriminate.
Qed.

Lemma channel_ids_finishes d : channel_ids d <> OutOfFuel.
Proof. unfold channel_ids. destruct (youtube_video_snippet d); discriminate. Qed.

Lemma select_rows_finishes d q : select_rows d q <> OutOfFuel.
Proof.
  assert (Hgo : forall B (r : result (list string)) (f : list string -> B),
             r <> OutOfFuel -> rbind r (fun l => Ok (f l)) <> OutOfFuel).
  { intros B r f Hr. apply rbind_finishes; [exact Hr|discriminate]. }
  destruct q as [| | | | | | | |q []]; try discriminate;
    try (destruct q; try discriminate);
    cbn [select_rows];
    apply Hgo; apply youtube_video_ids_finishes || apply channel_ids_finishes.
Qed.

Lemma select_count_finishes d q : select_count d q <> OutOfFuel.
Proof.
  assert (Hgo : forall B (r : result (list string)) (f : list string -> B),
             r <> OutOfFuel -> rbind r (fun l => Ok (f l)) <> OutOfFuel).
  { intros B r f Hr. apply rbind_finishes; [exact Hr|discriminate]. }
  destruct q as [| | | | | | | |q []]; try discriminate;
    try (destruct q; try discriminate);
    cbn [select_count];
    apply Hgo; apply youtube_video_ids_finishes || apply channel_ids_finishes.
Qed.

Lemma finishes_write_video_items items written :
  finishes (write_video_items env items written).
Proof.
  revert written. induction items as [|item items IH]; intros written; cbn [write_video_items].
  - apply finishes_ret.
  - apply finishes_bind; [apply finishes_lift, rewrite_publishedAt_finishes|]. intros i1.
    apply finishes_bind; [apply finishes_datetime_utcnow|]. intros now.
    apply finishes_bind; [apply finishes_lift, setitem_finishes|]. intros i2. apply IH.
Qed.

Lemma finishes_write_channel_items items written :
  finishes (write_channel_items env items written).
Proof.
  revert written. induction items as [|item items IH]; intros written; cbn [write_channel_items].
  - apply finishes_ret.
  - apply finishes_bind; [apply finishes_datetime_utcnow|]. intros now.
    apply finishes_bind; [apply finishes_lift, setitem_finishes|]. intros i2. apply IH.
Qed.

Lemma finishes_fetch fuel pool r k y :
  pool <> OutOfFuel -> k < length credentials -> length credentials <= fuel ->
  finishes (fetch env credentials fuel pool r k y)
  /\ forall tr k' y' resp tr',
       fetch env credentials fuel pool r k y tr = (Ok (k', y', resp), tr') ->
       k' < length credentials.
Proof.
  intros Hpool Hk Hfuel. split.
  - intros tr out tr' H.
    destruct (fetch_bounded env credentials fuel pool r k y tr Hpool Hk)
      as (out' & new & Hrun & Hout & _); [lia|]. congruence.
  - intros tr k' y' resp tr' H.
    destruct (fetch_bounded env credentials fuel pool r k y tr Hpool Hk)
      as (out' & new & Hrun & _ & _ & Hk'); [lia|].
    rewrite Hrun in H. injection H as -> _. eapply Hk'; eauto.
Qed.

Lemma finishes_step fuel pool (req : string -> request)
    (write : list json -> list json -> M (list json)) st i :
  pool <> OutOfFuel -> (forall items written, finishes (write items written)) ->
  current_key st < length credentials -> length credentials <= fuel ->
  let step :=
    let* (current_key, youtube, response) :=
      fetch env credentials fuel pool (req i) (current_key st) (youtube st) in
    let* written := write (get_items response) (lines st) in
    ret {| num := num st + 1; current_key := current_key; youtube := youtube;
           lines := written |} in
  finishes step
  /\ forall tr st' tr', step tr = (Ok st', tr') -> current_key st' < length credentials.
Proof.
  intros Hpool Hwrite Hk Hfuel step.
  destruct (finishes_fetch fuel pool (req i) (current_key st) (youtube st) Hpool Hk Hfuel)
    as [Hfin Hpost].
  split.
  - apply (finishes_bind_post (fun '(k', _, _) => k' < length credentials)).
    + exact Hfin.
    + intros tr [[k' y'] resp] tr1 H. eapply Hpost; eauto.
    + intros [[k' y'] resp] _.
      apply finishes_bind; [apply Hwrite|]. intros; apply finishes_ret.
  - intros tr st' tr' H. unfold step in H.
    apply bind_Ok_inv in H as ([[k' y'] resp] & t1 & H1 & H).
    apply bind_Ok_inv in H as (w & t2 & _ & H).
    injection H as <- _. simpl. eapply Hpost; eauto.
Qed.

Lemma finishes_for_each step ids :
  (forall st i, current_key st < length credentials ->
     finishes (step st i)
     /\ forall tr st' tr', step st i tr = (Ok st', tr') ->
          current_key st' < length credentials) ->
  forall st, current_key st < length credentials -> finishes (for_each step ids st).
Proof.
  intros Hstep. induction ids as [|i ids IH]; intros st Hk; cbn [for_each].
  - apply finishes_ret.
  - destruct (Hstep st i Hk) as [Hfin Hpost].
    apply (finishes_bind_post (fun st' => current_key st' < length credentials)); eauto.
Qed.

Lemma finishes_collect_video_snippets fuel :
  length credentials <= fuel ->
  finishes (collect_video_snippets env credentials s3_data fuel).
Proof.
  intros Hfuel.
  unfold collect_video_snippets, table_exists, query_athena_and_get_result,
    query_athena_and_download, compress, upload_file, query_athena_and_wait.
  apply finishes_bind.
  { apply finishes_bind; [apply finishes_perform|]. intros; apply finishes_ret. }
  intros ex. apply finishes_bind.
  { apply finishes_bind; [apply finishes_perform|].
    intros; apply finishes_lift, select_count_finishes. }
  intros cnt. apply finishes_bind.
  { apply finishes_bind; [apply finishes_perform|].
    intros; apply finishes_lift, select_rows_finishes. }
  intros ids.
  apply (finishes_bind_post (fun _ => 0 < length credentials)).
  { apply finishes_lift, list_getitem_fuel. }
  { unfold lift. intros tr a tr1 [= H _]. now apply list_getitem_Ok in H. }
  intros c Hpos. apply finishes_bind; [apply finishes_build|].
  intros y. apply finishes_bind.
  { apply finishes_for_each; [|exact Hpos].
    intros st i Hk.
    apply (finishes_step fuel (Ok credentials) videos_list
             (write_video_items env) st i); auto using finishes_write_video_items. }
  intros st. apply finishes_bind.
  { apply finishes_bind; [apply finishes_perform|]. intros; apply finishes_ret. }
  intros cf. apply finishes_bind; [apply finishes_datetime_utcnow|].
  intros now. apply finishes_bind; apply finishes_perform || (intros; apply finishes_perform).
Qed.

Lemma finishes_collect_channel_stats fuel :
  length credentials <= fuel ->
  finishes (collect_channel_stats env credentials s3_data fuel).
Proof.
  intros Hfuel.
  unfold collect_channel_stats, query_athena_and_get_result,
    query_athena_and_download, compress, upload_file, query_athena_and_wait.
  apply finishes_bind.
  { apply finishes_bind; [apply finishes_perform|].
    intros; apply finishes_lift, select_rows_finishes. }
  intros ids. apply finishes_bind.
  { apply finishes_bind; [apply finishes_perform|].
    intros; apply finishes_lift, select_count_finishes. }
  intros cnt.
  apply (finishes_bind_post (fun _ => 0 < length credentials)).
  { apply finishes_lift, list_getitem_fuel. }
  { unfold lift. intros tr a tr1 [= H _]. now apply list_getitem_Ok in H. }
  intros c Hpos. apply finishes_bind; [apply finishes_build|].
  intros y. apply finishes_bind.
  { apply finishes_for_each; [|exact Hpos].
    intros st i Hk.
    apply (finishes_step fuel (list_getitem_str credentials "youtube") channels_list
             (write_channel_items env) st i); auto using finishes_write_channel_items. }
  intros st. apply finishes_bind.
  { apply finishes_bind; [apply finishes_perform|]. intros; apply finishes_ret. }
  intros cf. apply finishes_bind; [apply finishes_datetime_utcnow|].
  intros now. apply finishes_bind; [apply finishes_perform|].
  intros _. apply finishes_bind; [apply finishes_perform|].
  intros _. apply finishes_bind; [apply finishes_perform|].
  intros _. apply finishes_perform.
Qed.

End Finishes.

Section Outcome.

Variable env : environment.
Variable credentials : list credential.

Lemma answers_app tr0 n1 n2 :
  answers env tr0 (n1 ++ n2) = answers env (n2 ++ tr0) n1 ++ answers env tr0 n2.
Proof.
  induction n1 as [|ev n1 IH]; [reflexivity|].
  destruct ev; cbn [answers app]; rewrite ?IH; try reflexivity.
  now rewrite <- app_assoc.
Qed.

Lemma length_answers tr0 new : length (answers env tr0 new) = api_calls new.
Proof.
  unfold api_calls. induction new as [|ev new IH]; [reflexivity|].
  destruct ev; cbn [answers List.filter is_execute length]; now rewrite ?IH.
Qed.

(** How the loop of the video flow ends. *)
Lemma video_fetch_outcome fuel r : forall k y tr,
  k < length credentials -> length credentials - k <= fuel ->
  exists out new y' a earlier,
    fetch env credentials fuel (Ok credentials) r k y tr = (out, new ++ tr)
    /\ answers env tr new = (y', r, a) :: earlier
    /\ Forall (refused r) earlier
    /\ k + length earlier < length credentials
    /\ match a with
       | inr resp =>
           out = Ok (k + length earlier, y', resp)
           /\ exists last, new = Execute y' r :: last
       | inl e =>
           (out = Raise e
            /\ (exists last, new = Execute y' r :: last)
            /\ (quota_class e = true -> k + length earlier + 1 = length credentials))
           \/ (quota_class e = true
               /\ exists e' key last,
                    out = Raise e' /\ new = Build key :: last
                    /\ fails env (last ++ tr) (Build key) = Some e')
       end.
Proof.
  induction fuel as [|fuel IH]; intros k y tr Hk Hfuel; [lia|].
  cbn [fetch]. unfold bind at 1, try_execute.
  destruct (execute env tr y r) as [e|resp] eqn:He.
  2:{ exists (Ok (k, y, resp)), [Execute y r], y, (inr resp), [].
      cbn [answers app length]. rewrite He, Nat.add_0_r.
      repeat split; eauto. }
  assert (Hraise : forall e0,
            (quota_class e = true -> e0 = e /\ k + 1 = length credentials) ->
            (quota_class e = false -> e0 = e) ->
            exists out new y' a earlier,
              (Raise e0, Execute y r :: tr) = (out, new ++ tr)
              /\ answers env tr new = (y', r, a) :: earlier
              /\ Forall (refused r) earlier
              /\ k + length earlier < length credentials
              /\ match a with
                 | inr resp =>
                     out = Ok (k + length earlier, y', resp)
                     /\ exists last, new = Execute y' r :: last
                 | inl e =>
                     (out = Raise e
                      /\ (exists last, new = Execute y' r :: last)
                      /\ (quota_class e = true -> k + length earlier + 1 = length credentials))
                     \/ (quota_class e = true
                         /\ exists e' key last,
                              out = Raise e' /\ new = Build key :: last
                              /\ fails env (last ++ tr) (Build key) = Some e')
                 end).
  { intros e0 Hq Hn. exists (Raise e0), [Execute y r], y, (inl e), [].
    cbn [answers app length]. rewrite He, Nat.add_0_r.
    split; [reflexivity|]. split; [reflexivity|]. split; [constructor|]. split; [exact Hk|].
    left. destruct (quota_class e) eqn:Hqc.
    - destruct (Hq eq_refl) as [-> Hlen]. repeat split; eauto.
    - rewrite (Hn eq_refl). repeat split; eauto. discriminate. }
  destruct e as [s| | | | | |w]; try (apply Hraise; [discriminate|reflexivity]).
  destruct (Str.contains "403" s) eqn:Hs.
  2:{ apply Hraise; cbn [quota_class]; rewrite Hs; [discriminate|reflexivity]. }
  destruct (list_getitem_lt credentials k Hk) as (c & _ & Hc).
  unfold bind at 1, lift at 1. rewrite Hc.
  unfold bind at 1, lift at 1.
  destruct (Nat.leb_spec (length credentials) (k + 1)) as [Hex|Hmore].
  { apply Hraise; [|cbn [quota_class]; rewrite Hs; discriminate].
    intros _. split; [reflexivity|lia]. }
  destruct (list_getitem_lt credentials (k + 1) Hmore) as (c' & _ & Hc').
  unfold bind at 1, lift at 1. rewrite Hc'.
  unfold bind at 1, build, bind at 1, perform.
  destruct (fails env (Execute y r :: tr) (Build (developer_key c'))) as [e'|] eqn:Hb.
  { exists (Raise e'), [Build (developer_key c'); Execute y r], y, (inl (HttpError s)), [].
    cbn [answers app length]. rewrite He.
    split; [reflexivity|]. split; [reflexivity|]. split; [constructor|]. split; [lia|].
    right. split; [exact Hs|]. exists e', (developer_key c'), [Execute y r]. auto. }
  unfold ret.
  destruct (IH (k + 1) (developer_key c') (Build (developer_key c') :: Execute y r :: tr))
    as (out & new & y' & a & earlier & Hrun & Hans & Hearlier & Hlen & Hend); [lia|lia|].
  exists out, (new ++ [Build (developer_key c'); Execute y r]), y', a,
    (earlier ++ [(y, r, inl (HttpError s))]).
  rewrite Hrun, <- app_assoc. split; [reflexivity|].
  rewrite answers_app. cbn [app] in Hans |- *. rewrite Hans.
  cbn [answers app]. rewrite He.
  split; [reflexivity|]. split.
  { apply Forall_app. split; [exact Hearlier|]. constructor; [|constructor].
    split; [reflexivity|exact Hs]. }
  rewrite length_app. cbn [length].
  split; [lia|].
  replace (k + (length earlier + 1)) with (k + 1 + length earlier) by lia.
  destruct a as [e|resp].
  - destruct Hend as [(-> & [last ->] & Hq)|(Hq & e' & key & last & -> & -> & Hf)].
    + left. split; [reflexivity|]. split; [eexists; reflexivity|exact Hq].
    + right. split; [exact Hq|]. exists e', key, (last ++ [Build (developer_key c'); Execute y r]).
      split; [reflexivity|]. split; [reflexivity|].
      now rewrite <- app_assoc.
  - destruct Hend as (-> & [last ->]). split; [reflexivity|]. eexists; reflexivity.
Qed.

(** How the loop of the channel flow ends: after one call. *)
Lemma channel_fetch_outcome fuel r k y tr :
  k < length credentials ->
  fetch env credentials (S fuel) (list_getitem_str credentials "youtube") r k y tr
  = (match execute env tr y r with
     | inr resp => Ok (k, y, resp)
     | inl e => Raise (if quota_class e then TypeError else e)
     end,
     Execute y r :: tr).
Proof.
  intros Hk. cbn [fetch]. unfold bind at 1, try_execute.
  destruct (execute env tr y r) as [e|resp]; [|reflexivity].
  destruct e as [s| | | | | |w]; try reflexivity.
  cbn [quota_class]. destruct (Str.contains "403" s); [|reflexivity].
  destruct (list_getitem_lt credentials k Hk) as (c & _ & Hc).
  unfold bind at 1, lift at 1. rewrite Hc. reflexivity.
Qed.


End Outcome.

(** C5: in both flows the [while no_response] loop of an identifier ends,
    whatever the API and the other collaborators answer, within
    [len(credentials)] iterations of one API call each, and a larger budget
    gives the same result.  In the video flow every call but the last was
    refused with an exception of the 403 class, and the loop ends in one of
    four ways: with the response the API gave to the last call; with the
    exception of the last call when it is outside the 403 class; with the
    403-class exception of the last call when no credential is left; or
    with the exception raised by building the client for the next
    credential.  In the channel flow the loop makes one call and returns its
    response or raises its exception, except that an exception of the 403
    class is replaced by the [TypeError] of line 229.  No run of either flow
    is cut by a budget of [len(credentials)] iterations per identifier. *)
Theorem retry_loop_terminates env credentials fuel fuel' i k y tr :
  k < length credentials ->
  length credentials <= fuel -> fuel <= fuel' ->
  (exists out new y' a earlier,
      fetch env credentials fuel (Ok credentials) (videos_list i) k y tr = (out, new ++ tr)
      /\ fetch env credentials fuel' (Ok credentials) (videos_list i) k y tr = (out, new ++ tr)
      /\ answers env tr new = (y', videos_list i, a) :: earlier
      /\ Forall (refused (videos_list i)) earlier
      /\ api_calls new = S (length earlier)
      /\ 1 <= api_calls new <= length credentials - k
      /\ match a with
         | inr resp =>
             out = Ok (k + length earlier, y', resp)
             /\ exists last, new = Execute y' (videos_list i) :: last
         | inl e =>
             (out = Raise e
              /\ (exists last, new = Execute y' (videos_list i) :: last)
              /\ (quota_class e = true -> k + length earlier + 1 = length credentials))
             \/ (quota_class e = true
                 /\ exists e' key last,
                      out = Raise e' /\ new = Build key :: last
                      /\ fails env (last ++ tr) (Build key) = Some e')
         end)
  /\
  (fetch env credentials fuel (list_getitem_str credentials "youtube")
     (channels_list i) k y tr
   = (match execute env tr y (channels_list i) with
      | inr resp => Ok (k, y, resp)
      | inl e => Raise (if quota_class e then TypeError else e)
      end,
      Execute y (channels_list i) :: tr)
   /\ fetch env credentials fuel' (list_getitem_str credentials "youtube")
        (channels_list i) k y tr
      = fetch env credentials fuel (list_getitem_str credentials "youtube")
          (channels_list i) k y tr)
  /\
  (forall s3_data tr0,
      fst (collect_video_snippets env credentials s3_data fuel tr0) <> OutOfFuel
      /\ fst (collect_channel_stats env credentials s3_data fuel tr0) <> OutOfFuel).
Proof.
  intros Hk Hfuel Hle. split; [|split].
  - destruct (video_fetch_outcome env credentials fuel (videos_list i) k y tr Hk)
      as (out & new & y' & a & earlier & Hrun & Hans & Hearlier & Hlen & Hend); [lia|].
    exists out, new, y', a, earlier.
    assert (Hcalls : api_calls new = S (length earlier)).
    { now rewrite <- (length_answers env tr new), Hans. }
    split; [exact Hrun|]. split.
    { eapply fetch_fuel_mono; eauto.
      destruct a as [e|resp]; [|destruct Hend as [-> _]; discriminate].
      destruct Hend as [(-> & _)|(_ & e' & key & last & -> & _)]; discriminate. }
    split; [exact Hans|]. split; [exact Hearlier|]. split; [exact Hcalls|].
    split; [lia|exact Hend].
  - destruct fuel as [|fuel]; [lia|]. destruct fuel' as [|fuel']; [lia|].
    rewrite !channel_fetch_outcome by exact Hk. auto.
  - intros s3_data tr0. split.
    + destruct (collect_video_snippets env credentials s3_data fuel tr0) as [out tr9] eqn:E.
      eapply finishes_collect_video_snippets; eauto.
    + destruct (collect_channel_stats env credentials s3_data fuel tr0) as [out tr9] eqn:E.
      eapply finishes_collect_channel_stats; eauto.
Qed.

Lemma retry_loop_terminates_witness :
  exists out new y' a earlier,
    fetch quota_env two_keys 2 (Ok two_keys) (videos_list "a") 0 "key1" [] = (out, new ++ [])
    /\ fetch quota_env two_keys 3 (Ok two_keys) (videos_list "a") 0 "key1" [] = (out, new ++ [])
    /\ answers quota_env [] new = (y', videos_list "a", a) :: earlier
    /\ Forall (refused (videos_list "a")) earlier
    /\ api_calls new = S (length earlier)
    /\ 1 <= api_calls new <= length two_keys - 0
    /\ match a with
       | inr resp =>
           out = Ok (0 + length earlier, y', resp)
           /\ exists last, new = Execute y' (videos_list "a") :: last
       | inl e =>
           (out = Raise e
            /\ (exists last, new = Execute y' (videos_list "a") :: last)
            /\ (quota_class e = true -> 0 + length earlier + 1 = length two_keys))
           \/ (quota_class e = true
               /\ exists e' key last,
                    out = Raise e' /\ new = Build key :: last
                    /\ fails quota_env (last ++ []) (Build key) = Some e')
       end.
Proof.
  apply (proj1 (retry_loop_terminates quota_env two_keys 2 3 "a" 0 "key1" []
                  ltac:(simpl; lia) ltac:(simpl; lia) ltac:(lia))).
Defined.

(** The video loop of [quota_env]: one refused call, then the response of
    the API to the second. *)
Example retry_loop_sample :
  fetch quota_env two_keys 2 (Ok two_keys) (videos_list "a") 0 "key1" []
  = (Ok (1, "key2", {| items := Some [sample_video "a"] |}),
     [Execute "key2" (videos_list "a"); Build "key2"; Execute "key1" (videos_list "a")])
  /\ answers quota_env []
       [Execute "key2" (videos_list "a"); Build "key2"; Execute "key1" (videos_list "a")]
     = [("key2", videos_list "a", inr {| items := Some [sample_video "a"] |});
        ("key1", videos_list "a", inl forbidden)].
Proof. split; vm_compute; reflexivity. Qed.




Example textual_env_run :
  http_status not_found_x403 = Some "404"
  /\ quota_class not_found_x403 = true
  /\ fetch textual_env two_keys 2 (Ok two_keys) (videos_list "x403") 0 "key1" []
     = (Ok (1, "key2", {| items := Some [sample_video "x403"] |}),
        [Execute "key2" (videos_list "x403"); Build "key2";
         Execute "key1" (videos_list "x403")]).
Proof. repeat split. Qed.

(** C8: when the response fetched for an identifier has no entities (an
    empty [items] list, or no [items] key), each flow writes nothing for it:
    the written records are unchanged, nothing is raised, no further
    operation is performed, and the loop goes on with the next identifier.
    Only the identifier counter ([num_videos], [num_channels]) advances. *)
Theorem empty_result_writes_nothing env credentials fuel st i rest tr k y resp tr' :
  get_items resp = [] ->
  (fetch env credentials fuel (Ok credentials) (videos_list i)
     (current_key st) (youtube st) tr = (Ok (k, y, resp), tr') ->
   let st' := {| num := num st + 1; current_key := k; youtube := y; lines := lines st |} in
   video_step env credentials fuel st i tr = (Ok st', tr')
   /\ for_each (video_step env credentials fuel) (i :: rest) st tr
      = for_each (video_step env credentials fuel) rest st' tr')
  /\
  (fetch env credentials fuel (list_getitem_str credentials "youtube") (channels_list i)
     (current_key st) (youtube st) tr = (Ok (k, y, resp), tr') ->
   let st' := {| num := num st + 1; current_key := k; youtube := y; lines := lines st |} in
   channel_step env credentials fuel st i tr = (Ok st', tr')
   /\ for_each (channel_step env credentials fuel) (i :: rest) st tr
      = for_each (channel_step env credentials fuel) rest st' tr').
Proof.
  intros Hitems. split; intros Hfetch st'.
  - assert (Hstep : video_step env credentials fuel st i tr = (Ok st', tr')).
    { unfold video_step. erewrite bind_Ok by exact Hfetch.
      cbv beta iota. rewrite Hitems. reflexivity. }
    split; [exact Hstep|]. cbn [for_each]. now erewrite bind_Ok by exact Hstep.
  - assert (Hstep : channel_step env credentials fuel st i tr = (Ok st', tr')).
    { unfold channel_step. erewrite bind_Ok by exact Hfetch.
      cbv beta iota. rewrite Hitems. reflexivity. }
    split; [exact Hstep|]. cbn [for_each]. now erewrite bind_Ok by exact Hstep.
Qed.

Lemma empty_result_writes_nothing_witness :
  video_step abc_env [ {| developer_key := "key1" |} ] 1 (start_state "key1") "c" []
  = (Ok {| num := 1; current_key := 0; youtube := "key1"; lines := [] |},
     [Execute "key1" (videos_list "c")]).
Proof.
  apply (empty_result_writes_nothing abc_env [ {| developer_key := "key1" |} ] 1
           (start_state "key1") "c" [] [] 0 "key1" {| items := Some [] |}
           [Execute "key1" (videos_list "c")]); reflexivity.
Defined.

(** ** Whole runs *)

Section RunFacts.

Variable env : environment.
Variable credentials : list credential.
Variable s3_data : string.

Lemma ret_inv {A} (a b : A) tr tr' : ret a tr = (Ok b, tr') -> a = b /\ tr' = tr.
Proof. now intros [= -> ->]. Qed.

Lemma lift_inv {A} (r : result A) a tr tr' : lift r tr = (Ok a, tr') -> r = Ok a /\ tr' = tr.
Proof. now intros [= -> ->]. Qed.

Lemma perform_inv ev tr u tr' :
  perform env ev tr = (Ok u, tr') -> tr' = ev :: tr /\ fails env tr ev = None.
Proof. unfold perform. destruct (fails env tr ev); [discriminate|]. now intros [= <- <-]. Qed.

Lemma datetime_utcnow_inv tr now tr' :
  datetime_utcnow env tr = (Ok now, tr') -> now = utcnow env tr /\ tr' = Utcnow :: tr.
Proof. now intros [= <- <-]. Qed.

Lemma build_inv key tr y tr' :
  build env key tr = (Ok y, tr') -> y = key /\ tr' = Build key :: tr.
Proof.
  unfold build. intros (u & t1 & H1 & H2)%bind_Ok_inv.
  apply perform_inv in H1 as [-> _]. apply ret_inv in H2 as [-> ->]. auto.
Qed.

Lemma video_step_num fuel st i tr st' tr' :
  video_step env credentials fuel st i tr = (Ok st', tr') -> num st' = num st + 1.
Proof.
  unfold video_step. intros ([[k y] resp] & t1 & _ & H)%bind_Ok_inv.
  apply bind_Ok_inv in H as (w & t2 & _ & H). apply ret_inv in H as [<- _]. reflexivity.
Qed.

Lemma channel_step_num fuel st i tr st' tr' :
  channel_step env credentials fuel st i tr = (Ok st', tr') -> num st' = num st + 1.
Proof.
  unfold channel_step. intros ([[k y] resp] & t1 & _ & H)%bind_Ok_inv.
  apply bind_Ok_inv in H as (w & t2 & _ & H). apply ret_inv in H as [<- _]. reflexivity.
Qed.

Lemma for_each_num step ids st tr st' tr' :
  (forall st i tr st1 tr1, step st i tr = (Ok st1, tr1) -> num st1 = num st + 1) ->
  for_each step ids st tr = (Ok st', tr') ->
  num st' = num st + length ids.
Proof.
  intros Hstep. revert st tr.
  induction ids as [|i ids IH]; intros st tr; simpl.
  - intros [-> _]%ret_inv. lia.
  - intros (st1 & t1 & H1 & H2)%bind_Ok_inv.
    apply Hstep in H1. apply IH in H2. lia.
Qed.

(** A successful run of the video flow, operation by operation. *)
Lemma collect_video_snippets_Ok fuel tr0 tr :
  collect_video_snippets env credentials s3_data fuel tr0 = (Ok tt, tr) ->
  exists ids c st fetched prologue,
    video_work_set (db env) = Ok ids
    /\ credentials !! 0 = Some c
    /\ Forall prologue_op prologue
    /\ for_each (video_step env credentials fuel) ids (start_state (developer_key c))
         (prologue ++ tr0) = (Ok st, fetched ++ prologue ++ tr0)
    /\ Forall fetch_phase fetched
    /\ num st = length ids
    /\ tr = Query_athena_and_wait (CREATE_VIDEO_SNIPPET_JSON s3_data)
            :: Upload_file s3_data
                 (video_s3_filename
                    (date_of (utcnow env (Compress (lines st) :: fetched ++ prologue ++ tr0)))
                    (length ids))
                 (lines st)
            :: Utcnow :: Compress (lines st) :: fetched ++ prologue ++ tr0.
Proof.
  unfold collect_video_snippets, table_exists, query_athena_and_get_result,
    query_athena_and_download, compress, upload_file, query_athena_and_wait.
  intros H.
  apply bind_Ok_inv in H as (ex & t1 & H1 & H).
  apply bind_Ok_inv in H1 as (u1 & t1' & H1 & H1').
  apply perform_inv in H1 as [-> _]. apply ret_inv in H1' as [<- ->].
  apply bind_Ok_inv in H as (cnt & t2 & H2 & H).
  apply bind_Ok_inv in H2 as (u2 & t2' & H2 & H2').
  apply perform_inv in H2 as [-> _]. apply lift_inv in H2' as [_ ->].
  apply bind_Ok_inv in H as (ids & t3 & H3 & H).
  apply bind_Ok_inv in H3 as (u3 & t3' & H3 & H3').
  apply perform_inv in H3 as [-> _]. apply lift_inv in H3' as [Hids ->].
  apply bind_Ok_inv in H as (c & t4 & H4 & H).
  apply lift_inv in H4 as [Hc ->]. apply list_getitem_Ok in Hc as [Hc _].
  apply bind_Ok_inv in H as (y & t5 & H5 & H).
  apply build_inv in H5 as [-> ->].
  apply bind_Ok_inv in H as (st & t6 & H6 & H).
  apply bind_Ok_inv in H as (cf & t7 & H7 & H).
  apply bind_Ok_inv in H7 as (u7 & t7' & H7 & H7').
  apply perform_inv in H7 as [-> _]. apply ret_inv in H7' as [<- ->].
  apply bind_Ok_inv in H as (now & t8 & H8 & H).
  apply datetime_utcnow_inv in H8 as [-> ->].
  apply bind_Ok_inv in H as (u9 & t9 & H9 & H).
  apply perform_inv in H9 as [-> _]. apply perform_inv in H as [-> _].
  destruct (grows_for_each _ _ _ (grows_video_step env credentials fuel) _ _ _ H6)
    as (fetched & -> & Hfetched).
  pose proof (for_each_num _ _ _ _ _ _ (video_step_num fuel) H6) as Hnum.
  simpl in Hnum.
  eexists ids, c, st, fetched, [_; _; _; _].
  split; [exact Hids|]. split; [exact Hc|].
  split; [|split; [exact H6|split; [exact Hfetched|split; [exact Hnum|]]]].
  - repeat constructor.
  - rewrite Hnum. reflexivity.
Qed.

(** A successful run of the channel flow, operation by operation. *)
Lemma collect_channel_stats_Ok fuel tr0 tr :
  collect_channel_stats env credentials s3_data fuel tr0 = (Ok tt, tr) ->
  exists ids c st fetched prologue,
    channel_work_set (db env) = Ok ids
    /\ credentials !! 0 = Some c
    /\ Forall prologue_op prologue
    /\ for_each (channel_step env credentials fuel) ids (start_state (developer_key c))
         (prologue ++ tr0) = (Ok st, fetched ++ prologue ++ tr0)
    /\ Forall fetch_phase fetched
    /\ num st = length ids
    /\ tr = Query_athena_and_wait (MSCK_REPAIR_TABLE "youtube_channel_stats")
            :: Query_athena_and_wait (CREATE_CHANNEL_STATS_JSON s3_data)
            :: Query_athena_and_wait (DROP_TABLE_IF_EXISTS "youtube_channel_stats")
            :: Upload_file s3_data
                 (channel_s3_filename
                    (date_of (utcnow env (Compress (lines st) :: fetched ++ prologue ++ tr0)))
                    (length ids))
                 (lines st)
            :: Utcnow :: Compress (lines st) :: fetched ++ prologue ++ tr0.
Proof.
  unfold collect_channel_stats, query_athena_and_get_result,
    query_athena_and_download, compress, upload_file, query_athena_and_wait.
  intros H.
  apply bind_Ok_inv in H as (ids & t3 & H3 & H).
  apply bind_Ok_inv in H3 as (u3 & t3' & H3 & H3').
  apply perform_inv in H3 as [-> _]. apply lift_inv in H3' as [Hids ->].
  apply bind_Ok_inv in H as (cnt & t2 & H2 & H).
  apply bind_Ok_inv in H2 as (u2 & t2' & H2 & H2').
  apply perform_inv in H2 as [-> _]. apply lift_inv in H2' as [_ ->].
  apply bind_Ok_inv in H as (c & t4 & H4 & H).
  apply lift_inv in H4 as [Hc ->]. apply list_getitem_Ok in Hc as [Hc _].
  apply bind_Ok_inv in H as (y & t5 & H5 & H).
  apply build_inv in H5 as [-> ->].
  apply bind_Ok_inv in H as (st & t6 & H6 & H).
  apply bind_Ok_inv in H as (cf & t7 & H7 & H).
  apply bind_Ok_inv in H7 as (u7 & t7' & H7 & H7').
  apply perform_inv in H7 as [-> _]. apply ret_inv in H7' as [<- ->].
  apply bind_Ok_inv in H as (now & t8 & H8 & H).
  apply datetime_utcnow_inv in H8 as [-> ->].
  apply bind_Ok_inv in H as (u9 & t9 & H9 & H).
  apply perform_inv in H9 as [-> _].
  apply bind_Ok_inv in H as (u10 & t10 & H10 & H).
  apply perform_inv in H10 as [-> _].
  apply bind_Ok_inv in H as (u11 & t11 & H11 & H).
  apply perform_inv in H11 as [-> _]. apply perform_inv in H as [-> _].
  destruct (grows_for_each _ _ _ (grows_channel_step env credentials fuel) _ _ _ H6)
    as (fetched & -> & Hfetched).
  pose proof (for_each_num _ _ _ _ _ _ (channel_step_num fuel) H6) as Hnum.
  simpl in Hnum.
  eexists ids, c, st, fetched, [_; _; _].
  split; [exact Hids|]. split; [exact Hc|].
  split; [|split; [exact H6|split; [exact Hfetched|split; [exact Hnum|]]]].
  - repeat constructor.
  - rewrite Hnum. reflexivity.
Qed.

Lemma uploads_app t1 t2 : uploads (t1 ++ t2) = uploads t1 ++ uploads t2.
Proof. unfold uploads. apply omap_app. Qed.

Lemma waits_app t1 t2 : waits (t1 ++ t2) = waits t1 ++ waits t2.
Proof. unfold waits. apply omap_app. Qed.

Lemma fetch_phase_quiet new :
  Forall fetch_phase new -> uploads new = [] /\ waits new = [].
Proof.
  induction 1 as [|ev new Hev _ [IHu IHw]]; [auto|].
  destruct ev; try contradiction; auto.
Qed.

Lemma prologue_quiet new :
  Forall prologue_op new -> uploads new = [] /\ waits new = [].
Proof.
  induction 1 as [|ev new Hev _ [IHu IHw]]; [auto|].
  destruct ev; try contradiction; auto.
Qed.

Lemma loop_quiet fetched prologue lines0 tr0 :
  Forall fetch_phase fetched -> Forall prologue_op prologue ->
  uploads (Utcnow :: Compress lines0 :: fetched ++ prologue ++ tr0) = uploads tr0
  /\ waits (Utcnow :: Compress lines0 :: fetched ++ prologue ++ tr0) = waits tr0.
Proof.
  intros [Hfu Hfw]%fetch_phase_quiet [Hpu Hpw]%prologue_quiet.
  change (Utcnow :: Compress lines0 :: fetched ++ prologue ++ tr0)
    with ([Utcnow; Compress lines0] ++ fetched ++ prologue ++ tr0).
  rewrite !uploads_app, !waits_app, Hfu, Hfw, Hpu, Hpw. auto.
Qed.

End RunFacts.

Lemma date_of_shape now :
  four_digit_year now = true ->
  Str.matches (Str.shape_of "YYYY-MM-DD") (date_of now) = true.
Proof.
  intros Hy. rewrite date_of_unfold, (of_nat_four_digits _ Hy).
  cbv -[digit Str.is_digit Nat.div Nat.modulo].
  rewrite !is_digit_digit. reflexivity.
Qed.

Lemma abc_run_uploads :
  let run := collect_video_snippets abc_env one_key "bucket" 1 [] in
  fst run = Ok tt
  /\ uploads (snd run) = [("bucket", video_s3_filename "2021-05-01" 3, 2)].
Proof. vm_compute. auto. Qed.

Lemma abc_served_run_uploads :
  let run := collect_video_snippets abc_served_env one_key "bucket" 1 [] in
  fst run = Ok tt
  /\ uploads (snd run) = [("bucket", video_s3_filename "2021-05-01" 3, 3)].
Proof. vm_compute. auto. Qed.

(** C1 fails as stated.  With upstream a, b, c and an API that knows only
    a and b, the run commits 2 records under a key whose count is 3; and the
    run in which the API knows all three commits 3 records under that same
    key. *)
Lemma key_count_is_not_record_count :
  ~ (forall tr b k m,
        collect_video_snippets abc_env one_key "bucket" 1 [] = (Ok tt, tr) ->
        In (b, k, m) (uploads tr) ->
        exists d, k = video_s3_filename d m)
  /\ ~ (forall tr1 tr2 b1 k1 m1 b2 k2 m2,
        collect_video_snippets abc_env one_key "bucket" 1 [] = (Ok tt, tr1) ->
        collect_video_snippets abc_served_env one_key "bucket" 1 [] = (Ok tt, tr2) ->
        In (b1, k1, m1) (uploads tr1) ->
        In (b2, k2, m2) (uploads tr2) ->
        m1 <> m2 -> k1 <> k2).
Proof.
  destruct abc_run_uploads as [Hr1 Hu1], abc_served_run_uploads as [Hr2 Hu2].
  cbv zeta in *.
  destruct (collect_video_snippets abc_env one_key "bucket" 1 []) as [o1 t1].
  destruct (collect_video_snippets abc_served_env one_key "bucket" 1 []) as [o2 t2].
  simpl in *. subst o1 o2. split.
  - intros H.
    destruct (H t1 "bucket" (video_s3_filename "2021-05-01" 3) 2 eq_refl) as [d Hd].
    + rewrite Hu1. now left.
    + apply video_s3_filename_inj in Hd as [_ Hd]. discriminate.
  - intros H.
    apply (H t1 t2 "bucket" (video_s3_filename "2021-05-01" 3) 2
             "bucket" (video_s3_filename "2021-05-01" 3) 3 eq_refl eq_refl).
    + rewrite Hu1. now left.
    + rewrite Hu2. now left.
    + discriminate.
    + reflexivity.
Qed.

(** ** Schema registration *)

Lemma grows_weaken {A} (P Q : event -> Prop) (m : M A) :
  (forall ev, P ev -> Q ev) -> grows P m -> grows Q m.
Proof.
  intros HPQ Hm tr out tr' H. destruct (Hm _ _ _ H) as (new & -> & Hnew).
  exists new. split; [reflexivity|]. eapply Forall_impl; eauto.
Qed.

Lemma fetch_phase_no_drop ev : fetch_phase ev -> no_drop ev.
Proof. destruct ev; simpl; auto; contradiction. Qed.

Lemma collect_video_snippets_no_drop env credentials s3_data fuel :
  grows no_drop (collect_video_snippets env credentials s3_data fuel).
Proof.
  unfold collect_video_snippets, table_exists, query_athena_and_get_result,
    query_athena_and_download, compress, upload_file, query_athena_and_wait.
  apply grows_bind.
  { apply grows_bind; [now apply grows_perform|]. intros; apply grows_ret. }
  intros ex. apply grows_bind.
  { apply grows_bind; [|intros; apply grows_lift].
    apply grows_perform. now destruct ex. }
  intros cnt. apply grows_bind.
  { apply grows_bind; [|intros; apply grows_lift].
    apply grows_perform. now destruct ex. }
  intros ids. apply grows_bind; [apply grows_lift|].
  intros c. apply grows_bind.
  { eapply grows_weaken; [apply fetch_phase_no_drop|apply grows_build]. }
  intros y. apply grows_bind.
  { eapply grows_weaken; [apply fetch_phase_no_drop|].
    apply grows_for_each, grows_video_step. }
  intros st. apply grows_bind.
  { apply grows_bind; [now apply grows_perform|]. intros; apply grows_ret. }
  intros cf. apply grows_bind.
  { eapply grows_weaken; [apply fetch_phase_no_drop|apply grows_datetime_utcnow]. }
  intros now. apply grows_bind; [now apply grows_perform|].
  intros _. now apply grows_perform.
Qed.

(** ** Work sets *)

Lemma string_le_total : Total string_le.
Proof. intros a b. apply String.leb_total. Qed.

Lemma table_in_catalog_video db :
  table_in_catalog db "youtube_video_snippet" = is_some (youtube_video_snippet db).
Proof. reflexivity. Qed.

Lemma table_in_catalog_channel db :
  table_in_catalog db "youtube_channel_stats" = is_some (youtube_channel_stats db).
Proof. reflexivity. Qed.

Lemma video_count_of_work_set db ids :
  video_work_set db = Ok ids -> video_count db = Ok (length ids).
Proof.
  unfold video_work_set, video_count. rewrite table_in_catalog_video.
  destruct (youtube_video_snippet db) as [t|] eqn:Ht; cbn [is_some select_rows select_count];
    unfold youtube_video_ids; rewrite ?Ht; cbn [rbind]; now intros [= <-].
Qed.

(** C4, as the code has it.  The video flow resolves the upstream ids minus
    the persisted ones when its table exists and all upstream ids when it
    does not; the channel flow resolves every distinct channel id of
    youtube_video_snippet, in ascending order, whatever youtube_channel_stats
    holds.  Neither work set has duplicates, and each flow's count query
    returns the size of its work set. *)
Theorem work_set_resolution db :
  (exists l,
      video_work_set db = Ok l /\ NoDup l /\ video_count db = Ok (length l)
      /\ (table_in_catalog db "youtube_video_snippet" = true ->
          forall x, x ∈ l <-> x ∈ upstream_video_ids db /\ x ∉ persisted_video_ids db)
      /\ (table_in_catalog db "youtube_video_snippet" = false ->
          forall x, x ∈ l <-> x ∈ upstream_video_ids db))
  /\ (table_in_catalog db "youtube_video_snippet" = true ->
      exists l,
        channel_work_set db = Ok l /\ NoDup l /\ channel_count db = Ok (length l)
        /\ Sorted string_le l
        /\ forall x, x ∈ l <-> x ∈ upstream_channel_ids db).
Proof.
  unfold video_work_set, video_count, channel_work_set, channel_count,
    upstream_video_ids, persisted_video_ids, upstream_channel_ids.
  rewrite table_in_catalog_video.
  destruct (youtube_video_snippet db) as [t|] eqn:Ht; simpl;
    unfold youtube_video_ids, channel_ids; rewrite Ht; simpl.
  - split.
    + eexists. split; [reflexivity|]. split; [apply NoDup_remove_dups|].
      split; [reflexivity|]. split; [|discriminate].
      intros _ x. rewrite elem_of_remove_dups, !list_elem_of_fmap.
      split.
      * intros (r & -> & [Hr Hin]%list_elem_of_filter).
        split; [eauto|]. now rewrite <- list_elem_of_fmap.
      * intros [(r & -> & Hin) Hx]. exists r. split; [reflexivity|].
        apply list_elem_of_filter. split; [|assumption].
        now rewrite list_elem_of_fmap.
    + intros _. eexists. split; [reflexivity|].
      split. { rewrite merge_sort_Permutation. apply NoDup_remove_dups. }
      split. { now rewrite merge_sort_Permutation. }
      split. { apply Sorted_merge_sort, string_le_total. }
      intros x. now rewrite merge_sort_Permutation, elem_of_remove_dups.
  - split; [|discriminate].
    eexists. split; [reflexivity|]. split; [apply NoDup_remove_dups|].
    split; [reflexivity|]. split; [discriminate|].
    intros _ x. now rewrite elem_of_remove_dups.
Qed.

Lemma work_set_resolution_witness :
  exists l,
    channel_work_set (db served_env) = Ok l /\ NoDup l
    /\ channel_count (db served_env) = Ok (length l)
    /\ Sorted string_le l
    /\ forall x, x ∈ l <-> x ∈ upstream_channel_ids (db served_env).
Proof.
  apply (proj2 (work_set_resolution (db served_env))). reflexivity.
Defined.

(** C4 fails as stated for the channel flow: with channel UC1 both upstream
    and already in youtube_channel_stats, the work set still holds UC1. *)
Lemma channel_work_set_keeps_persisted :
  table_in_catalog (db quota_env) "youtube_channel_stats" = true
  /\ ~ (forall l,
         channel_work_set (db quota_env) = Ok l ->
         forall x, x ∈ l <->
                   x ∈ upstream_channel_ids (db quota_env)
                   /\ x ∉ persisted_channel_ids (db quota_env)).
Proof.
  split; [reflexivity|]. intros H.
  destruct (H ["UC1"] eq_refl "UC1") as [H1 _].
  destruct H1 as [_ H1]; [left|]. apply H1. left.
Qed.

(** ** Normalized records *)

Lemma rewrite_publishedAt_inv item i1 :
  rewrite_publishedAt item = Ok i1 ->
  exists m sm p,
    item = JObj m /\ m !! "snippet" = Some (JObj sm)
    /\ sm !! "publishedAt" = Some (JStr p)
    /\ i1 = JObj (<["snippet" := JObj (<["publishedAt" := JStr (normalize_publishedAt p)]> sm)]> m).
Proof.
  unfold rewrite_publishedAt.
  destruct item as [| | | | |m]; try discriminate. cbn [getitem rbind].
  destruct (m !! "snippet") as [snippet|] eqn:Hs; [|discriminate]. cbn [rbind].
  destruct snippet as [| | | | |sm]; try discriminate. cbn [getitem rbind].
  destruct (sm !! "publishedAt") as [p|] eqn:Hp; [|discriminate]. cbn [rbind].
  destruct p as [| | |p| |]; try discriminate. cbn [str_receiver setitem rbind].
  intros [= <-]. eauto 10.
Qed.

Lemma stamp_retrieved_at_stamped item now r :
  stamp_retrieved_at item now = Ok r ->
  getitem r "retrieved_at" = Ok (JStr (retrieved_at_of now)).
Proof.
  destruct item as [| | | | |m]; try discriminate. intros [= <-].
  cbn [getitem]. now rewrite lookup_insert_eq.
Qed.

Lemma stamped_by_stamped env r : clock_in_range env -> stamped_by env r -> stamped r.
Proof.
  intros Hclock [t Ht]. exists (retrieved_at_of (utcnow env t)).
  split; [exact Ht|apply retrieved_at_of_shape, Hclock].
Qed.

Lemma retrieved_at_ne_snippet : "retrieved_at" <> "snippet".
Proof. discriminate. Qed.

Lemma video_record_republished item i1 now r :
  rewrite_publishedAt item = Ok i1 ->
  stamp_retrieved_at i1 now = Ok r ->
  republished item r.
Proof.
  intros (m & sm & p & -> & Hs & Hp & ->)%rewrite_publishedAt_inv [= <-].
  exists (JObj sm), p, (JObj (<["publishedAt" := JStr (normalize_publishedAt p)]> sm)).
  cbn [getitem]. rewrite Hs, Hp.
  rewrite (lookup_insert_ne _ _ _ _ retrieved_at_ne_snippet).
  rewrite !lookup_insert_eq. auto.
Qed.

Lemma write_video_items_records env items written tr written' tr' :
  write_video_items env items written tr = (Ok written', tr') ->
  exists added,
    written' = written ++ added
    /\ Forall2 republished items added
    /\ Forall (stamped_by env) added.
Proof.
  revert written tr. induction items as [|item items IH]; intros written tr; simpl.
  - intros [<- _]%ret_inv. exists []. rewrite app_nil_r. auto.
  - intros (i1 & t1 & [H1 ->]%lift_inv & H)%bind_Ok_inv.
    apply bind_Ok_inv in H as (now & t2 & [-> ->]%datetime_utcnow_inv & H).
    apply bind_Ok_inv in H as (r & t3 & [H3 ->]%lift_inv & H).
    apply IH in H as (added & -> & Hrep & Hst).
    exists (r :: added). rewrite <- app_assoc. split; [reflexivity|].
    split; constructor; eauto using video_record_republished.
    eexists. eapply stamp_retrieved_at_stamped; eauto.
Qed.

Lemma write_channel_items_records env items written tr written' tr' :
  write_channel_items env items written tr = (Ok written', tr') ->
  exists added,
    written' = written ++ added
    /\ length added = length items
    /\ Forall (stamped_by env) added.
Proof.
  revert written tr. induction items as [|item items IH]; intros written tr; simpl.
  - intros [<- _]%ret_inv. exists []. rewrite app_nil_r. auto.
  - intros (now & t2 & [-> ->]%datetime_utcnow_inv & H)%bind_Ok_inv.
    apply bind_Ok_inv in H as (r & t3 & [H3 ->]%lift_inv & H).
    apply IH in H as (added & -> & Hlen & Hst).
    exists (r :: added). rewrite <- app_assoc. split; [reflexivity|].
    split; [simpl; now rewrite Hlen|].
    constructor; [|exact Hst]. eexists. eapply stamp_retrieved_at_stamped; eauto.
Qed.



(** ** Credential rotation *)

Section Rotation.

Variable env : environment.
Variable credentials : list credential.

Lemma quota_class_inv e :
  quota_class e = true -> exists s, e = HttpError s /\ Str.contains "403" s = true.
Proof. destruct e; try discriminate. eauto. Qed.

(** One refused call in the video flow, with a credential left: the client
    is rebuilt with the next key and the same request goes out again. *)
Lemma video_fetch_rotate_once fuel r k y tr e c' :
  execute env tr y r = inl e ->
  quota_class e = true ->
  credentials !! (k + 1) = Some c' ->
  fails env (Execute y r :: tr) (Build (developer_key c')) = None ->
  fetch env credentials (S fuel) (Ok credentials) r k y tr
  = fetch env credentials fuel (Ok credentials) r (k + 1) (developer_key c')
      (Build (developer_key c') :: Execute y r :: tr).
Proof.
  intros He (s & -> & Hs)%quota_class_inv Hc' Hb.
  assert (Hlt : k + 1 < length credentials) by (eapply lookup_lt_Some; eauto).
  destruct (list_getitem_lt credentials k) as (c & _ & Hc); [lia|].
  cbn [fetch]. unfold bind at 1, try_execute. rewrite He, Hs.
  unfold bind at 1, lift at 1. rewrite Hc.
  unfold bind at 1, lift at 1.
  destruct (Nat.leb_spec (length credentials) (k + 1)) as [?|_]; [lia|].
  unfold bind at 1, lift at 1, list_getitem. rewrite Hc'.
  unfold bind at 1, build, bind at 1, perform. rewrite Hb. reflexivity.
Qed.

(** The video flow: [rot] refusals in a row, then a credential that is
    served, give [rot] rotations and the response to the same request. *)
Lemma video_fetch_rotates rot : forall fuel r k y tr c resp,
  rot < fuel ->
  (forall i, i <= rot -> exists ci, credentials !! (k + i) = Some ci) ->
  credentials !! k = Some {| developer_key := y |} ->
  (forall i ci tr', i < rot -> credentials !! (k + i) = Some ci ->
     exists e, execute env tr' (developer_key ci) r = inl e /\ quota_class e = true) ->
  credentials !! (k + rot) = Some c ->
  (forall tr', execute env tr' (developer_key c) r = inr resp) ->
  (forall tr' key, fails env tr' (Build key) = None) ->
  exists new,
    fetch env credentials fuel (Ok credentials) r k y tr
    = (Ok (k + rot, developer_key c, resp), new ++ tr)
    /\ rotations new = rot /\ api_calls new = rot + 1.
Proof.
  induction rot as [|rot IH]; intros fuel r k y tr c resp Hfuel Hall Hk Hfail Hc Hok Hb.
  - destruct fuel as [|fuel]; [lia|].
    rewrite Nat.add_0_r in Hc. rewrite Hk in Hc. injection Hc as <-.
    cbn [developer_key] in *.
    exists [Execute y r]. cbn [fetch]. unfold bind, try_execute.
    rewrite (Hok tr). simpl. rewrite Nat.add_0_r. auto.
  - destruct fuel as [|fuel]; [lia|].
    destruct (Hfail 0 _ tr ltac:(lia) ltac:(rewrite Nat.add_0_r; exact Hk))
      as (e & He & Hq).
    destruct (Hall 1 ltac:(lia)) as [[y1] Hc1].
    erewrite video_fetch_rotate_once by eauto.
    destruct (IH fuel r (k + 1) y1
                (Build y1 :: Execute y r :: tr) c resp) as (new & Hrun & Hrot & Hcalls).
    + lia.
    + intros i Hi. destruct (Hall (S i) ltac:(lia)) as [ci Hci].
      exists ci. now replace (k + 1 + i) with (k + S i) by lia.
    + exact Hc1.
    + intros i ci tr' Hi Hci. apply (Hfail (S i)); [lia|].
      now replace (k + S i) with (k + 1 + i) by lia.
    + now replace (k + 1 + rot) with (k + S rot) by lia.
    + exact Hok.
    + exact Hb.
    + exists (new ++ [Build y1; Execute y r]).
      cbn [developer_key]. rewrite Hrun, <- app_assoc.
      replace (k + 1 + rot) with (k + S rot) by lia.
      split; [reflexivity|].
      rewrite rotations_app, api_calls_app, Hrot, Hcalls.
      unfold rotations, api_calls. simpl. lia.
Qed.

(** The video flow, refused with its last credential: the [HttpError] is
    raised again and nothing else is called. *)
Lemma video_fetch_last_refused fuel r k y tr e :
  length credentials = k + 1 ->
  execute env tr y r = inl e ->
  quota_class e = true ->
  fetch env credentials (S fuel) (Ok credentials) r k y tr = (Raise e, Execute y r :: tr).
Proof.
  intros Hlen He (s & -> & Hs)%quota_class_inv.
  destruct (list_getitem_lt credentials k) as (c & _ & Hc); [lia|].
  cbn [fetch]. unfold bind at 1, try_execute. rewrite He, Hs.
  unfold bind at 1, lift at 1. rewrite Hc.
  unfold bind at 1, lift at 1.
  destruct (Nat.leb_spec (length credentials) (k + 1)) as [_|?]; [reflexivity|lia].
Qed.

(** The video flow with every remaining credential refused: one call per
    credential, a rotation between two calls, then the last [HttpError]. *)
Lemma video_fetch_exhausts n : forall fuel r k y tr,
  n < fuel ->
  length credentials = k + S n ->
  credentials !! k = Some {| developer_key := y |} ->
  (forall i ci tr', i <= n -> credentials !! (k + i) = Some ci ->
     exists e, execute env tr' (developer_key ci) r = inl e /\ quota_class e = true) ->
  (forall tr' key, fails env tr' (Build key) = None) ->
  exists e new,
    fetch env credentials fuel (Ok credentials) r k y tr = (Raise e, new ++ tr)
    /\ quota_class e = true /\ api_calls new = S n /\ rotations new = n.
Proof.
  induction n as [|n IH]; intros fuel r k y tr Hfuel Hlen Hk Hfail Hb;
    (destruct fuel as [|fuel]; [lia|]);
    destruct (Hfail 0 _ tr ltac:(lia) ltac:(rewrite Nat.add_0_r; exact Hk))
      as (e & He & Hq); cbn [developer_key] in He.
  - exists e, [Execute y r].
    rewrite (video_fetch_last_refused fuel r k y tr e) by (auto; lia). auto.
  - destruct (lookup_lt_is_Some_2 credentials (k + 1) ltac:(lia)) as [[y1] Hc1].
    erewrite video_fetch_rotate_once by eauto.
    destruct (IH fuel r (k + 1) y1 (Build y1 :: Execute y r :: tr))
      as (e' & new & Hrun & Hq' & Hcalls & Hrot).
    + lia.
    + lia.
    + exact Hc1.
    + intros i ci tr' Hi Hci. apply (Hfail (S i)); [lia|].
      now replace (k + S i) with (k + 1 + i) by lia.
    + exact Hb.
    + exists e', (new ++ [Build y1; Execute y r]).
      cbn [developer_key]. rewrite Hrun, <- app_assoc.
      split; [reflexivity|]. split; [exact Hq'|].
      rewrite rotations_app, api_calls_app, Hrot, Hcalls.
      unfold rotations, api_calls. simpl. lia.
Qed.

(** One refused call in the channel flow: line 229 subscripts the list
    [self.credentials] with 'youtube' and the loop ends in a [TypeError]. *)
Lemma channel_fetch_refused fuel r k y tr e :
  k < length credentials ->
  execute env tr y r = inl e ->
  quota_class e = true ->
  fetch env credentials (S fuel) (list_getitem_str credentials "youtube") r k y tr
  = (Raise TypeError, Execute y r :: tr).
Proof.
  intros Hk He (s & -> & Hs)%quota_class_inv.
  destruct (list_getitem_lt credentials k Hk) as (c & _ & Hc).
  cbn [fetch]. unfold bind at 1, try_execute. rewrite He, Hs.
  unfold bind at 1, lift at 1. rewrite Hc. reflexivity.
Qed.

End Rotation.

(** C3 holds for the video flow ([video_fetch_rotates],
    [video_fetch_exhausts]) and not for the channel flow.  With two
    credentials, the first refused with a 403 and the second served, the
    video loop rotates once and returns the response; the channel loop, on
    the same answers, makes one call and ends in a [TypeError], and so does
    the whole channel run, before anything is uploaded. *)
Theorem channel_flow_never_rotates :
  fetch quota_env two_keys 2 (Ok two_keys) (videos_list "a") 0 "key1" []
  = (Ok (1, "key2", {| items := Some [sample_video "a"] |}),
     [Execute "key2" (videos_list "a"); Build "key2"; Execute "key1" (videos_list "a")])
  /\ fetch quota_env two_keys 2 (list_getitem_str two_keys "youtube")
       (channels_list "UC1") 0 "key1" []
     = (Raise TypeError, [Execute "key1" (channels_list "UC1")])
  /\ fst (collect_channel_stats quota_env two_keys "bucket" 2 []) = Raise TypeError
  /\ uploads (snd (collect_channel_stats quota_env two_keys "bucket" 2 [])) = [].
Proof. vm_compute. auto. Qed.

(** ** Runs in which nothing fails *)

Section Forward.

Variable env : environment.
Variable credentials : list credential.
Variable s3_data : string.

Hypothesis no_failure : forall tr ev, fails env tr ev = None.

Lemma perform_ok ev tr : perform env ev tr = (Ok tt, ev :: tr).
Proof. unfold perform. now rewrite no_failure. Qed.

Lemma video_step_one_entity fuel st i tr e e1 :
  execute env tr (youtube st) (videos_list i) = inr {| items := Some [e] |} ->
  rewrite_publishedAt e = Ok e1 ->
  exists r,
    republished e r /\ stamped_by env r
    /\ video_step env credentials (S fuel) st i tr
       = (Ok {| num := num st + 1; current_key := current_key st; youtube := youtube st;
                lines := lines st ++ [r] |},
          Utcnow :: Execute (youtube st) (videos_list i) :: tr).
Proof.
  intros He Hrw.
  destruct (rewrite_publishedAt_inv _ _ Hrw) as (m & sm & p & _ & _ & _ & He1).
  set (now := utcnow env (Execute (youtube st) (videos_list i) :: tr)).
  assert (Hst : exists r, stamp_retrieved_at e1 now = Ok r) by (subst e1; eexists; reflexivity).
  destruct Hst as [r Hr]. exists r.
  split; [eapply video_record_republished; eauto|].
  split; [exists (Execute (youtube st) (videos_list i) :: tr);
          eapply stamp_retrieved_at_stamped; eauto|].
  unfold video_step. cbn [fetch]. unfold bind at 1 2, try_execute. rewrite He.
  unfold ret at 1. change (get_items {| items := Some [e] |}) with [e].
  cbn [write_video_items].
  unfold bind, lift, datetime_utcnow, ret. rewrite Hrw. fold now. rewrite Hr. reflexivity.
Qed.

Lemma video_step_no_entity fuel st i tr resp :
  execute env tr (youtube st) (videos_list i) = inr resp ->
  get_items resp = [] ->
  video_step env credentials (S fuel) st i tr
  = (Ok {| num := num st + 1; current_key := current_key st; youtube := youtube st;
           lines := lines st |},
     Execute (youtube st) (videos_list i) :: tr).
Proof.
  intros He Hitems.
  unfold video_step. cbn [fetch]. unfold bind at 1 2, try_execute. rewrite He.
  unfold ret at 1. rewrite Hitems. reflexivity.
Qed.

(** Once the loop over the work set has succeeded, the video flow compresses,
    uploads and registers. *)
Lemma collect_video_snippets_completes fuel tr0 ids c st tr1 :
  video_work_set (db env) = Ok ids ->
  credentials !! 0 = Some c ->
  for_each (video_step env credentials fuel) ids (start_state (developer_key c))
    (Build (developer_key c)
     :: Query_athena_and_download
          (if table_in_catalog (db env) "youtube_video_snippet"
           then Plus SELECT_YOUTUBE_VIDEOS TABLE_YOUTUBE_VIDEO_SNIPPET_EXISTS
           else SELECT_YOUTUBE_VIDEOS)
     :: Query_athena_and_get_result
          (if table_in_catalog (db env) "youtube_video_snippet"
           then Plus SELECT_COUNT_YOUTUBE_VIDEOS TABLE_YOUTUBE_VIDEO_SNIPPET_EXISTS
           else SELECT_COUNT_YOUTUBE_VIDEOS)
     :: Table_exists "youtube_video_snippet" :: tr0) = (Ok st, tr1) ->
  collect_video_snippets env credentials s3_data fuel tr0
  = (Ok tt,
     Query_athena_and_wait (CREATE_VIDEO_SNIPPET_JSON s3_data)
     :: Upload_file s3_data
          (video_s3_filename (date_of (utcnow env (Compress (lines st) :: tr1))) (num st))
          (lines st)
     :: Utcnow :: Compress (lines st) :: tr1).
Proof.
  intros Hids Hc Hloop.
  pose proof (video_count_of_work_set _ _ Hids) as Hcount.
  unfold video_work_set in Hids. unfold video_count in Hcount.
  unfold collect_video_snippets, table_exists, query_athena_and_get_result,
    query_athena_and_download, compress, upload_file, query_athena_and_wait, build.
  unfold bind, lift, ret, datetime_utcnow, list_getitem.
  rewrite !perform_ok, Hcount, Hids, Hc, !perform_ok. unfold start_state in Hloop.
  rewrite Hloop, !perform_ok. reflexivity.
Qed.

End Forward.

(** C2, as the code has it.  Upstream yields a, b and c, youtube_video_snippet
    does not exist yet, there is one credential, the API returns one video
    for a and for b (each with a [snippet.publishedAt]) and none for c, and no
    collaborator fails.  Then the video flow succeeds, uploads once, a file of
    exactly the two normalized records, under the key whose count is 3 (the
    identifiers gone through), and sends the create-if-not-exists statement
    once, after the upload, as its only statement. *)
Theorem abc_scenario env c s3_data fuel ea eb :
  (forall tr ev, fails env tr ev = None) ->
  youtube_video_snippet (db env) = None ->
  upstream_video_ids (db env) = ["a"; "b"; "c"] ->
  (forall tr key, execute env tr key (videos_list "a") = inr {| items := Some [ea] |}) ->
  (forall tr key, execute env tr key (videos_list "b") = inr {| items := Some [eb] |}) ->
  (forall tr key, execute env tr key (videos_list "c") = inr {| items := Some [] |}) ->
  (exists ea1, rewrite_publishedAt ea = Ok ea1) ->
  (exists eb1, rewrite_publishedAt eb = Ok eb1) ->
  1 <= fuel ->
  exists now ra rb rest,
    collect_video_snippets env [c] s3_data fuel []
    = (Ok tt,
       Query_athena_and_wait (CREATE_VIDEO_SNIPPET_JSON s3_data)
       :: Upload_file s3_data (video_s3_filename (date_of now) 3) [ra; rb]
       :: rest)
    /\ republished ea ra /\ stamped_by env ra
    /\ republished eb rb /\ stamped_by env rb
    /\ (clock_in_range env -> stamped ra /\ stamped rb)
    /\ uploads rest = [] /\ waits rest = [].
Proof.
  intros Hnf Hnone Hup Ha Hb Hc [ea1 Hea] [eb1 Heb] Hfuel.
  destruct fuel as [|fuel]; [lia|].
  assert (Hids : video_work_set (db env) = Ok ["a"; "b"; "c"]).
  { unfold video_work_set. rewrite table_in_catalog_video, Hnone.
    cbn [is_some select_rows]. unfold youtube_video_ids.
    fold (upstream_video_ids (db env)). rewrite Hup. reflexivity. }
  set (tr1 := Build (developer_key c)
     :: Query_athena_and_download
          (if table_in_catalog (db env) "youtube_video_snippet"
           then Plus SELECT_YOUTUBE_VIDEOS TABLE_YOUTUBE_VIDEO_SNIPPET_EXISTS
           else SELECT_YOUTUBE_VIDEOS)
     :: Query_athena_and_get_result
          (if table_in_catalog (db env) "youtube_video_snippet"
           then Plus SELECT_COUNT_YOUTUBE_VIDEOS TABLE_YOUTUBE_VIDEO_SNIPPET_EXISTS
           else SELECT_COUNT_YOUTUBE_VIDEOS)
     :: [Table_exists "youtube_video_snippet"]).
  destruct (video_step_one_entity env [c] fuel (start_state (developer_key c)) "a" tr1
              ea ea1 (Ha _ _) Hea) as (ra & Hrepa & Hsta & Hstepa).
  cbn [start_state num current_key youtube lines app] in Hstepa.
  match type of Hstepa with _ = (Ok ?st, ?tr) => set (st2 := st) in *; set (tr2 := tr) in * end.
  destruct (video_step_one_entity env [c] fuel st2 "b" tr2 eb eb1 (Hb _ _) Heb)
    as (rb & Hrepb & Hstb & Hstepb).
  cbn [st2 num current_key youtube lines app] in Hstepb.
  match type of Hstepb with _ = (Ok ?st, ?tr) => set (st3 := st) in *; set (tr3 := tr) in * end.
  pose proof (video_step_no_entity env [c] fuel st3 "c" tr3 _ (Hc _ _) eq_refl) as Hstepc.
  cbn [st3 num current_key youtube lines] in Hstepc.
  match type of Hstepc with _ = (Ok ?st, ?tr) => set (st4 := st) in *; set (tr4 := tr) in * end.
  assert (Hloop : for_each (video_step env [c] (S fuel)) ["a"; "b"; "c"]
                    (start_state (developer_key c)) tr1 = (Ok st4, tr4)).
  { cbn [for_each]. erewrite bind_Ok by exact Hstepa.
    erewrite bind_Ok by exact Hstepb. erewrite bind_Ok by exact Hstepc. reflexivity. }
  eexists _, ra, rb, _. split.
  - erewrite (collect_video_snippets_completes env [c] s3_data Hnf (S fuel) []
                ["a"; "b"; "c"] c st4 tr4 Hids eq_refl Hloop).
    reflexivity.
  - do 4 (split; [assumption|]). split.
    + intros Hclock. split; now apply (stamped_by_stamped env).
    + split; reflexivity.
Qed.

Lemma abc_scenario_witness :
  exists now ra rb rest,
    collect_video_snippets abc_env one_key "bucket" 1 []
    = (Ok tt,
       Query_athena_and_wait (CREATE_VIDEO_SNIPPET_JSON "bucket")
       :: Upload_file "bucket" (video_s3_filename (date_of now) 3) [ra; rb]
       :: rest)
    /\ republished (sample_video "a") ra /\ stamped ra
    /\ republished (sample_video "b") rb /\ stamped rb
    /\ uploads rest = [] /\ waits rest = [].
Proof.
  destruct (abc_scenario abc_env {| developer_key := "key1" |} "bucket" 1
              (sample_video "a") (sample_video "b"))
    as (now & ra & rb & rest & Hrun & Hra & _ & Hrb & _ & Hst & Hu & Hw);
    try reflexivity.
  - eexists. vm_compute. reflexivity.
  - eexists. vm_compute. reflexivity.
  - destruct Hst as [Hsa Hsb]; [intros t; reflexivity|].
    exists now, ra, rb, rest. repeat split; assumption.
Defined.

Lemma upload_key_mismatch (b1 d1 : string) (n m1 : nat) b d n' m :
  n <> n' ->
  ~ In (b, video_s3_filename d n', m) [(b1, video_s3_filename d1 n, m1)].
Proof.
  intros Hn [H|[]].
  assert (K : video_s3_filename d1 n = video_s3_filename d n') by congruence.
  apply video_s3_filename_inj in K as [_ K]. contradiction.
Qed.

(** C2 fails as stated: in that scenario the count in the uploaded key is 3,
    not 2. *)
Lemma abc_key_count_is_not_two :
  youtube_video_snippet (db abc_env) = None
  /\ upstream_video_ids (db abc_env) = ["a"; "b"; "c"]
  /\ length one_key = 1
  /\ fst (collect_video_snippets abc_env one_key "bucket" 1 []) = Ok tt
  /\ ~ (exists b d m,
         In (b, video_s3_filename d 2, m)
           (uploads (snd (collect_video_snippets abc_env one_key "bucket" 1 [])))).
Proof.
  destruct abc_run_uploads as [Hr Hu]. cbv zeta in *.
  split; [reflexivity|]. split; [vm_compute; reflexivity|].
  split; [reflexivity|]. split; [exact Hr|].
  rewrite Hu. intros (b & d & m & H).
  revert H. apply upload_key_mismatch. discriminate.
Qed.

(** * Further properties of the code *)

(** ** Normalization of one entity *)

Lemma rstrip_length c s : String.length (Str.rstrip c s) <= String.length s.
Proof.
  induction s as [|a s IH]; [reflexivity|].
  rewrite rstrip_cons. destruct (Str.rstrip c s) as [|b r].
  - destruct (Ascii.eqb a c); simpl; lia.
  - simpl in *. lia.
Qed.

Lemma replace_length old new s :
  String.length (Str.replace old new s) = String.length s.
Proof. induction s as [|a s IH]; simpl; [reflexivity|now rewrite IH]. Qed.

Lemma append_length s t :
  String.length (s +:+ t) = String.length s + String.length t.
Proof. induction s as [|a s IH]; simpl; [reflexivity|now rewrite IH]. Qed.

Lemma rstrip_app_strip c s :
  Str.rstrip c (s +:+ String c EmptyString) = Str.rstrip c s.
Proof.
  induction s as [|a s IH].
  - simpl. now rewrite Ascii.eqb_refl.
  - change (String a s +:+ String c EmptyString)
      with (String a (s +:+ String c EmptyString)).
    rewrite !rstrip_cons, IH. reflexivity.
Qed.

Lemma replace_removes old new s :
  new <> old -> ~ In old (list_ascii_of_string (Str.replace old new s)).
Proof.
  intros Hne. induction s as [|a s IH]; simpl; [tauto|].
  intros [H|H]; [|contradiction].
  destruct (Ascii.eqb_spec a old); congruence.
Qed.

(** X13: whatever the string, the rewritten [publishedAt] holds no 'T', does
    not end in 'Z' and is not longer than the original. *)
Theorem normalize_publishedAt_clean (s : string) :
  ~ In "T"%char (list_ascii_of_string (normalize_publishedAt s))
  /\ (forall t, normalize_publishedAt s <> t +:+ "Z")
  /\ String.length (normalize_publishedAt s) <= String.length s.
Proof.
  unfold normalize_publishedAt. split; [|split].
  - apply replace_removes. discriminate.
  - intros t Ht.
    assert (Hst : Str.rstrip "Z" (Str.replace "T" " " (Str.rstrip "Z" s))
                  = Str.replace "T" " " (Str.rstrip "Z" s)).
    { apply rstrip_replace_stable; [discriminate|apply rstrip_idem]. }
    rewrite Ht in Hst. rewrite rstrip_app_strip in Hst.
    pose proof (rstrip_length "Z" t) as Hlen. rewrite Hst in Hlen.
    rewrite append_length in Hlen. simpl in Hlen. lia.
  - rewrite replace_length. apply rstrip_length.
Qed.

Lemma rewrite_publishedAt_resource item :
  snippet_resource item -> exists i1, rewrite_publishedAt item = Ok i1.
Proof.
  intros (m & sm & p & -> & Hs & Hp). unfold rewrite_publishedAt.
  cbn [getitem rbind]. rewrite Hs. cbn [getitem rbind]. rewrite Hp.
  cbn [rbind str_receiver setitem]. eauto.
Qed.

Lemma rewrite_publishedAt_error item :
  ~ snippet_resource item -> rewrite_publishedAt item = Raise (rewrite_error item).
Proof.
  intros Hno. unfold rewrite_publishedAt, rewrite_error.
  destruct item as [| | | | |m]; try reflexivity. cbn [getitem rbind].
  destruct (m !! "snippet") as [sn|] eqn:Hs; [|reflexivity]. cbn [rbind].
  destruct sn as [| | | | |sm]; try reflexivity. cbn [getitem rbind].
  destruct (sm !! "publishedAt") as [p|] eqn:Hp; [|reflexivity]. cbn [rbind].
  destruct p as [| | |p| |]; try reflexivity.
  destruct Hno. unfold snippet_resource. eauto 10.
Qed.

(** X10: line 175 succeeds exactly on an entity that is an object whose
    [snippet] is an object holding a string [publishedAt].  On any other
    entity it raises ([TypeError], [KeyError] or [AttributeError] as
    [rewrite_error] says), and in the video flow that exception ends the
    loop right after the API call that returned the entity: the clock is not
    read, nothing is written for the entity or those after it, and the
    remaining identifiers are not fetched. *)
Theorem malformed_video_aborts :
  (forall item, (exists i1, rewrite_publishedAt item = Ok i1) <-> snippet_resource item)
  /\ (forall env credentials fuel st i rest tr item more,
        execute env tr (youtube st) (videos_list i)
        = inr {| items := Some (item :: more) |} ->
        ~ snippet_resource item ->
        for_each (video_step env credentials (S fuel)) (i :: rest) st tr
        = (Raise (rewrite_error item), Execute (youtube st) (videos_list i) :: tr)).
Proof.
  split.
  - intros item. split.
    + intros [i1 H]. apply rewrite_publishedAt_inv in H as (m & sm & p & H). 
      exists m, sm, p. tauto.
    + apply rewrite_publishedAt_resource.
  - intros env credentials fuel st i rest tr item more He Hno.
    cbn [for_each]. unfold video_step.
    erewrite bind_Raise; [reflexivity|].
    cbn [fetch]. unfold bind at 1 2, try_execute. rewrite He. unfold ret at 1.
    change (get_items {| items := Some (item :: more) |}) with (item :: more).
    cbn [write_video_items]. unfold bind at 1 2, lift at 1.
    now rewrite (rewrite_publishedAt_error item Hno).
Qed.

Lemma bare_video_no_resource i : ~ snippet_resource (bare_video i).
Proof.
  intros (m & sm & p & [= <-] & Hs & _). vm_compute in Hs. discriminate.
Qed.

Lemma malformed_video_aborts_witness :
  for_each (video_step bare_env one_key 1) ["a"; "b"] (start_state "key1") []
  = (Raise (KeyError "snippet"), [Execute "key1" (videos_list "a")]).
Proof.
  apply (proj2 malformed_video_aborts bare_env one_key 0 (start_state "key1") "a" ["b"] []
           (bare_video "a") []); [reflexivity|apply bare_video_no_resource].
Defined.

Lemma getitem_insert_ne (m : gmap string json) k k' x :
  k <> k' -> getitem (JObj (<[k := x]> m)) k' = getitem (JObj m) k'.
Proof. intros Hne. cbn [getitem]. now rewrite lookup_insert_ne. Qed.

(** X9: normalization touches two fields only.  In a record of the video
    flow every top-level field other than [snippet] and [retrieved_at] is
    that of the entity, and so is every field of [snippet] other than
    [publishedAt]; in a record of the channel flow every top-level field
    other than [retrieved_at] is that of the entity.  Stamping succeeds
    exactly on entities that are objects, and replaces a [retrieved_at] the
    entity may carry. *)
Theorem normalization_touches_two_fields :
  (forall item i1 now r,
      rewrite_publishedAt item = Ok i1 ->
      stamp_retrieved_at i1 now = Ok r ->
      (forall k, k <> "snippet" -> k <> "retrieved_at" -> getitem r k = getitem item k)
      /\ exists sn sn',
           getitem item "snippet" = Ok sn /\ getitem r "snippet" = Ok sn'
           /\ forall k, k <> "publishedAt" -> getitem sn' k = getitem sn k)
  /\ (forall item now r,
        stamp_retrieved_at item now = Ok r ->
        getitem r "retrieved_at" = Ok (JStr (retrieved_at_of now))
        /\ forall k, k <> "retrieved_at" -> getitem r k = getitem item k)
  /\ (forall item now,
        (exists r, stamp_retrieved_at item now = Ok r) <-> is_object item = true).
Proof.
  split; [|split].
  - intros item i1 now r (m & sm & p & -> & Hs & Hp & ->)%rewrite_publishedAt_inv [= <-].
    split.
    + intros k Hk1 Hk2. rewrite !getitem_insert_ne by congruence. reflexivity.
    + exists (JObj sm), (JObj (<["publishedAt" := JStr (normalize_publishedAt p)]> sm)).
      split; [cbn [getitem]; now rewrite Hs|].
      split.
      * rewrite getitem_insert_ne by exact retrieved_at_ne_snippet.
        cbn [getitem]. now rewrite lookup_insert_eq.
      * intros k Hk. apply getitem_insert_ne. congruence.
  - intros item now r. destruct item as [| | | | |m]; try discriminate.
    intros [= <-]. split.
    + cbn [getitem]. now rewrite lookup_insert_eq.
    + intros k Hk. apply getitem_insert_ne. congruence.
  - intros item now. destruct item; cbn [stamp_retrieved_at setitem is_object]; split;
      try discriminate; try (intros [r H]; discriminate); eauto.
Qed.

Lemma normalization_touches_two_fields_witness :
  getitem (JObj (<["retrieved_at" := JStr (retrieved_at_of sample_now)]> ∅)) "retrieved_at"
  = Ok (JStr (retrieved_at_of sample_now))
  /\ forall k, k <> "retrieved_at" ->
       getitem (JObj (<["retrieved_at" := JStr (retrieved_at_of sample_now)]> ∅)) k
       = getitem (JObj ∅) k.
Proof.
  apply (proj1 (proj2 normalization_touches_two_fields) (JObj ∅) sample_now). reflexivity.
Defined.

(** ** Timestamps *)

Lemma string_app_assoc (a b c : string) : a +:+ (b +:+ c) = (a +:+ b) +:+ c.
Proof.
  induction a as [|x a IH]; [reflexivity|].
  change (String x (a +:+ (b +:+ c)) = String x ((a +:+ b) +:+ c)). now rewrite IH.
Qed.

Lemma drop_last_app k p s :
  k <= String.length s -> Str.drop_last k (p +:+ s) = p +:+ Str.drop_last k s.
Proof.
  intros Hk. unfold Str.drop_last. induction p as [|x p IH]; [reflexivity|].
  change (String x p +:+ s) with (String x (p +:+ s)).
  change (String.length (String x (p +:+ s))) with (S (String.length (p +:+ s))).
  pose proof (append_length p s) as Hl.
  replace (S (String.length (p +:+ s)) - k) with (S (String.length (p +:+ s) - k)) by lia.
  change (String x (String.substring 0 (String.length (p +:+ s) - k) (p +:+ s))
          = String x (p +:+ String.substring 0 (String.length s - k) s)).
  now rewrite IH.
Qed.

(** X11: [retrieved_at] is the clock reading's date, a space, its time, a
    dot and its microseconds divided by 1000 on three digits: the slice
    [[:-3]] truncates to milliseconds, it does not round. *)
Theorem retrieved_at_truncates now :
  retrieved_at_of now
  = date_of now +:+ " " +:+ strftime now "%H:%M:%S" +:+ "."
      +:+ digits 3 (microsecond now / 1000).
Proof.
  assert (H : microsecond now / 1000 = microsecond now / 10 / 10 / 10).
  { rewrite !Nat.Div0.div_div. reflexivity. }
  rewrite H, retrieved_at_of_unfold, date_of_unfold.
  generalize (Str.of_nat (year now)). intros p.
  rewrite drop_last_app.
  - rewrite <- string_app_assoc. f_equal.
  - cbv -[digit Nat.div Nat.modulo Nat.le]. lia.
Qed.

Example retrieved_at_does_not_round :
  retrieved_at_of {| year := 2021; month := 12; day := 31; hour := 23; minute := 59;
                     second := 59; microsecond := 999999 |}
  = "2021-12-31 23:59:59.999".
Proof. reflexivity. Qed.

(** ** Where the files land *)

(** X12: a successful run puts its file where the table it then registers
    reads.  The video flow uploads directly under the LOCATION of
    youtube_video_snippet; the channel flow uploads under the LOCATION of
    youtube_channel_stats, in the directory [creation_date=<date>] of the
    column the table is partitioned by. *)
Theorem files_land_in_table_location env credentials s3_data fuel tr0 :
  (forall tr,
      collect_video_snippets env credentials s3_data fuel tr0 = (Ok tt, tr) ->
      exists q key written rest loc now n,
        tr = Query_athena_and_wait q :: Upload_file s3_data key written :: rest
        /\ table_location q = Some loc /\ partitioned_by q = []
        /\ s3_url s3_data key = loc +:+ date_of now +:+ "-" +:+ Str.of_nat n +:+ ".json.bz2")
  /\ (forall tr,
      collect_channel_stats env credentials s3_data fuel tr0 = (Ok tt, tr) ->
      exists q key written rest loc now n,
        tr = Query_athena_and_wait (MSCK_REPAIR_TABLE "youtube_channel_stats")
             :: Query_athena_and_wait q
             :: Query_athena_and_wait (DROP_TABLE_IF_EXISTS "youtube_channel_stats")
             :: Upload_file s3_data key written :: rest
        /\ table_location q = Some loc /\ partitioned_by q = ["creation_date"]
        /\ s3_url s3_data key
           = loc +:+ "creation_date" +:+ "=" +:+ date_of now +:+ "/"
               +:+ Str.of_nat n +:+ ".json.bz2").
Proof.
  assert (Happ : forall a b c : string, (a +:+ b) +:+ c = a +:+ b +:+ c).
  { intros a b c. induction a as [|x a IH]; [reflexivity|].
    change (String x ((a +:+ b) +:+ c) = String x (a +:+ b +:+ c)). now rewrite IH. }
  split; intros tr H.
  - apply collect_video_snippets_Ok in H
      as (ids & c & st & fetched & prologue & _ & _ & _ & _ & _ & _ & ->).
    eexists (CREATE_VIDEO_SNIPPET_JSON s3_data), _, _, _, _, _, _.
    split; [reflexivity|]. split; [reflexivity|]. split; [reflexivity|].
    unfold s3_url. rewrite video_s3_filename_eq.
    change ("s3://" +:+ s3_data +:+ "/youtube_video_snippet/")
      with ("s3://" +:+ s3_data +:+ "/" +:+ "youtube_video_snippet/").
    rewrite !Happ. reflexivity.
  - apply collect_channel_stats_Ok in H
      as (ids & c & st & fetched & prologue & _ & _ & _ & _ & _ & _ & ->).
    eexists (CREATE_CHANNEL_STATS_JSON s3_data), _, _, _, _, _, _.
    split; [reflexivity|]. split; [reflexivity|]. split; [reflexivity|].
    unfold s3_url. rewrite channel_s3_filename_eq.
    change ("s3://" +:+ s3_data +:+ "/youtube_channel_stats/")
      with ("s3://" +:+ s3_data +:+ "/" +:+ "youtube_channel_stats/").
    rewrite !Happ. reflexivity.
Qed.

Lemma files_land_in_table_location_witness :
  exists q key written rest loc now n,
    snd (collect_video_snippets abc_env one_key "bucket" 1 [])
    = Query_athena_and_wait q :: Upload_file "bucket" key written :: rest
    /\ table_location q = Some loc /\ partitioned_by q = []
    /\ s3_url "bucket" key = loc +:+ date_of now +:+ "-" +:+ Str.of_nat n +:+ ".json.bz2".
Proof.
  apply (proj1 (files_land_in_table_location abc_env one_key "bucket" 1 [])).
  vm_compute. reflexivity.
Defined.

(** ** Empty inputs *)

Lemma video_work_set_ok d : exists ids, video_work_set d = Ok ids.
Proof.
  unfold video_work_set. rewrite table_in_catalog_video.
  destruct (youtube_video_snippet d) as [t|] eqn:Ht; cbn [is_some select_rows];
    unfold youtube_video_ids; rewrite ?Ht; cbn [rbind]; eauto.
Qed.

(** X5: with an empty work set and no collaborator failing, the video flow
    calls the API not at all and still compresses and uploads an empty file,
    under the key of count 0 for the date the clock reads just before the
    upload, and registers the table. *)
Theorem empty_work_set_uploads_empty_file env credentials s3_data fuel tr0 c :
  (forall tr ev, fails env tr ev = None) ->
  video_work_set (db env) = Ok [] ->
  credentials !! 0 = Some c ->
  exists prologue,
    collect_video_snippets env credentials s3_data fuel tr0
    = (Ok tt,
       Query_athena_and_wait (CREATE_VIDEO_SNIPPET_JSON s3_data)
       :: Upload_file s3_data
            (video_s3_filename
               (date_of (utcnow env (Compress [] :: prologue ++ tr0))) 0) []
       :: Utcnow :: Compress [] :: prologue ++ tr0)
    /\ Forall prologue_op prologue
    /\ api_calls prologue = 0.
Proof.
  intros Hnf Hids Hc.
  eexists [_; _; _; _]. split.
  - apply (collect_video_snippets_completes env credentials s3_data Hnf fuel tr0
             [] c (start_state (developer_key c)) _ Hids Hc). reflexivity.
  - split; [repeat constructor|reflexivity].
Qed.

Lemma empty_work_set_uploads_empty_file_witness :
  exists prologue,
    collect_video_snippets quota_env one_key "bucket" 0 []
    = (Ok tt,
       Query_athena_and_wait (CREATE_VIDEO_SNIPPET_JSON "bucket")
       :: Upload_file "bucket"
            (video_s3_filename
               (date_of (utcnow quota_env (Compress [] :: prologue ++ []))) 0) []
       :: Utcnow :: Compress [] :: prologue ++ [])
    /\ Forall prologue_op prologue
    /\ api_calls prologue = 0.
Proof.
  apply (empty_work_set_uploads_empty_file quota_env one_key "bucket" 0 []
           {| developer_key := "key1" |}); reflexivity.
Defined.

(** X6: with an empty credential list both flows raise before any client is
    built or any API call is made, after having sent their queries to
    Athena; when no collaborator fails (and, for the channel flow,
    youtube_video_snippet exists) the exception is the [IndexError] of
    [self.credentials[0]]. *)
Theorem no_credentials_index_error env s3_data fuel tr0 :
  (exists e new,
      collect_video_snippets env [] s3_data fuel tr0 = (Raise e, new ++ tr0)
      /\ Forall query_op new
      /\ ((forall tr ev, fails env tr ev = None) -> e = IndexError))
  /\ (exists e new,
        collect_channel_stats env [] s3_data fuel tr0 = (Raise e, new ++ tr0)
        /\ Forall query_op new
        /\ ((forall tr ev, fails env tr ev = None) ->
            youtube_video_snippet (db env) <> None -> e = IndexError)).
Proof.
  split.
  - destruct (video_work_set_ok (db env)) as [ids Hids].
    pose proof (video_count_of_work_set _ _ Hids) as Hcount.
    unfold video_work_set in Hids. unfold video_count in Hcount.
    unfold collect_video_snippets, table_exists, query_athena_and_get_result,
      query_athena_and_download.
    unfold bind, perform, lift, ret.
    destruct (fails env tr0 _) as [e1|] eqn:H1.
    { exists e1; eexists [_]. split; [reflexivity|]. split; [repeat constructor|].
      intros Hnf. rewrite Hnf in H1. discriminate. }
    rewrite Hcount.
    destruct (fails env (_ :: tr0) (Query_athena_and_get_result _)) as [e2|] eqn:H2.
    { exists e2; eexists [_; _]. split; [reflexivity|]. split; [repeat constructor|].
      intros Hnf. rewrite Hnf in H2. discriminate. }
    rewrite Hids.
    destruct (fails env (_ :: _ :: tr0) (Query_athena_and_download _)) as [e3|] eqn:H3.
    { exists e3; eexists [_; _; _]. split; [reflexivity|]. split; [repeat constructor|].
      intros Hnf. rewrite Hnf in H3. discriminate. }
    exists IndexError; eexists [_; _; _]. split; [reflexivity|]. split; [repeat constructor|auto].
  - unfold collect_channel_stats, query_athena_and_get_result, query_athena_and_download.
    unfold bind, perform, lift, ret.
    destruct (fails env tr0 _) as [e1|] eqn:H1.
    { exists e1; eexists [_]. split; [reflexivity|]. split; [repeat constructor|].
      intros Hnf. rewrite Hnf in H1. discriminate. }
    cbn [select_rows select_count]. unfold channel_ids.
    destruct (youtube_video_snippet (db env)) as [t|] eqn:Ht; cbn [rbind].
    2:{ exists QueryError; eexists [_]. split; [reflexivity|]. split; [repeat constructor|].
        intros _ Hne. now destruct Hne. }
    destruct (fails env (_ :: tr0) (Query_athena_and_get_result _)) as [e2|] eqn:H2.
    { exists e2; eexists [_; _]. split; [reflexivity|]. split; [repeat constructor|].
      intros Hnf. rewrite Hnf in H2. discriminate. }
    exists IndexError; eexists [_; _]. split; [reflexivity|]. split; [repeat constructor|auto].
Qed.

Lemma no_credentials_index_error_witness :
  exists new,
    collect_video_snippets abc_env [] "bucket" 0 [] = (Raise IndexError, new ++ [])
    /\ Forall query_op new.
Proof.
  destruct (no_credentials_index_error abc_env "bucket" 0 [])
    as [(e & new & H & Hq & He) _].
  exists new. rewrite <- (He (fun _ _ => eq_refl)). auto.
Defined.

(** ** A logic of triples *)

Section Triples.

Variable env : environment.

Context {A B : Type}.

Lemma hoare_conseq (P P' : list event -> Prop) (m : M A) (Q Q' : A -> list event -> Prop)
    (E E' : list event -> Prop) :
  hoare P' m Q' E' ->
  (forall tr, P tr -> P' tr) ->
  (forall a tr, Q' a tr -> Q a tr) ->
  (forall tr, E' tr -> E tr) ->
  hoare P m Q E.
Proof.
  intros Hm HP HQ HE tr out tr' Hp Hrun.
  specialize (Hm tr out tr' (HP _ Hp) Hrun). destruct out; auto.
Qed.

Lemma hoare_assume (C : Prop) P (m : M A) Q E :
  (C -> hoare P m Q E) -> hoare (fun tr => C /\ P tr) m Q E.
Proof. intros H tr out tr' [Hc Hp]. now apply H. Qed.

Lemma hoare_assume_r (C : Prop) P (m : M A) Q E :
  (C -> hoare P m Q E) -> hoare (fun tr => P tr /\ C) m Q E.
Proof. intros H tr out tr' [Hp Hc]. now apply H. Qed.

Lemma hoare_ret P (a : A) (Q : A -> list event -> Prop) E :
  (forall tr, P tr -> Q a tr) -> hoare P (ret a) Q E.
Proof. intros H tr out tr' Hp [= <- <-]. auto. Qed.

Lemma hoare_raise P e (Q : A -> list event -> Prop) (E : list event -> Prop) :
  (forall tr, P tr -> E tr) -> hoare P (raise e) Q E.
Proof. intros H tr out tr' Hp [= <- <-]. auto. Qed.

Lemma hoare_out_of_fuel P (Q : A -> list event -> Prop) (E : list event -> Prop) :
  (forall tr, P tr -> E tr) -> hoare P out_of_fuel Q E.
Proof. intros H tr out tr' Hp [= <- <-]. auto. Qed.

Lemma hoare_lift P (r : result A) (E : list event -> Prop) :
  (forall tr, P tr -> E tr) ->
  hoare P (lift r) (fun a tr => P tr /\ r = Ok a) E.
Proof. intros H tr out tr' Hp [= <- <-]. destruct r; auto. Qed.

Lemma hoare_bind P (m : M A) (f : A -> M B) Q R E :
  hoare P m Q E -> (forall a, hoare (Q a) (f a) R E) -> hoare P (bind m f) R E.
Proof.
  intros Hm Hf tr out tr' Hp. unfold bind.
  destruct (m tr) as [[a|e|] tr1] eqn:Hrun; specialize (Hm _ _ _ Hp Hrun).
  - intros H. exact (Hf a tr1 out tr' Hm H).
  - now intros [= <- <-].
  - now intros [= <- <-].
Qed.

Lemma hoare_perform P ev (Q : unit -> list event -> Prop) (E : list event -> Prop) :
  (forall tr, P tr -> fails env tr ev = None -> Q tt (ev :: tr)) ->
  (forall tr e, P tr -> fails env tr ev = Some e -> E (ev :: tr)) ->
  hoare P (perform env ev) Q E.
Proof.
  intros HQ HE tr out tr' Hp. unfold perform.
  destruct (fails env tr ev) eqn:Hf; intros [= <- <-]; eauto.
Qed.

End Triples.

Lemma hoare_try_execute env P y r (Q : exn + response -> list event -> Prop) E :
  (forall tr, P tr -> Q (execute env tr y r) (Execute y r :: tr)) ->
  hoare P (try_execute env y r) Q E.
Proof. intros H tr out tr' Hp [= <- <-]. auto. Qed.

Lemma hoare_datetime_utcnow env P (Q : datetime -> list event -> Prop) E :
  (forall tr, P tr -> Q (utcnow env tr) (Utcnow :: tr)) ->
  hoare P (datetime_utcnow env) Q E.
Proof. intros H tr out tr' Hp [= <- <-]. auto. Qed.

Lemma hoare_build env P key (Q : string -> list event -> Prop) (E : list event -> Prop) :
  (forall tr, P tr -> Q key (Build key :: tr)) ->
  (forall tr, P tr -> E (Build key :: tr)) ->
  hoare P (build env key) Q E.
Proof.
  intros HQ HE. unfold build.
  eapply hoare_bind; [apply hoare_perform with (Q := fun _ tr => Q key tr)|]; eauto.
  intros u. now apply hoare_ret.
Qed.

Lemma hoare_table_exists env P table (Q : bool -> list event -> Prop) (E : list event -> Prop) :
  (forall tr, P tr -> Q (table_in_catalog (db env) table) (Table_exists table :: tr)) ->
  (forall tr, P tr -> E (Table_exists table :: tr)) ->
  hoare P (table_exists env table) Q E.
Proof.
  intros HQ HE tr out tr' Hp. unfold table_exists, bind, perform, ret.
  destruct (fails env tr _); intros [= <- <-]; eauto.
Qed.

Lemma hoare_query_athena_and_get_result env P q (Q : nat -> list event -> Prop)
    (E : list event -> Prop) :
  (forall tr n, P tr -> select_count (db env) q = Ok n ->
                Q n (Query_athena_and_get_result q :: tr)) ->
  (forall tr, P tr -> E (Query_athena_and_get_result q :: tr)) ->
  hoare P (query_athena_and_get_result env q) Q E.
Proof.
  intros HQ HE tr out tr' Hp. unfold query_athena_and_get_result, bind, perform, lift.
  destruct (fails env tr _); [intros [= <- <-]; eauto|].
  destruct (select_count (db env) q) eqn:Hs; intros [= <- <-]; eauto.
Qed.

Lemma hoare_query_athena_and_download env P q (Q : list string -> list event -> Prop)
    (E : list event -> Prop) :
  (forall tr ids, P tr -> select_rows (db env) q = Ok ids ->
                  Q ids (Query_athena_and_download q :: tr)) ->
  (forall tr, P tr -> E (Query_athena_and_download q :: tr)) ->
  hoare P (query_athena_and_download env q) Q E.
Proof.
  intros HQ HE tr out tr' Hp. unfold query_athena_and_download, bind, perform, lift.
  destruct (fails env tr _); [intros [= <- <-]; eauto|].
  destruct (select_rows (db env) q) eqn:Hs; intros [= <- <-]; eauto.
Qed.

Lemma hoare_compress env P written (Q : list json -> list event -> Prop)
    (E : list event -> Prop) :
  (forall tr, P tr -> Q written (Compress written :: tr)) ->
  (forall tr, P tr -> E (Compress written :: tr)) ->
  hoare P (compress env written) Q E.
Proof.
  intros HQ HE tr out tr' Hp. unfold compress, bind, perform, ret.
  destruct (fails env tr _); intros [= <- <-]; eauto.
Qed.

(** Writing the entities of a response keeps whatever a clock read keeps. *)
Lemma hoare_write_video_items env (P E : list event -> Prop) items :
  (forall tr, P tr -> P (Utcnow :: tr)) ->
  (forall tr, P tr -> E tr) ->
  forall written, hoare P (write_video_items env items written) (fun _ tr => P tr) E.
Proof.
  intros Hclock HE.
  induction items as [|item items IH]; intros written; cbn [write_video_items].
  { now apply hoare_ret. }
  eapply hoare_bind; [apply hoare_lift; eauto|]. intros i1.
  eapply hoare_bind.
  { apply hoare_datetime_utcnow with (Q := fun _ tr => P tr).
    intros tr [H _]. now apply Hclock. }
  intros now. eapply hoare_bind; [apply hoare_lift; eauto|]. intros i2.
  eapply hoare_conseq; [apply IH| | |]; auto. now intros tr [H _].
Qed.

Lemma hoare_write_channel_items env (P E : list event -> Prop) items :
  (forall tr, P tr -> P (Utcnow :: tr)) ->
  (forall tr, P tr -> E tr) ->
  forall written, hoare P (write_channel_items env items written) (fun _ tr => P tr) E.
Proof.
  intros Hclock HE.
  induction items as [|item items IH]; intros written; cbn [write_channel_items].
  { now apply hoare_ret. }
  eapply hoare_bind.
  { apply hoare_datetime_utcnow with (Q := fun _ tr => P tr). exact Hclock. }
  intros now. eapply hoare_bind; [apply hoare_lift; eauto|]. intros i2.
  eapply hoare_conseq; [apply IH| | |]; auto. now intros tr [H _].
Qed.

(** ** Credentials of the video flow *)

Section BuiltInOrder.

Variable env : environment.
Variable credentials : list credential.
Variable tr0 : list event.

Abbreviation I := (built_in_order credentials tr0).
Abbreviation EI := (fun tr => exists j n, built_in_order credentials tr0 j n tr).

Lemma built_quiet j n tr ev :
  I j n tr -> is_build ev = false -> is_execute ev = false -> I j n (ev :: tr).
Proof.
  intros (new & -> & Hb & Hn & Hj) H1 H2. exists (ev :: new).
  split; [reflexivity|]. unfold api_calls. cbn [builds omap List.filter].
  rewrite H2. destruct ev; try discriminate; auto.
Qed.

Lemma built_execute j n tr y r : I j n tr -> I j (S n) (Execute y r :: tr).
Proof.
  intros (new & -> & Hb & Hn & Hj). exists (Execute y r :: new).
  split; [reflexivity|]. split; [exact Hb|]. split; [|exact Hj].
  unfold api_calls in *. simpl. now rewrite Hn.
Qed.

Lemma built_build j n tr c :
  I j n tr -> credentials !! j = Some c -> I (S j) n (Build (developer_key c) :: tr).
Proof.
  intros (new & -> & Hb & Hn & Hj) Hc. exists (Build (developer_key c) :: new).
  split; [reflexivity|]. split; [|split; [exact Hn|]].
  - change (builds (Build (developer_key c) :: new))
      with (developer_key c :: builds new).
    cbn [rev]. rewrite Hb, (take_S_r _ _ _ Hc), fmap_app. reflexivity.
  - apply lookup_lt_Some in Hc. lia.
Qed.

Lemma hoare_fetch_video fuel r : forall k y n,
  hoare (I (S k) n) (fetch env credentials fuel (Ok credentials) r k y)
    (fun '(k', _, _) tr => k <= k' /\ I (S k') (n + S (k' - k)) tr) EI.
Proof.
  induction fuel as [|fuel IH]; intros k y n; cbn [fetch].
  { apply hoare_out_of_fuel. eauto. }
  eapply hoare_bind.
  { apply hoare_try_execute with (Q := fun _ tr => I (S k) (S n) tr).
    intros tr. apply built_execute. }
  intros [e|resp].
  2:{ apply hoare_ret. intros tr H. split; [lia|].
      replace (n + S (k - k)) with (S n) by lia. exact H. }
  destruct e; try (apply hoare_raise; eauto).
  destruct (Str.contains "403" str_e); [|apply hoare_raise; eauto].
  eapply hoare_bind; [apply hoare_lift; eauto|]. intros c0.
  eapply hoare_bind; [apply hoare_lift; intros tr [H _]; eauto|]. intros l.
  destruct (length l <=? k + 1); [apply hoare_raise; intros tr [[H _] _]; eauto|].
  eapply hoare_bind; [apply hoare_lift; intros tr [[H _] _]; eauto|]. intros c'.
  eapply hoare_bind.
  { apply hoare_build with (Q := fun _ tr => I (S (S k)) (S n) tr).
    - intros tr [[[H _] _] Hc']. apply list_getitem_Ok in Hc' as [Hc' _].
      rewrite Nat.add_1_r in Hc'. now apply built_build.
    - intros tr [[[H _] _] Hc']. apply list_getitem_Ok in Hc' as [Hc' _].
      rewrite Nat.add_1_r in Hc'. exists (S (S k)), (S n). now apply built_build. }
  intros y'. rewrite Nat.add_1_r.
  eapply hoare_conseq; [apply (IH (S k) y' (S n))|auto| |auto].
  intros [[k' y''] resp] tr [Hk H]. split; [lia|].
  replace (n + S (k' - k)) with (S n + S (k' - S k)) by lia. exact H.
Qed.

Lemma hoare_video_step fuel st i n :
  hoare (I (S (current_key st)) n) (video_step env credentials fuel st i)
    (fun st' tr =>
       current_key st <= current_key st'
       /\ I (S (current_key st')) (n + S (current_key st' - current_key st)) tr) EI.
Proof.
  unfold video_step.
  eapply hoare_bind; [apply hoare_fetch_video|]. intros [[k' y'] resp].
  eapply hoare_bind.
  { apply hoare_write_video_items.
    - intros tr [Hk H]. split; [exact Hk|]. now apply built_quiet.
    - intros tr [_ H]. eauto. }
  intros written. apply hoare_ret. intros tr H. exact H.
Qed.

Lemma hoare_for_each_video fuel ids : forall st n,
  hoare (I (S (current_key st)) n) (for_each (video_step env credentials fuel) ids st)
    (fun st' tr =>
       current_key st <= current_key st'
       /\ I (S (current_key st')) (n + length ids + (current_key st' - current_key st)) tr)
    EI.
Proof.
  induction ids as [|i ids IH]; intros st n; cbn [for_each].
  { apply hoare_ret. intros tr H. split; [lia|].
    replace (n + length (@nil string) + (current_key st - current_key st)) with n
      by (simpl; lia).
    exact H. }
  eapply hoare_bind; [apply hoare_video_step|]. intros st1.
  apply hoare_assume. intros Hk1.
  eapply hoare_conseq;
    [apply (IH st1 (n + S (current_key st1 - current_key st)))|auto| |auto].
  intros st' tr [Hk' H]. split; [lia|].
  replace (n + length (i :: ids) + (current_key st' - current_key st))
    with (n + S (current_key st1 - current_key st) + length ids
          + (current_key st' - current_key st1)) by (simpl; lia).
  exact H.
Qed.

Lemma hoare_collect_video_snippets s3_data fuel :
  hoare (fun tr => tr = tr0) (collect_video_snippets env credentials s3_data fuel)
    (fun _ tr =>
       exists j, 1 <= j /\ forall ids, video_work_set (db env) = Ok ids ->
                                    I j (length ids + (j - 1)) tr)
    EI.
Proof.
  assert (H0 : forall tr, tr = tr0 -> I 0 0 tr).
  { intros tr ->. exists []. repeat split. simpl. lia. }
  assert (Hq : forall j n tr ev, I j n tr -> is_build ev = false -> is_execute ev = false ->
                                 EI (ev :: tr)).
  { intros j n tr ev H H1 H2. exists j, n. now apply built_quiet. }
  unfold collect_video_snippets, upload_file, query_athena_and_wait.
  eapply hoare_bind.
  { apply hoare_table_exists
      with (Q := fun ex tr => ex = table_in_catalog (db env) "youtube_video_snippet"
                              /\ I 0 0 tr).
    - intros tr Htr. split; [reflexivity|]. apply built_quiet; auto.
    - intros tr Htr. eapply Hq; eauto. }
  intros ex. apply hoare_assume. intros ->. eapply hoare_bind.
  { apply hoare_query_athena_and_get_result with (Q := fun _ tr => I 0 0 tr).
    - intros tr n Htr _. apply built_quiet; auto.
    - intros tr Htr. eapply Hq; eauto. }
  intros cnt. eapply hoare_bind.
  { apply hoare_query_athena_and_download
      with (Q := fun ids tr => video_work_set (db env) = Ok ids /\ I 0 0 tr).
    - intros tr ids Htr Hids. split; [exact Hids|]. apply built_quiet; auto.
    - intros tr Htr. eapply Hq; eauto. }
  intros ids. apply hoare_assume. intros Hids.
  eapply hoare_bind; [apply hoare_lift; eauto|].
  intros c. eapply hoare_bind.
  { apply hoare_build with (Q := fun _ tr => I 1 0 tr).
    - intros tr [H Hc]. apply list_getitem_Ok in Hc as [Hc _]. now apply built_build.
    - intros tr [H Hc]. exists 1, 0.
      apply list_getitem_Ok in Hc as [Hc _]. now apply built_build. }
  intros y. eapply hoare_bind.
  { apply (hoare_for_each_video fuel ids
             {| num := 0; current_key := 0; youtube := y; lines := [] |} 0). }
  intros st. cbn [current_key]. apply hoare_assume. intros _.
  set (P := fun tr : list event =>
              I (S (current_key st)) (length ids + current_key st) tr).
  eapply hoare_conseq with (P' := P) (E' := EI);
    [|intros tr H; unfold P;
      replace (length ids + current_key st)
        with (0 + length ids + (current_key st - 0)) by lia; exact H
     |intros a tr H; exact H|auto].
  eapply hoare_bind.
  { apply hoare_compress with (Q := fun _ tr => P tr).
    - intros tr H. apply built_quiet; auto.
    - intros tr H. eapply Hq; eauto. }
  intros cf. eapply hoare_bind.
  { apply hoare_datetime_utcnow with (Q := fun _ tr => P tr).
    intros tr H. apply built_quiet; auto. }
  intros now. eapply hoare_bind.
  { apply hoare_perform with (Q := fun _ tr => P tr).
    - intros tr H _. apply built_quiet; auto.
    - intros tr e H _. eapply Hq; eauto. }
  intros u. apply hoare_perform.
  - intros tr H _. exists (S (current_key st)). split; [lia|].
    intros ids' Hids'. assert (ids' = ids) as -> by congruence.
    replace (length ids + (S (current_key st) - 1)) with (length ids + current_key st)
      by lia.
    apply built_quiet; auto.
  - intros tr e H _. eapply Hq; eauto.
Qed.

End BuiltInOrder.

(** X7: in every run of the video flow, however it ends, the clients are
    built for the first credentials of the list, in its order and once each:
    a credential that was left behind is never used again.  In a successful
    run the number of API calls is the number of identifiers plus the number
    of rotations, which is less than [len(credentials)]. *)
Theorem credentials_used_in_order env credentials s3_data fuel tr0 out tr :
  collect_video_snippets env credentials s3_data fuel tr0 = (out, tr) ->
  exists new j,
    tr = new ++ tr0
    /\ j <= length credentials
    /\ rev (builds new) = developer_key <$> take j credentials
    /\ (out = Ok tt ->
        forall ids, video_work_set (db env) = Ok ids ->
                    1 <= j /\ api_calls new = length ids + (j - 1)).
Proof.
  intros Hrun.
  pose proof (hoare_collect_video_snippets env credentials tr0 s3_data fuel
                tr0 out tr eq_refl Hrun) as H.
  destruct out as [[]|e|].
  - destruct H as (j & Hj & H). destruct (video_work_set_ok (db env)) as [ids Hids].
    destruct (H ids Hids) as (new & -> & Hb & Hn & Hle).
    exists new, j. split; [reflexivity|]. split; [exact Hle|]. split; [exact Hb|].
    intros _ ids' Hids'. assert (ids' = ids) as -> by congruence. auto.
  - destruct H as (j & n & new & -> & Hb & Hn & Hle).
    exists new, j. split; [reflexivity|]. split; [exact Hle|]. split; [exact Hb|discriminate].
  - destruct H as (j & n & new & -> & Hb & Hn & Hle).
    exists new, j. split; [reflexivity|]. split; [exact Hle|]. split; [exact Hb|discriminate].
Qed.

Lemma credentials_used_in_order_witness :
  exists new j,
    snd (collect_video_snippets rotating_env two_keys "bucket" 2 []) = new ++ []
    /\ j <= length two_keys
    /\ rev (builds new) = developer_key <$> take j two_keys
    /\ (fst (collect_video_snippets rotating_env two_keys "bucket" 2 []) = Ok tt ->
        forall ids, video_work_set (db rotating_env) = Ok ids ->
                    1 <= j /\ api_calls new = length ids + (j - 1)).
Proof.
  apply (credentials_used_in_order rotating_env two_keys "bucket" 2 []).
  vm_compute. reflexivity.
Defined.

Example rotating_run :
  let run := collect_video_snippets rotating_env two_keys "bucket" 2 [] in
  fst run = Ok tt
  /\ rev (builds (snd run)) = ["key1"; "key2"]
  /\ rev (keys_called (snd run)) = ["key1"; "key2"; "key2"].
Proof. vm_compute. auto. Qed.

(** ** Credentials of the channel flow *)

Section FirstKeyOnly.

Variable env : environment.
Variable credentials : list credential.
Variable tr0 : list event.

Lemma first_key_quiet y0 n tr ev :
  first_key_only y0 tr0 n tr -> is_build ev = false -> is_execute ev = false ->
  first_key_only y0 tr0 n (ev :: tr).
Proof.
  intros (new & -> & Hb & Hk & Hn) H1 H2. exists (ev :: new).
  split; [reflexivity|]. unfold api_calls. cbn [List.filter]. rewrite H2.
  destruct ev; try discriminate; auto.
Qed.

Lemma first_key_execute y0 n tr r :
  first_key_only y0 tr0 n tr -> first_key_only y0 tr0 (S n) (Execute y0 r :: tr).
Proof.
  intros (new & -> & Hb & Hk & Hn). exists (Execute y0 r :: new).
  split; [reflexivity|]. split; [exact Hb|]. split.
  - change (keys_called (Execute y0 r :: new)) with (y0 :: keys_called new). auto.
  - unfold api_calls in *. simpl. now rewrite Hn.
Qed.

Lemma first_key_at_most y0 n tr c :
  credentials !! 0 = Some c -> y0 = developer_key c ->
  first_key_only y0 tr0 n tr -> at_most_first_key credentials tr0 tr.
Proof.
  intros Hc -> (new & -> & Hb & Hk & Hn). exists new.
  split; [reflexivity|]. rewrite Hb. split; [simpl; lia|].
  rewrite Hc. apply Forall_app. split.
  - repeat constructor.
  - eapply Forall_impl; [exact Hk|]. now intros key ->.
Qed.

Lemma hoare_fetch_channel fuel r k y0 n E :
  (forall n tr, first_key_only y0 tr0 n tr -> E tr) ->
  hoare (first_key_only y0 tr0 n)
    (fetch env credentials fuel (list_getitem_str credentials "youtube") r k y0)
    (fun '(k', y', _) tr => k' = k /\ y' = y0 /\ first_key_only y0 tr0 (S n) tr) E.
Proof.
  intros HE. destruct fuel as [|fuel]; cbn [fetch].
  { apply hoare_out_of_fuel. eauto. }
  eapply hoare_bind.
  { apply hoare_try_execute with (Q := fun _ tr => first_key_only y0 tr0 (S n) tr).
    intros tr. apply first_key_execute. }
  intros [e|resp]; [|apply hoare_ret; auto].
  destruct e; try (apply hoare_raise; eauto).
  destruct (Str.contains "403" str_e); [|apply hoare_raise; eauto].
  eapply hoare_bind; [apply hoare_lift; eauto|]. intros c0.
  eapply hoare_bind; [apply hoare_lift; intros tr [H _]; eauto|]. intros l.
  eapply hoare_conseq with (P' := fun tr => False /\ True) (Q' := fun _ _ => False)
                           (E' := fun _ => False);
    [apply hoare_assume; tauto|intros tr [_ H]; discriminate H|tauto|tauto].
Qed.

Lemma hoare_channel_step fuel st i n E :
  (forall n tr, first_key_only (youtube st) tr0 n tr -> E tr) ->
  hoare (first_key_only (youtube st) tr0 n) (channel_step env credentials fuel st i)
    (fun st' tr => youtube st' = youtube st /\ first_key_only (youtube st) tr0 (S n) tr) E.
Proof.
  intros HE. unfold channel_step.
  eapply hoare_bind; [apply hoare_fetch_channel; exact HE|]. intros [[k' y'] resp].
  apply hoare_assume. intros ->. apply hoare_assume. intros ->.
  eapply hoare_bind.
  { apply hoare_write_channel_items with (E := E).
    - intros tr H. apply first_key_quiet; auto.
    - eauto. }
  intros written. now apply hoare_ret.
Qed.

Lemma hoare_for_each_channel fuel y0 E ids :
  (forall n tr, first_key_only y0 tr0 n tr -> E tr) ->
  forall st n,
    youtube st = y0 ->
    hoare (first_key_only y0 tr0 n) (for_each (channel_step env credentials fuel) ids st)
      (fun _ tr => first_key_only y0 tr0 (n + length ids) tr) E.
Proof.
  intros HE. induction ids as [|i ids IH]; intros st n Hy; cbn [for_each].
  { apply hoare_ret. intros tr H. now rewrite Nat.add_0_r. }
  subst y0. eapply hoare_bind; [apply hoare_channel_step; exact HE|].
  intros st1. apply hoare_assume. intros Hy1.
  eapply hoare_conseq; [apply (IH st1 (S n) Hy1)|auto| |auto].
  intros st' tr H. now replace (n + length (i :: ids)) with (S n + length ids) by (simpl; lia).
Qed.

End FirstKeyOnly.

Lemma hoare_collect_channel_stats env credentials tr0 s3_data fuel :
  hoare (fun tr => tr = tr0) (collect_channel_stats env credentials s3_data fuel)
    (fun _ tr =>
       at_most_first_key credentials tr0 tr
       /\ exists y0, forall ids, channel_work_set (db env) = Ok ids ->
                                 first_key_only y0 tr0 (length ids) tr)
    (at_most_first_key credentials tr0).
Proof.
  set (P0 := fun tr : list event =>
               exists new, tr = new ++ tr0 /\ builds new = [] /\ keys_called new = []
                           /\ api_calls new = 0).
  assert (H0 : forall tr, tr = tr0 -> P0 tr).
  { intros tr ->. exists []. auto. }
  assert (Hq0 : forall tr ev, P0 tr -> is_build ev = false -> is_execute ev = false ->
                              P0 (ev :: tr)).
  { intros tr ev (new & -> & Hb & Hk & Hn) H1 H2. exists (ev :: new).
    split; [reflexivity|]. unfold api_calls. cbn [List.filter]. rewrite H2.
    destruct ev; try discriminate; auto. }
  assert (HE0 : forall tr, P0 tr -> at_most_first_key credentials tr0 tr).
  { intros tr (new & -> & Hb & Hk & Hn). exists new. rewrite Hb, Hk. simpl. auto. }
  unfold collect_channel_stats, upload_file, query_athena_and_wait.
  eapply hoare_bind.
  { apply hoare_query_athena_and_download
      with (Q := fun ids tr => channel_work_set (db env) = Ok ids /\ P0 tr).
    - intros tr ids Htr Hids. split; [exact Hids|]. apply Hq0; auto.
    - intros tr Htr. apply HE0, Hq0; auto. }
  intros ids. apply hoare_assume. intros Hids.
  eapply hoare_bind.
  { apply hoare_query_athena_and_get_result with (Q := fun _ tr => P0 tr).
    - intros tr n Htr _. apply Hq0; auto.
    - intros tr Htr. apply HE0, Hq0; auto. }
  intros cnt. eapply hoare_bind; [apply hoare_lift; eauto|].
  intros c. apply hoare_assume_r. intros Hc. apply list_getitem_Ok in Hc as [Hc _].
  set (y0 := developer_key c).
  assert (HE : forall n tr, first_key_only y0 tr0 n tr -> at_most_first_key credentials tr0 tr).
  { intros n tr. now apply (first_key_at_most credentials tr0 y0 n tr c). }
  assert (Hq : forall n tr ev, first_key_only y0 tr0 n tr ->
                 is_build ev = false -> is_execute ev = false ->
                 at_most_first_key credentials tr0 (ev :: tr)).
  { intros n tr ev H H1 H2. eapply HE, first_key_quiet; eauto. }
  eapply hoare_bind.
  { apply hoare_build with (Q := fun y tr => y = y0 /\ first_key_only y0 tr0 0 tr).
    - intros tr (new & -> & Hb & Hk & Hn). split; [reflexivity|].
      exists (Build y0 :: new). split; [reflexivity|].
      change (builds (Build y0 :: new)) with (y0 :: builds new).
      change (keys_called (Build y0 :: new)) with (keys_called new).
      rewrite Hb, Hk. auto.
    - intros tr (new & -> & Hb & Hk & Hn). exists (Build y0 :: new).
      split; [reflexivity|].
      change (builds (Build y0 :: new)) with (y0 :: builds new).
      change (keys_called (Build y0 :: new)) with (keys_called new).
      rewrite Hb, Hk, Hc. simpl. split; [lia|]. repeat constructor. }
  intros y. apply hoare_assume. intros ->.
  eapply hoare_bind.
  { apply (hoare_for_each_channel env credentials tr0 fuel y0
             (at_most_first_key credentials tr0) ids HE
             {| num := 0; current_key := 0; youtube := y0; lines := [] |} 0 eq_refl). }
  intros st. cbn [Nat.add].
  set (P := fun tr : list event => first_key_only y0 tr0 (length ids) tr).
  eapply hoare_bind.
  { apply hoare_compress with (Q := fun _ tr => P tr).
    - intros tr H. apply first_key_quiet; auto.
    - intros tr H. eapply Hq; eauto. }
  intros cf. eapply hoare_bind.
  { apply hoare_datetime_utcnow with (Q := fun _ tr => P tr).
    intros tr H. apply first_key_quiet; auto. }
  intros now. eapply hoare_bind.
  { apply hoare_perform with (Q := fun _ tr => P tr).
    - intros tr H _. apply first_key_quiet; auto.
    - intros tr e H _. eapply Hq; eauto. }
  intros u1. eapply hoare_bind.
  { apply hoare_perform with (Q := fun _ tr => P tr).
    - intros tr H _. apply first_key_quiet; auto.
    - intros tr e H _. eapply Hq; eauto. }
  intros u2. eapply hoare_bind.
  { apply hoare_perform with (Q := fun _ tr => P tr).
    - intros tr H _. apply first_key_quiet; auto.
    - intros tr e H _. eapply Hq; eauto. }
  intros u3. apply hoare_perform.
  - intros tr H _. split; [eapply Hq; eauto|].
    exists y0. intros ids' Hids'. assert (ids' = ids) as -> by congruence.
    apply first_key_quiet; auto.
  - intros tr e H _. eapply Hq; eauto.
Qed.

(** X8: in every run of the channel flow, however it ends, at most one
    client is built, and every client built and every API call made uses
    the key of [credentials[0]]: the other credentials are never used.  A
    successful run makes exactly one API call per identifier. *)
Theorem channel_flow_uses_first_credential env credentials s3_data fuel tr0 out tr :
  collect_channel_stats env credentials s3_data fuel tr0 = (out, tr) ->
  exists new,
    tr = new ++ tr0
    /\ length (builds new) <= 1
    /\ Forall (fun key => developer_key <$> credentials !! 0 = Some key)
         (builds new ++ keys_called new)
    /\ (out = Ok tt ->
        forall ids, channel_work_set (db env) = Ok ids -> api_calls new = length ids).
Proof.
  intros Hrun.
  pose proof (hoare_collect_channel_stats env credentials tr0 s3_data fuel
                tr0 out tr eq_refl Hrun) as H.
  destruct out as [[]|e|].
  - destruct H as [(new & -> & Hb & Hk) [y0 H]].
    exists new. split; [reflexivity|]. split; [exact Hb|]. split; [exact Hk|].
    intros _ ids Hids. destruct (H ids Hids) as (new' & Heq & _ & _ & Hn).
    apply app_inv_tail in Heq. now subst new'.
  - destruct H as (new & -> & Hb & Hk).
    exists new. split; [reflexivity|]. split; [exact Hb|]. split; [exact Hk|discriminate].
  - destruct H as (new & -> & Hb & Hk).
    exists new. split; [reflexivity|]. split; [exact Hb|]. split; [exact Hk|discriminate].
Qed.

Lemma channel_flow_uses_first_credential_witness :
  exists new,
    snd (collect_channel_stats served_env two_keys "bucket" 2 []) = new ++ []
    /\ length (builds new) <= 1
    /\ Forall (fun key => developer_key <$> two_keys !! 0 = Some key)
         (builds new ++ keys_called new)
    /\ (fst (collect_channel_stats served_env two_keys "bucket" 2 []) = Ok tt ->
        forall ids, channel_work_set (db served_env) = Ok ids -> api_calls new = length ids).
Proof.
  apply (channel_flow_uses_first_credential served_env two_keys "bucket" 2 []).
  vm_compute. reflexivity.
Defined.

(** ** Records and identifiers *)

Section RecordCount.

Variable env : environment.
Variable credentials : list credential.

(** Every response the loop returns is one the API gave to that request. *)
Lemma fetch_response_from_api fuel pool r : forall k y tr k' y' resp tr',
  fetch env credentials fuel pool r k y tr = (Ok (k', y', resp), tr') ->
  exists tr1, execute env tr1 y' r = inr resp.
Proof.
  induction fuel as [|fuel IH]; intros k y tr k' y' resp tr' H; [discriminate|].
  cbn [fetch] in H. unfold bind, try_execute, lift, build, perform, ret, raise in H.
  repeat match type of H with
         | context [match ?x with _ => _ end] => destruct x eqn:?
         end; try discriminate.
  - eapply IH; eauto.
  - injection H as <- <- <- <-. eauto.
Qed.

Variables lo hi : nat.

(** The API returns between [lo] and [hi] entities per request. *)
Hypothesis entities_per_response :
  forall tr key r resp,
    execute env tr key r = inr resp -> lo <= length (get_items resp) <= hi.

Lemma video_step_lines fuel st i tr st' tr' :
  video_step env credentials fuel st i tr = (Ok st', tr') ->
  exists added, lines st' = lines st ++ added /\ lo <= length added <= hi.
Proof.
  unfold video_step. intros ([[k y] resp] & t1 & H1 & H)%bind_Ok_inv.
  apply bind_Ok_inv in H as (w & t2 & H2 & H). apply ret_inv in H as [<- _].
  apply fetch_response_from_api in H1 as [tr1 H1].
  apply write_video_items_records in H2 as (added & -> & Hrep & _).
  exists added. split; [reflexivity|].
  rewrite <- (Forall2_length _ _ _ Hrep). eauto.
Qed.

Lemma channel_step_lines fuel st i tr st' tr' :
  channel_step env credentials fuel st i tr = (Ok st', tr') ->
  exists added, lines st' = lines st ++ added /\ lo <= length added <= hi.
Proof.
  unfold channel_step. intros ([[k y] resp] & t1 & H1 & H)%bind_Ok_inv.
  apply bind_Ok_inv in H as (w & t2 & H2 & H). apply ret_inv in H as [<- _].
  apply fetch_response_from_api in H1 as [tr1 H1].
  apply write_channel_items_records in H2 as (added & -> & Hlen & _).
  exists added. split; [reflexivity|]. rewrite Hlen. eauto.
Qed.

Lemma for_each_lines step ids : forall st tr st' tr',
  (forall st i tr st1 tr1, step st i tr = (Ok st1, tr1) ->
     exists added, lines st1 = lines st ++ added /\ lo <= length added <= hi) ->
  for_each step ids st tr = (Ok st', tr') ->
  exists added,
    lines st' = lines st ++ added
    /\ lo * length ids <= length added <= hi * length ids.
Proof.
  induction ids as [|i ids IH]; intros st tr st' tr' Hstep; cbn [for_each].
  - intros [<- _]%ret_inv. exists []. rewrite app_nil_r.
    cbn [length]. rewrite !Nat.mul_0_r. auto.
  - intros (st1 & t1 & H1 & H2)%bind_Ok_inv.
    apply Hstep in H1 as (a1 & Hl1 & Hb1).
    apply IH in H2 as (a2 & Hl2 & Hb2); [|exact Hstep].
    exists (a1 ++ a2). rewrite Hl2, Hl1, <- app_assoc. split; [reflexivity|].
    rewrite length_app. cbn [length]. rewrite !Nat.mul_succ_r. lia.
Qed.

End RecordCount.

(** C1, as the code has it: the count in the uploaded key is the number of
    identifiers the run went through (the rows of its work set), not the
    number of records written.  A successful run of either flow uploads once,
    under [youtube_video_snippet/<D>-<N>.json.bz2], respectively
    [youtube_channel_stats/creation_date=<D>/<N>.json.bz2], where D is the
    date of the clock reading taken just before the upload and N the size of
    the work set; when every response of the API carries exactly one entity,
    N is also the number of records in the file.  D has the form YYYY-MM-DD
    for the years 1000 to 9999; and keys of one flow with different counts
    differ, whatever their dates. *)
Theorem s3_key_counts_identifiers env credentials s3_data fuel tr0 :
  (forall tr,
      collect_video_snippets env credentials s3_data fuel tr0 = (Ok tt, tr) ->
      exists ids written before,
        video_work_set (db env) = Ok ids
        /\ tr = Query_athena_and_wait (CREATE_VIDEO_SNIPPET_JSON s3_data)
                :: Upload_file s3_data
                     (video_s3_filename (date_of (utcnow env before)) (length ids)) written
                :: Utcnow :: before
        /\ uploads before = uploads tr0
        /\ ((forall t key r resp,
               execute env t key r = inr resp -> length (get_items resp) = 1) ->
            length written = length ids))
  /\ (forall tr,
      collect_channel_stats env credentials s3_data fuel tr0 = (Ok tt, tr) ->
      exists ids written registration before,
        channel_work_set (db env) = Ok ids
        /\ tr = registration
                ++ Upload_file s3_data
                     (channel_s3_filename (date_of (utcnow env before)) (length ids)) written
                :: Utcnow :: before
        /\ uploads registration = []
        /\ uploads before = uploads tr0
        /\ ((forall t key r resp,
               execute env t key r = inr resp -> length (get_items resp) = 1) ->
            length written = length ids))
  /\ (forall now n,
        video_s3_filename (date_of now) n
        = "youtube_video_snippet/" +:+ date_of now +:+ "-" +:+ Str.of_nat n +:+ ".json.bz2"
        /\ channel_s3_filename (date_of now) n
           = "youtube_channel_stats/creation_date=" +:+ date_of now +:+ "/"
               +:+ Str.of_nat n +:+ ".json.bz2"
        /\ (four_digit_year now = true ->
            Str.matches (Str.shape_of "YYYY-MM-DD") (date_of now) = true))
  /\ (forall d1 d2 n1 n2,
        n1 <> n2 ->
        video_s3_filename d1 n1 <> video_s3_filename d2 n2
        /\ channel_s3_filename d1 n1 <> channel_s3_filename d2 n2).
Proof.
  split; [|split; [|split]].
  - intros tr H.
    apply collect_video_snippets_Ok in H
      as (ids & c & st & fetched & prologue & Hids & _ & Hp & Hloop & Hf & _ & ->).
    exists ids, (lines st), (Compress (lines st) :: fetched ++ prologue ++ tr0).
    split; [exact Hids|]. split; [reflexivity|]. split.
    + exact (proj1 (loop_quiet fetched prologue (lines st) tr0 Hf Hp)).
    + intros Hone.
      assert (Hapi : forall t key r resp,
                 execute env t key r = inr resp -> 1 <= length (get_items resp) <= 1).
      { intros t key r resp Hx. rewrite (Hone _ _ _ _ Hx). lia. }
      eapply (for_each_lines 1 1) in Hloop as (added & Hl & Hb);
        [|intros; eapply video_step_lines; eauto].
      cbn [start_state lines app] in Hl. rewrite Hl. lia.
  - intros tr H.
    apply collect_channel_stats_Ok in H
      as (ids & c & st & fetched & prologue & Hids & _ & Hp & Hloop & Hf & _ & ->).
    exists ids, (lines st). eexists [_; _; _], (Compress (lines st) :: fetched ++ prologue ++ tr0).
    split; [exact Hids|]. split; [reflexivity|]. split; [reflexivity|]. split.
    + exact (proj1 (loop_quiet fetched prologue (lines st) tr0 Hf Hp)).
    + intros Hone.
      assert (Hapi : forall t key r resp,
                 execute env t key r = inr resp -> 1 <= length (get_items resp) <= 1).
      { intros t key r resp Hx. rewrite (Hone _ _ _ _ Hx). lia. }
      eapply (for_each_lines 1 1) in Hloop as (added & Hl & Hb);
        [|intros; eapply channel_step_lines; eauto].
      cbn [start_state lines app] in Hl. rewrite Hl. lia.
  - intros now n. split; [reflexivity|]. split; [reflexivity|apply date_of_shape].
  - intros d1 d2 n1 n2 Hn. split.
    + intros [_ E]%video_s3_filename_inj. contradiction.
    + intros [_ E]%channel_s3_filename_inj. contradiction.
Qed.

Lemma s3_key_counts_identifiers_witness :
  exists ids written before,
    video_work_set (db abc_served_env) = Ok ids
    /\ snd (collect_video_snippets abc_served_env one_key "bucket" 1 [])
       = Query_athena_and_wait (CREATE_VIDEO_SNIPPET_JSON "bucket")
         :: Upload_file "bucket"
              (video_s3_filename (date_of (utcnow abc_served_env before)) (length ids))
              written
         :: Utcnow :: before
    /\ uploads before = uploads []
    /\ length written = length ids.
Proof.
  destruct (proj1 (s3_key_counts_identifiers abc_served_env one_key "bucket" 1 [])
              (snd (collect_video_snippets abc_served_env one_key "bucket" 1 [])))
    as (ids & written & before & Hids & Htr & Hu & Hn).
  - vm_compute. reflexivity.
  - exists ids, written, before. repeat split; auto.
    apply Hn. intros t key r resp [= <-]. reflexivity.
Defined.

(** X14: the loop only appends to the file, and when the API returns between
    [lo] and [hi] entities per request, the file a successful run uploads
    holds between [lo * N] and [hi * N] records, N being the count in its
    key.  With the zero-or-one answers of a lookup by id, the count in the
    key bounds the number of records from above; with exactly one entity per
    identifier the two are equal. *)
Theorem records_between_bounds env credentials s3_data fuel tr0 lo hi :
  (forall tr key r resp,
      execute env tr key r = inr resp -> lo <= length (get_items resp) <= hi) ->
  (forall tr,
      collect_video_snippets env credentials s3_data fuel tr0 = (Ok tt, tr) ->
      exists now n written rest,
        tr = Query_athena_and_wait (CREATE_VIDEO_SNIPPET_JSON s3_data)
             :: Upload_file s3_data (video_s3_filename (date_of now) n) written :: rest
        /\ lo * n <= length written <= hi * n)
  /\ (forall tr,
      collect_channel_stats env credentials s3_data fuel tr0 = (Ok tt, tr) ->
      exists now n written registration rest,
        tr = registration
             ++ Upload_file s3_data (channel_s3_filename (date_of now) n) written :: rest
        /\ length registration = 3
        /\ lo * n <= length written <= hi * n).
Proof.
  intros Hapi. split; intros tr H.
  - apply collect_video_snippets_Ok in H
      as (ids & c & st & fetched & prologue & _ & _ & _ & Hloop & _ & _ & ->).
    eapply for_each_lines in Hloop as (added & Hl & Hb);
      [|intros; eapply video_step_lines; eauto].
    cbn [start_state lines app] in Hl.
    eexists _, _, _, _. split; [reflexivity|]. now rewrite Hl.
  - apply collect_channel_stats_Ok in H
      as (ids & c & st & fetched & prologue & _ & _ & _ & Hloop & _ & _ & ->).
    eapply for_each_lines in Hloop as (added & Hl & Hb);
      [|intros; eapply channel_step_lines; eauto].
    cbn [start_state lines app] in Hl.
    eexists _, _, _, [_; _; _], _. split; [reflexivity|]. split; [reflexivity|].
    now rewrite Hl.
Qed.

Lemma records_between_bounds_witness :
  exists now n written rest,
    snd (collect_video_snippets abc_env one_key "bucket" 1 [])
    = Query_athena_and_wait (CREATE_VIDEO_SNIPPET_JSON "bucket")
      :: Upload_file "bucket" (video_s3_filename (date_of now) n) written :: rest
    /\ 0 * n <= length written <= 1 * n.
Proof.
  apply (proj1 (records_between_bounds abc_env one_key "bucket" 1 [] 0 1
                  ltac:(intros tr key r resp [= <-]; unfold get_items; cbn [items];
                        destruct (decide (id r = "c")); cbn [default from_option length];
                        unfold Datatypes.id; cbn [length]; lia))).
  vm_compute. reflexivity.
Defined.

(** ** The end of a run *)

Lemma before_upload_quiet body :
  Forall before_upload body -> uploads body = [] /\ waits body = [].
Proof.
  induction 1 as [|ev body Hev _ [IHu IHw]]; [auto|].
  destruct ev; try contradiction; auto.
Qed.

Lemma fetch_phase_before_upload ev : fetch_phase ev -> before_upload ev.
Proof. destruct ev; simpl; auto. Qed.

(** What [perform_all] leaves: the operations attempted, in order, each but
    the last having succeeded, and all of them exactly when it succeeds. *)
Lemma perform_all_spec env steps : forall tr out tr',
  perform_all env steps tr = (out, tr') ->
  exists done todo,
    steps = done ++ todo /\ tr' = rev done ++ tr
    /\ (forall before ev after, done = before ++ ev :: after -> after <> [] ->
          fails env (rev before ++ tr) ev = None)
    /\ (out = Ok tt <-> todo = []
                        /\ forall before ev, done = before ++ [ev] ->
                             fails env (rev before ++ tr) ev = None).
Proof.
  induction steps as [|ev steps IH]; intros tr out tr'; cbn [perform_all].
  - intros [= <- <-]. exists [], []. repeat split; auto.
    + intros [|] ? ? ?; discriminate.
    + intros [|] ? ?; discriminate.
  - destruct (fails env tr ev) as [e|] eqn:Hf.
    + intros [= <- <-]. exists [ev], steps. repeat split; auto.
      * intros [|? [|]] ? ? [= ] ?; subst; congruence.
      * discriminate.
      * discriminate.
      * intros [_ H]. specialize (H [] ev eq_refl). simpl in H. congruence.
    + intros H. apply IH in H as (done & todo & -> & -> & Hmid & Hout).
      exists (ev :: done), todo. split; [reflexivity|].
      split; [cbn [rev]; now rewrite <- app_assoc|]. split.
      * intros [|b before] ev' after Heq Hne.
        -- injection Heq as <- _. exact Hf.
        -- injection Heq as <- ->. cbn [rev]. rewrite <- app_assoc.
           apply (Hmid before ev' after eq_refl Hne).
      * rewrite Hout. split; intros [Ht H]; (split; [exact Ht|]).
        -- intros [|b before] ev' Heq.
           ++ injection Heq as <- _. exact Hf.
           ++ injection Heq as <- ->. cbn [rev]. rewrite <- app_assoc. now apply H.
        -- intros before ev' ->. specialize (H (ev :: before) ev' eq_refl).
           cbn [rev] in H. now rewrite <- app_assoc in H.
Qed.

Lemma quiet_since_refl tr0 : quiet_since tr0 tr0.
Proof. exists []. auto. Qed.

Lemma quiet_since_cons tr0 tr ev :
  before_upload ev -> quiet_since tr0 tr -> quiet_since tr0 (ev :: tr).
Proof. intros Hev (body & -> & Hb). exists (ev :: body). auto. Qed.

Lemma quiet_since_app tr0 tr new :
  Forall fetch_phase new -> quiet_since tr0 tr -> quiet_since tr0 (new ++ tr).
Proof.
  intros Hn (body & -> & Hb). exists (new ++ body). split; [now rewrite app_assoc|].
  apply Forall_app. split; [|exact Hb].
  eapply Forall_impl; [exact Hn|apply fetch_phase_before_upload].
Qed.

Create HintDb quiet.
#[local] Hint Resolve quiet_since_refl quiet_since_cons quiet_since_app : quiet.
#[local] Hint Extern 1 (before_upload _) => exact Logic.I : quiet.

Ltac destruct_run H :=
  repeat
    (cbv beta iota zeta in H;
     first
       [ match type of H with
         | context [fails ?e ?t ?ev] => destruct (fails e t ev) eqn:?
         end
       | match type of H with
         | context [select_rows ?d ?q] => destruct (select_rows d q) eqn:?
         end
       | match type of H with
         | context [select_count ?d ?q] => destruct (select_count d q) eqn:?
         end
       | match type of H with
         | context [list_getitem ?l ?i] => destruct (list_getitem l i) eqn:?
         end
       | match type of H with
         | context [for_each ?s ?i ?st ?t] =>
             let o := fresh "o" in
             let t1 := fresh "t" in
             destruct (for_each s i st t) as [o t1] eqn:?; destruct o
         end ]).

Ltac loop_trace :=
  match goal with
  | Hl : for_each _ _ _ _ = _ |- _ =>
      first [ apply (grows_for_each _ _ _ (grows_video_step _ _ _)) in Hl
            | apply (grows_for_each _ _ _ (grows_channel_step _ _ _)) in Hl ];
      destruct Hl as (? & -> & ?)
  | _ => idtac
  end.

Ltac end_of_run :=
  first
    [ left; split; [solve [eauto 12 with quiet]|discriminate]
    | right; eexists _, _, _; split;
      [|cbn [perform_all];
        repeat match goal with Hf : fails _ _ _ = _ |- _ => rewrite Hf end;
        reflexivity];
      solve [eauto 12 with quiet] ].

(** X4: however a run ends, it is either over before anything was uploaded
    or sent as a statement, or it ends with the upload and the flow's
    statements performed in order up to the first that fails: for the channel
    flow upload, DROP TABLE, create, MSCK REPAIR; for the video flow upload,
    create.  So no statement is sent unless the upload succeeded, and a
    statement that fails is the last one sent. *)
Theorem statements_follow_upload env credentials s3_data fuel tr0 out tr :
  (collect_channel_stats env credentials s3_data fuel tr0 = (out, tr) ->
   (quiet_since tr0 tr /\ out <> Ok tt)
   \/ exists t key written,
        quiet_since tr0 t
        /\ (out, tr)
           = perform_all env
               [Upload_file s3_data key written;
                Query_athena_and_wait (DROP_TABLE_IF_EXISTS "youtube_channel_stats");
                Query_athena_and_wait (CREATE_CHANNEL_STATS_JSON s3_data);
                Query_athena_and_wait (MSCK_REPAIR_TABLE "youtube_channel_stats")] t)
  /\
  (collect_video_snippets env credentials s3_data fuel tr0 = (out, tr) ->
   (quiet_since tr0 tr /\ out <> Ok tt)
   \/ exists t key written,
        quiet_since tr0 t
        /\ (out, tr)
           = perform_all env
               [Upload_file s3_data key written;
                Query_athena_and_wait (CREATE_VIDEO_SNIPPET_JSON s3_data)] t).
Proof.
  split; intros H.
  - unfold collect_channel_stats, query_athena_and_download, query_athena_and_get_result,
      build, compress, upload_file, query_athena_and_wait in H.
    unfold bind, perform, lift, ret, datetime_utcnow in H.
    destruct_run H; injection H as <- <-; loop_trace; end_of_run.
  - unfold collect_video_snippets, table_exists, query_athena_and_download,
      query_athena_and_get_result, build, compress, upload_file, query_athena_and_wait in H.
    unfold bind, perform, lift, ret, datetime_utcnow in H.
    destruct_run H; injection H as <- <-; loop_trace; end_of_run.
Qed.

Lemma statements_follow_upload_witness :
  (quiet_since [] (collect_channel_stats upload_fails_env one_key "bucket" 1 []).2
   /\ (collect_channel_stats upload_fails_env one_key "bucket" 1 []).1 <> Ok tt)
  \/ exists t key written,
       quiet_since [] t
       /\ ((collect_channel_stats upload_fails_env one_key "bucket" 1 []).1,
           (collect_channel_stats upload_fails_env one_key "bucket" 1 []).2)
          = perform_all upload_fails_env
              [Upload_file "bucket" key written;
               Query_athena_and_wait (DROP_TABLE_IF_EXISTS "youtube_channel_stats");
               Query_athena_and_wait (CREATE_CHANNEL_STATS_JSON "bucket");
               Query_athena_and_wait (MSCK_REPAIR_TABLE "youtube_channel_stats")] t.
Proof.
  apply (proj1 (statements_follow_upload upload_fails_env one_key "bucket" 1 [] _ _)).
  apply surjective_pairing.
Defined.

(** When the upload fails, the run ends there: no statement reaches Athena. *)
Example failed_upload_sends_no_statement :
  exists e tr,
    collect_channel_stats upload_fails_env one_key "bucket" 1 [] = (Raise e, tr)
    /\ length (uploads tr) = 1 /\ waits tr = [].
Proof. eexists _, _. split; [vm_compute; reflexivity|]. split; reflexivity. Qed.

(** ** Registration after the commit *)

(** C9: the schema statements come after the upload that commits the batch,
    in both flows.  A successful run of the channel flow ends with the upload
    followed by [DROP TABLE IF EXISTS youtube_channel_stats], the [create
    external table] of that table and [MSCK REPAIR TABLE
    youtube_channel_stats], in that order and with no other upload or
    statement in the run.  A successful run of the video flow ends with the
    upload followed by the [create external table if not exists] of
    youtube_video_snippet alone; and no run of the video flow, however it
    ends, sends a [DROP TABLE].  However a run of either flow ends, it has
    either uploaded nothing and sent no statement (and has not returned
    normally), or it ends with the upload and the statements of its flow,
    performed in that order up to the first that fails: no statement goes
    out before the upload has succeeded. *)
Theorem registration_follows_commit env credentials s3_data fuel tr0 :
  (forall tr,
      collect_channel_stats env credentials s3_data fuel tr0 = (Ok tt, tr) ->
      exists key written rest,
        tr = Query_athena_and_wait (MSCK_REPAIR_TABLE "youtube_channel_stats")
             :: Query_athena_and_wait (CREATE_CHANNEL_STATS_JSON s3_data)
             :: Query_athena_and_wait (DROP_TABLE_IF_EXISTS "youtube_channel_stats")
             :: Upload_file s3_data key written
             :: rest
        /\ uploads rest = uploads tr0 /\ waits rest = waits tr0)
  /\ (forall tr,
      collect_video_snippets env credentials s3_data fuel tr0 = (Ok tt, tr) ->
      exists key written rest,
        tr = Query_athena_and_wait (CREATE_VIDEO_SNIPPET_JSON s3_data)
             :: Upload_file s3_data key written
             :: rest
        /\ uploads rest = uploads tr0 /\ waits rest = waits tr0)
  /\ (forall out tr,
      collect_video_snippets env credentials s3_data fuel tr0 = (out, tr) ->
      exists new, tr = new ++ tr0 /\ Forall no_drop new)
  /\ (forall out tr,
      collect_channel_stats env credentials s3_data fuel tr0 = (out, tr) ->
      (quiet_since tr0 tr /\ out <> Ok tt)
      \/ exists t key written,
           quiet_since tr0 t
           /\ (out, tr)
              = perform_all env
                  [Upload_file s3_data key written;
                   Query_athena_and_wait (DROP_TABLE_IF_EXISTS "youtube_channel_stats");
                   Query_athena_and_wait (CREATE_CHANNEL_STATS_JSON s3_data);
                   Query_athena_and_wait (MSCK_REPAIR_TABLE "youtube_channel_stats")] t)
  /\ (forall out tr,
      collect_video_snippets env credentials s3_data fuel tr0 = (out, tr) ->
      (quiet_since tr0 tr /\ out <> Ok tt)
      \/ exists t key written,
           quiet_since tr0 t
           /\ (out, tr)
              = perform_all env
                  [Upload_file s3_data key written;
                   Query_athena_and_wait (CREATE_VIDEO_SNIPPET_JSON s3_data)] t).
Proof.
  split; [|split; [|split; [|split]]].
  - intros tr H.
    apply collect_channel_stats_Ok in H
      as (ids & c & st & fetched & prologue & _ & _ & Hp & _ & Hf & _ & ->).
    eexists _, _, _. split; [reflexivity|]. now apply loop_quiet.
  - intros tr H.
    apply collect_video_snippets_Ok in H
      as (ids & c & st & fetched & prologue & _ & _ & Hp & _ & Hf & _ & ->).
    eexists _, _, _. split; [reflexivity|]. now apply loop_quiet.
  - intros out tr H. eapply collect_video_snippets_no_drop; eauto.
  - intros out tr H.
    unfold collect_channel_stats, query_athena_and_download, query_athena_and_get_result,
      build, compress, upload_file, query_athena_and_wait in H.
    unfold bind, perform, lift, ret, datetime_utcnow in H.
    destruct_run H; injection H as <- <-; loop_trace; end_of_run.
  - intros out tr H.
    unfold collect_video_snippets, table_exists, query_athena_and_download,
      query_athena_and_get_result, build, compress, upload_file, query_athena_and_wait in H.
    unfold bind, perform, lift, ret, datetime_utcnow in H.
    destruct_run H; injection H as <- <-; loop_trace; end_of_run.
Qed.

Lemma registration_follows_commit_witness :
  (exists key written rest,
      snd (collect_channel_stats served_env one_key "bucket" 1 [])
      = Query_athena_and_wait (MSCK_REPAIR_TABLE "youtube_channel_stats")
        :: Query_athena_and_wait (CREATE_CHANNEL_STATS_JSON "bucket")
        :: Query_athena_and_wait (DROP_TABLE_IF_EXISTS "youtube_channel_stats")
        :: Upload_file "bucket" key written
        :: rest
      /\ uploads rest = uploads [] /\ waits rest = waits [])
  /\ (exists key written rest,
        snd (collect_video_snippets abc_env one_key "bucket" 1 [])
        = Query_athena_and_wait (CREATE_VIDEO_SNIPPET_JSON "bucket")
          :: Upload_file "bucket" key written
          :: rest
        /\ uploads rest = uploads [] /\ waits rest = waits []).
Proof.
  split.
  - apply (proj1 (registration_follows_commit served_env one_key "bucket" 1 [])).
    vm_compute. reflexivity.
  - apply (proj1 (proj2 (registration_follows_commit abc_env one_key "bucket" 1 []))).
    vm_compute. reflexivity.
Defined.

(** The two runs of the witness return normally. *)
Example registration_runs_succeed :
  fst (collect_channel_stats served_env one_key "bucket" 1 []) = Ok tt
  /\ fst (collect_video_snippets abc_env one_key "bucket" 1 []) = Ok tt.
Proof. split; vm_compute; reflexivity. Qed.

(** ** The entry point *)

Lemma saves_flow tr before : saves ((Flow <$> tr) ++ before) = saves before.
Proof. unfold saves. induction tr as [|ev tr IH]; [reflexivity|exact IH]. Qed.

Lemma flow_events_flow tr before :
  flow_events ((Flow <$> tr) ++ before) = tr ++ flow_events before.
Proof.
  unfold flow_events. induction tr as [|ev tr IH]; [reflexivity|].
  change (ev :: omap (fun ev => match ev with Flow ev => Some ev | _ => None end)
                  ((Flow <$> tr) ++ before) = ev :: tr ++ flow_events before).
  unfold flow_events. now rewrite IH.
Qed.

Lemma both_flows_cases p credentials s3_data o t :
  both_flows p credentials s3_data = (o, t) ->
  o <> OutOfFuel
  /\ exists o_v tr_v,
       collect_video_snippets (video_env p) credentials s3_data (length credentials) []
       = (o_v, tr_v)
       /\ ((o_v <> Ok tt /\ o = o_v /\ t = tr_v)
           \/ (o_v = Ok tt
               /\ collect_channel_stats (channel_env p) credentials s3_data
                    (length credentials) tr_v = (o, t))).
Proof.
  unfold both_flows.
  destruct (collect_video_snippets _ _ _ _ _) as [o_v tr_v] eqn:Hv.
  pose proof (finishes_collect_video_snippets _ _ _ _ (le_n _) _ _ _ Hv) as Hfv.
  destruct o_v as [[]|e|]; [|intros [= <- <-]..].
  - intros Hc. split.
    + exact (finishes_collect_channel_stats _ _ _ _ (le_n _) _ _ _ Hc).
    + eexists _, _. split; [reflexivity|]. right. auto.
  - split; [discriminate|]. eexists _, _. split; [reflexivity|]. left.
    repeat split. discriminate.
  - now destruct Hfv.
Qed.

Lemma aws_entry_finishes config k : aws_entry config k <> OutOfFuel.
Proof.
  unfold aws_entry, entry. destruct (aws config) as [section|]; cbn [rbind]; [|discriminate].
  destruct (section !! k); discriminate.
Qed.

Lemma try_body_finishes p config : (try_body p config).1 <> OutOfFuel.
Proof.
  unfold try_body.
  destruct (youtube_arguments config) as [[credentials s3_data]|e|] eqn:Ha.
  - destruct (both_flows p credentials s3_data) as [o t] eqn:Hb.
    now apply both_flows_cases in Hb as [Hb _].
  - discriminate.
  - exfalso. unfold youtube_arguments, entry in Ha.
    destruct (youtube_section config); cbn [rbind] in Ha; [|discriminate].
    destruct (aws_entry config "athena-data") eqn:H1; cbn [rbind] in Ha;
      [|discriminate|now apply aws_entry_finishes in H1].
    destruct (aws_entry config "s3-admin") eqn:H2; cbn [rbind] in Ha;
      [|discriminate|now apply aws_entry_finishes in H2].
    destruct (aws_entry config "s3-data") eqn:H3; cbn [rbind] in Ha;
      [discriminate|discriminate|now apply aws_entry_finishes in H3].
Qed.

(** The three ways through [main]: an exception before the logger exists,
    an exception of [AthenaLogger(...)], and the [try ... finally]. *)
Lemma main_cases p url out tr :
  main p url = (out, tr) ->
  (exists e, out = Raise e /\ tr = [Read_dict_from_s3_url url])
  \/ (exists e s3_bucket athena_db,
        athena_logger_fails p = Some e /\ out = Raise e
        /\ tr = [Athena_logger "youtube" s3_bucket athena_db; Read_dict_from_s3_url url])
  \/ (exists config s3_bucket athena_db o t,
        read_dict_from_s3_url p url = inr config
        /\ aws_entry config "s3-admin" = Ok s3_bucket
        /\ aws_entry config "athena-admin" = Ok athena_db
        /\ athena_logger_fails p = None
        /\ try_body p config = (o, t)
        /\ o <> OutOfFuel
        /\ tr = Save_to_s3 :: (Flow <$> t)
                  ++ [Athena_logger "youtube" s3_bucket athena_db; Read_dict_from_s3_url url]
        /\ out = match save_to_s3_fails p t with Some e => Raise e | None => o end).
Proof.
  unfold main.
  destruct (read_dict_from_s3_url p url) as [e|config] eqn:Hr.
  { intros [= <- <-]. left. eauto. }
  destruct (aws_entry config "s3-admin") as [s3_bucket|e|] eqn:H1; cbn [rbind].
  2:{ intros [= <- <-]. left. eauto. }
  2:{ now apply aws_entry_finishes in H1. }
  destruct (aws_entry config "athena-admin") as [athena_db|e|] eqn:H2; cbn [rbind].
  2:{ intros [= <- <-]. left. eauto. }
  2:{ now apply aws_entry_finishes in H2. }
  destruct (athena_logger_fails p) as [e|] eqn:Hl.
  { intros [= <- <-]. right. left. eauto 10. }
  pose proof (try_body_finishes p config) as Hfin.
  destruct (try_body p config) as [o t] eqn:Hb. cbn [fst] in Hfin.
  unfold try_finally_save. intros H. right. right.
  exists config, s3_bucket, athena_db, o, t.
  repeat (split; [solve [auto]|]).
  destruct o as [u|e|]; [| |now destruct Hfin];
    destruct (save_to_s3_fails p t); injection H as <- <-; auto.
Qed.

(** X1: [main] never leaves its log unsaved, and saves it once.  Whenever the
    logger was created, the trace of [main] ends with [logger.save_to_s3()],
    called once, whether the flows returned or raised; when the logger was
    not created nothing is saved and no operation of the flows took place. *)
Theorem main_saves_log_once p url out tr :
  main p url = (out, tr) ->
  out <> OutOfFuel
  /\ (logger_created p tr -> exists rest, tr = Save_to_s3 :: rest /\ saves rest = 0)
  /\ (~ logger_created p tr -> saves tr = 0 /\ flow_events tr = []).
Proof.
  intros H. apply main_cases in H as [H|[H|H]].
  - destruct H as (e & -> & ->). split; [discriminate|]. split; [|auto].
    intros (_ & b & d & [Hin|[]]). discriminate.
  - destruct H as (e & b & d & Hl & -> & ->). split; [discriminate|]. split; [|auto].
    intros (Hn & _). congruence.
  - destruct H as (config & b & d & o & t & _ & _ & _ & Hl & _ & Ho & -> & ->).
    split; [destruct (save_to_s3_fails p t); [discriminate|exact Ho]|]. split.
    + intros _. eexists. split; [reflexivity|]. now rewrite saves_flow.
    + intros Hn. destruct Hn. split; [exact Hl|]. exists b, d.
      right. apply in_or_app. right. now left.
Qed.

Lemma main_saves_log_once_witness :
  exists rest,
    (main sample_process "s3://bucket/config.json").2 = Save_to_s3 :: rest
    /\ saves rest = 0.
Proof.
  apply (main_saves_log_once sample_process "s3://bucket/config.json" _ _
           (surjective_pairing _)).
  split; [reflexivity|]. exists "admin-bucket", "admin_db".
  apply in_rev. vm_compute. right. left. reflexivity.
Defined.

Lemma youtube_arguments_Ok config credentials s3_data :
  youtube_arguments config = Ok (credentials, s3_data) ->
  youtube_section config = Some credentials /\ aws_entry config "s3-data" = Ok s3_data.
Proof.
  unfold youtube_arguments, entry.
  destruct (youtube_section config) as [c|]; cbn [rbind]; [|discriminate].
  destruct (aws_entry config "athena-data"); cbn [rbind]; [|discriminate..].
  destruct (aws_entry config "s3-admin"); cbn [rbind]; [|discriminate..].
  destruct (aws_entry config "s3-data"); cbn [rbind]; [|discriminate..].
  intros [= <- <-]. auto.
Qed.

(** X2: when [main] returns normally, both files are in the bucket
    [config['aws']['s3-data']], the video file uploaded first, the four
    statements went to Athena in the order create (video table), drop,
    create (channel table), repair, and the log was saved last. *)
Theorem main_returns_after_both_uploads p url tr :
  main p url = (Ok tt, tr) ->
  exists config s3_bucket athena_db credentials s3_data flows,
    read_dict_from_s3_url p url = inr config
    /\ youtube_section config = Some credentials
    /\ aws_entry config "s3-data" = Ok s3_data
    /\ tr = Save_to_s3 :: (Flow <$> flows)
              ++ [Athena_logger "youtube" s3_bucket athena_db; Read_dict_from_s3_url url]
    /\ (exists dv nv rv dc nc rc,
          uploads flows = [(s3_data, channel_s3_filename dc nc, rc);
                           (s3_data, video_s3_filename dv nv, rv)])
    /\ waits flows = [MSCK_REPAIR_TABLE "youtube_channel_stats";
                      CREATE_CHANNEL_STATS_JSON s3_data;
                      DROP_TABLE_IF_EXISTS "youtube_channel_stats";
                      CREATE_VIDEO_SNIPPET_JSON s3_data].
Proof.
  intros H. apply main_cases in H as [(e & [=] & _)|[(e & b & d & _ & [=] & _)|H]].
  destruct H as (config & b & d & o & t & Hr & _ & _ & _ & Hb & _ & -> & Ho).
  destruct (save_to_s3_fails p t); [discriminate|]. subst o.
  unfold try_body in Hb.
  destruct (youtube_arguments config) as [[credentials s3_data]|e|] eqn:Ha;
    [|discriminate..].
  apply youtube_arguments_Ok in Ha as [Hy Hd].
  apply both_flows_cases in Hb as (_ & o_v & tr_v & Hv & [(Hne & <- & _)|(-> & Hc)]);
    [now destruct Hne|].
  apply collect_video_snippets_Ok in Hv
    as (ids & c & st & fetched & prologue & _ & _ & Hp & _ & Hf & _ & ->).
  apply collect_channel_stats_Ok in Hc
    as (ids' & c' & st' & fetched' & prologue' & _ & _ & Hp' & _ & Hf' & _ & ->).
  exists config, b, d, credentials, s3_data. eexists.
  repeat (split; [solve [eauto]|]).
  match goal with
  | |- context [uploads (?a :: ?b :: ?c :: ?u :: Utcnow :: Compress ?l :: ?rest)] =>
      change (a :: b :: c :: u :: Utcnow :: Compress l :: rest)
        with ([a; b; c; u] ++ Utcnow :: Compress l :: rest);
      destruct (loop_quiet fetched' prologue' l
                  (Query_athena_and_wait (CREATE_VIDEO_SNIPPET_JSON s3_data)
                   :: Upload_file s3_data
                        (video_s3_filename
                           (date_of (utcnow (video_env p)
                                       (Compress (lines st) :: fetched ++ prologue ++ [])))
                           (length ids))
                        (lines st)
                   :: Utcnow :: Compress (lines st) :: fetched ++ prologue ++ [])
                  Hf' Hp') as [Hu Hw]
  end.
  destruct (loop_quiet fetched prologue (lines st) [] Hf Hp) as [Hu0 Hw0].
  rewrite uploads_app, waits_app, Hu, Hw.
  match goal with
  | |- context [uploads (?a :: ?u :: Utcnow :: Compress ?l :: ?rest)] =>
      change (a :: u :: Utcnow :: Compress l :: rest)
        with ([a; u] ++ Utcnow :: Compress l :: rest)
  end.
  rewrite uploads_app, waits_app, Hu0, Hw0.
  split; [|reflexivity]. eexists _, _, _, _, _, _. reflexivity.
Qed.

Lemma main_returns_after_both_uploads_witness :
  exists config s3_bucket athena_db credentials s3_data flows,
    read_dict_from_s3_url sample_process "s3://bucket/config.json" = inr config
    /\ youtube_section config = Some credentials
    /\ aws_entry config "s3-data" = Ok s3_data
    /\ (main sample_process "s3://bucket/config.json").2
       = Save_to_s3 :: (Flow <$> flows)
           ++ [Athena_logger "youtube" s3_bucket athena_db;
               Read_dict_from_s3_url "s3://bucket/config.json"]
    /\ (exists dv nv rv dc nc rc,
          uploads flows = [(s3_data, channel_s3_filename dc nc, rc);
                           (s3_data, video_s3_filename dv nv, rv)])
    /\ waits flows = [MSCK_REPAIR_TABLE "youtube_channel_stats";
                      CREATE_CHANNEL_STATS_JSON s3_data;
                      DROP_TABLE_IF_EXISTS "youtube_channel_stats";
                      CREATE_VIDEO_SNIPPET_JSON s3_data].
Proof.
  apply (main_returns_after_both_uploads sample_process "s3://bucket/config.json").
  vm_compute. reflexivity.
Defined.

(** The run of [sample_process]: two records under the video key of count 2,
    one under the channel key of count 1. *)
Example sample_main_uploads :
  (main sample_process "s3://bucket/config.json").1 = Ok tt
  /\ uploads (flow_events (main sample_process "s3://bucket/config.json").2)
     = [("bucket", "youtube_channel_stats/creation_date=2021-05-01/1.json.bz2", 1);
        ("bucket", "youtube_video_snippet/2021-05-01-2.json.bz2", 2)].
Proof. split; vm_compute; reflexivity. Qed.

Lemma aws_entry_Some config section k :
  aws config = Some section -> aws_entry config k = entry (section !! k) k.
Proof. unfold aws_entry. now intros ->. Qed.

(** X3: a configuration that lacks a key makes [main] raise the [KeyError]
    of the first absent key it reads, without any operation of the flows.
    For [aws], [s3-admin] and [athena-admin], read before the logger exists,
    nothing is saved; for [youtube], [athena-data] and [s3-data], read inside
    the [try], the log is saved (and an exception of [save_to_s3] replaces
    the [KeyError]). *)
Theorem missing_configuration_key p url config :
  read_dict_from_s3_url p url = inr config ->
  (aws config = None ->
   main p url = (Raise (KeyError "aws"), [Read_dict_from_s3_url url]))
  /\ (forall section k,
        aws config = Some section ->
        k = "s3-admin" \/ (k = "athena-admin" /\ is_Some (section !! "s3-admin")) ->
        section !! k = None ->
        main p url = (Raise (KeyError k), [Read_dict_from_s3_url url]))
  /\ (forall section s3_bucket athena_db k,
        aws config = Some section ->
        section !! "s3-admin" = Some s3_bucket ->
        section !! "athena-admin" = Some athena_db ->
        athena_logger_fails p = None ->
        (k = "youtube" /\ youtube_section config = None)
        \/ (k = "athena-data" /\ is_Some (youtube_section config)
            /\ section !! "athena-data" = None)
        \/ (k = "s3-data" /\ is_Some (youtube_section config)
            /\ is_Some (section !! "athena-data") /\ section !! "s3-data" = None) ->
        main p url
        = (match save_to_s3_fails p [] with
           | Some e => Raise e
           | None => Raise (KeyError k)
           end,
           [Save_to_s3; Athena_logger "youtube" s3_bucket athena_db;
            Read_dict_from_s3_url url])).
Proof.
  intros Hr. unfold main. rewrite Hr. repeat split.
  - intros Ha. unfold aws_entry. rewrite Ha. reflexivity.
  - intros section k Ha Hk Hnone. rewrite !(aws_entry_Some _ _ _ Ha).
    destruct Hk as [->|[-> [b Hb]]].
    + rewrite Hnone. reflexivity.
    + rewrite Hb, Hnone. reflexivity.
  - intros section b d k Ha Hb Hd Hl Hk. rewrite !(aws_entry_Some _ _ _ Ha), Hb, Hd.
    cbn [entry rbind]. rewrite Hl.
    unfold try_body, youtube_arguments. rewrite !(aws_entry_Some _ _ _ Ha), Hb.
    destruct Hk as [[-> Hy]|[(-> & [c Hy] & Hn)|(-> & [c Hy] & [a Hs] & Hn)]]; rewrite Hy.
    + cbn [entry rbind try_finally_save]. destruct (save_to_s3_fails p []); reflexivity.
    + rewrite Hn. cbn [entry rbind try_finally_save].
      destruct (save_to_s3_fails p []); reflexivity.
    + rewrite Hs, Hn. cbn [entry rbind try_finally_save].
      destruct (save_to_s3_fails p []); reflexivity.
Qed.

Lemma missing_configuration_key_witness :
  main no_data_bucket_process "s3://bucket/config.json"
  = (Raise (KeyError "s3-data"),
     [Save_to_s3; Athena_logger "youtube" "admin-bucket" "admin_db";
      Read_dict_from_s3_url "s3://bucket/config.json"]).
Proof.
  apply (proj2 (proj2 (missing_configuration_key no_data_bucket_process
                         "s3://bucket/config.json" _ eq_refl))
           (delete "s3-data" sample_aws) "admin-bucket" "admin_db" "s3-data" eq_refl).
  - vm_compute. reflexivity.
  - vm_compute. reflexivity.
  - reflexivity.
  - right. right. split; [reflexivity|]. split; [now exists two_keys|].
    split; [exists "data_db"|]; vm_compute; reflexivity.
Defined.

(** ** The channel flow runs after the video flow *)

Section GrowsFor.

Variable env : environment.
Variable credentials : list credential.
Variable P : event -> Prop.
Hypothesis P_build : forall key, P (Build key).
Hypothesis P_utcnow : P Utcnow.

Lemma grows_fetch_for fuel pool r :
  (forall y, P (Execute y r)) ->
  forall k y, grows P (fetch env credentials fuel pool r k y).
Proof.
  intros Hr. induction fuel as [|fuel IH]; intros k y; cbn [fetch].
  - apply grows_out_of_fuel.
  - apply grows_bind.
    { intros tr out tr' [= <- <-]. exists [Execute y r]. auto. }
    intros [e|resp]; [|apply grows_ret].
    destruct e; try apply grows_raise.
    destruct (Str.contains "403" str_e); [|apply grows_raise].
    apply grows_bind; [apply grows_lift|]. intros _.
    apply grows_bind; [apply grows_lift|]. intros l.
    destruct (length l <=? k + 1); [apply grows_raise|].
    apply grows_bind; [apply grows_lift|]. intros c.
    apply grows_bind; [|intros y'; apply IH].
    apply grows_bind; [now apply grows_perform|]. intros; apply grows_ret.
Qed.

Lemma grows_write_video_items_for items :
  forall written, grows P (write_video_items env items written).
Proof.
  induction items as [|item items IH]; intros written; cbn [write_video_items].
  - apply grows_ret.
  - apply grows_bind; [apply grows_lift|]. intros i1.
    apply grows_bind.
    { intros tr out tr' [= <- <-]. exists [Utcnow]. auto. }
    intros now. apply grows_bind; [apply grows_lift|]. intros i2. apply IH.
Qed.

Lemma grows_for_each_for step ids :
  (forall st i, grows P (step st i)) ->
  forall st, grows P (for_each step ids st).
Proof.
  intros Hstep. induction ids as [|i ids IH]; intros st; cbn [for_each].
  - apply grows_ret.
  - apply grows_bind; [apply Hstep|]. apply IH.
Qed.

End GrowsFor.

Lemma collect_video_snippets_video_ops env credentials s3_data fuel :
  grows video_flow_op (collect_video_snippets env credentials s3_data fuel).
Proof.
  assert (Hb : forall key, video_flow_op (Build key)) by (intros key []).
  assert (Hu : video_flow_op Utcnow) by (intros []).
  unfold collect_video_snippets, table_exists, query_athena_and_get_result,
    query_athena_and_download, compress, upload_file, query_athena_and_wait.
  apply grows_bind.
  { apply grows_bind; [apply grows_perform; intros []|]. intros; apply grows_ret. }
  intros ex. apply grows_bind.
  { apply grows_bind; [|intros; apply grows_lift].
    apply grows_perform. unfold video_flow_op, channel_flow_op. now destruct ex. }
  intros cnt. apply grows_bind.
  { apply grows_bind; [|intros; apply grows_lift].
    apply grows_perform. unfold video_flow_op, channel_flow_op. now destruct ex. }
  intros ids. apply grows_bind; [apply grows_lift|].
  intros c. apply grows_bind.
  { apply grows_bind; [now apply grows_perform|]. intros; apply grows_ret. }
  intros y. apply grows_bind.
  { apply grows_for_each_for. intros st i. unfold video_step.
    apply grows_bind.
    { apply grows_fetch_for; auto. intros y'. unfold video_flow_op, channel_flow_op.
      discriminate. }
    intros [[k y'] resp].
    apply grows_bind; [now apply grows_write_video_items_for|]. intros; apply grows_ret. }
  intros st. apply grows_bind.
  { apply grows_bind; [apply grows_perform; intros []|]. intros; apply grows_ret. }
  intros cf. apply grows_bind.
  { intros tr out tr' [= <- <-]. exists [Utcnow]. auto. }
  intros now. apply grows_bind.
  { apply grows_perform. intros (date & n & H).
    exact (video_channel_filenames_differ _ _ _ _ H). }
  intros _. apply grows_perform. intros [].
Qed.

Lemma collect_channel_stats_extends env credentials s3_data fuel tr0 out tr :
  collect_channel_stats env credentials s3_data fuel tr0 = (out, tr) ->
  exists new, tr = new ++ tr0.
Proof.
  intros Hrun.
  pose proof (hoare_collect_channel_stats env credentials tr0 s3_data fuel
                tr0 out tr eq_refl Hrun) as H.
  destruct out as [[]|e|].
  - destruct H as [(new & -> & _) _]. eauto.
  - destruct H as (new & -> & _). eauto.
  - destruct H as (new & -> & _). eauto.
Qed.

(** X15: the channel flow starts only after the video flow has returned.
    If the trace of [main] holds an operation of the channel flow (one of its
    queries, a [channels().list] call, an upload under the channel key, a
    statement on youtube_channel_stats), then the video flow returned
    normally, its whole trace precedes that operation, and the video flow
    itself performed no such operation. *)
Theorem channel_flow_follows_video_flow p url out tr :
  main p url = (out, tr) ->
  Exists channel_flow_op (flow_events tr) ->
  exists config credentials s3_data tr_v new,
    read_dict_from_s3_url p url = inr config
    /\ youtube_arguments config = Ok (credentials, s3_data)
    /\ collect_video_snippets (video_env p) credentials s3_data (length credentials) []
       = (Ok tt, tr_v)
    /\ flow_events tr = new ++ tr_v
    /\ Forall video_flow_op tr_v.
Proof.
  intros H Hex. apply main_cases in H as [H|[H|H]].
  - destruct H as (e & _ & ->). inversion Hex.
  - destruct H as (e & b & d & _ & _ & ->). inversion Hex.
  - destruct H as (config & b & d & o & t & Hr & _ & _ & _ & Hb & _ & -> & _).
    change (Exists channel_flow_op
              (flow_events ((Flow <$> t)
                 ++ [Athena_logger "youtube" b d; Read_dict_from_s3_url url]))) in Hex.
    change (flow_events (Save_to_s3 :: (Flow <$> t)
               ++ [Athena_logger "youtube" b d; Read_dict_from_s3_url url]))
      with (flow_events ((Flow <$> t)
               ++ [Athena_logger "youtube" b d; Read_dict_from_s3_url url])).
    rewrite flow_events_flow in Hex |- *.
    change (flow_events [Athena_logger "youtube" b d; Read_dict_from_s3_url url])
      with (@nil event) in Hex |- *.
    rewrite app_nil_r in Hex |- *.
    unfold try_body in Hb.
    destruct (youtube_arguments config) as [[credentials s3_data]|e|] eqn:Ha.
    2,3: injection Hb as <- <-; inversion Hex.
    apply both_flows_cases in Hb as (_ & o_v & tr_v & Hv & Hb).
    destruct (collect_video_snippets_video_ops _ _ _ _ _ _ _ Hv) as (newv & Hnv & Hfv).
    rewrite app_nil_r in Hnv. subst newv.
    destruct Hb as [(_ & _ & ->)|(-> & Hc)].
    + exfalso. apply Exists_exists in Hex as (ev & Hin & Hop).
      rewrite Forall_forall in Hfv. exact (Hfv ev Hin Hop).
    + apply collect_channel_stats_extends in Hc as (new & ->).
      exists config, credentials, s3_data, tr_v, new. auto.
Qed.

Lemma channel_flow_follows_video_flow_witness :
  exists config credentials s3_data tr_v new,
    read_dict_from_s3_url sample_process "s3://bucket/config.json" = inr config
    /\ youtube_arguments config = Ok (credentials, s3_data)
    /\ collect_video_snippets (video_env sample_process) credentials s3_data
         (length credentials) [] = (Ok tt, tr_v)
    /\ flow_events (main sample_process "s3://bucket/config.json").2 = new ++ tr_v
    /\ Forall video_flow_op tr_v.
Proof.
  apply (channel_flow_follows_video_flow sample_process "s3://bucket/config.json" _ _
           (surjective_pairing _)).
  vm_compute. apply Exists_cons_hd. exact Logic.I.
Defined.
